(** * Crypto-portfolio-tracker: discovery-and-aggregation pipeline

    A shallow embedding of the parts of [crypto_portfolio_tracker] that the
    specification's testable properties talk about:

    - [core/models.py]      the data model ([Token], [Reward], [Position], ...)
    - [core/aggregator.py]  pricing enrichment and summary construction
    - [core/scanner.py]     address padding, log chunking, chain scans
    - [rpc/retry.py]        the back-off delay and the retry loops
    - [rpc/cache.py]        the TTL cache
    - [rpc/multicall.py]    the call batcher
    - [core/registry.py]    the handler registry

    Modelling conventions.
    - A Python [Decimal] is modelled by its exact rational value ([Qc]).
      The arithmetic of the first summary construction and of the enrichment
      is exact; the rounding of the decimal context (28 significant digits,
      ties to even) is modelled in [DecimalContext], which has the summary
      construction once more, with rounded additions.  The numbers of
      [RetryConfig] and timestamps are exact rationals.
    - [time.sleep] is a recorded delay in the first retry loops; [Sleep] has
      the loops of [with_retry] and of the call batcher once more, with the
      [ValueError] of a negative delay.
    - The constructor of a handler class is taken to succeed in the first
      orchestration; [Construction] has [_get_chain_positions] once more,
      with a constructor that may raise, and [FullRun] has
      [get_all_positions] with such constructors and rounded additions.
    - A Python [str] is a [string]; characters are code points below 256.
    - [dict]s whose iteration order is never observed are [gmap]s; the one
      whose keys are listed in order ([tokens_to_price]) is an
      insertion-ordered association list.
    - External collaborators (RPC provider, pricing service, protocol
      handlers) are functions on an abstract world state, gathered in an
      environment record; exceptions are identified with their message.
    - Recursion that need not terminate ([_query_logs_with_chunking]) takes
      a bound on its depth and returns [None] when the bound is reached;
      the interpreter's own recursion limit is not modelled. *)

From Stdlib Require Import ZArith QArith Qcanon Ascii String HexString List Lia.
From stdpp Require Import base numbers option list strings gmap fin_maps.

Local Open Scope Z_scope.

(** ** Decimal numbers and Python truthiness *)

Abbreviation Decimal := Qc.

Definition dec (z : Z) : Decimal := Qc_of_Z z.

(** [x or Decimal("0")] for an optional decimal [x]: [None] and a zero
    decimal are both falsy. *)
Definition or_zero (x : option Decimal) : Decimal :=
  match x with
  | Some v => if decide (v = 0%Qc) then 0%Qc else v
  | None => 0%Qc
  end.

(** Truthiness of an optional decimal: present and non-zero. *)
Definition truthy_decimal (x : option Decimal) : option Decimal :=
  match x with
  | Some v => if decide (v = 0%Qc) then None else Some v
  | None => None
  end.

(** ** core/models.py *)

Inductive PositionType :=
  | LENDING_SUPPLY | LENDING_BORROW | LIQUID_STAKING | VAULT | RESTAKING.

Record Token := mkToken {
  address : string;
  symbol : string;
  decimals : Z;
  name : option string
}.

Record Reward := mkReward {
  reward_token : Token;
  amount : Decimal;
  reward_usd_value : option Decimal
}.

Record Position := mkPosition {
  protocol : string;
  chain : string;
  position_type : PositionType;
  token : Token;
  balance : Decimal;
  underlying_token : option Token;
  underlying_balance : option Decimal;
  usd_value : option Decimal;
  claimable_rewards : list Reward;
  apy : option Decimal;
  health_factor : option Decimal;
  metadata : list (string * string)
}.

Record PortfolioSummary := mkSummary {
  summary_address : string;
  positions : list Position;
  total_usd_value : Decimal;
  by_chain : gmap string Decimal;
  by_protocol : gmap string Decimal;
  total_claimable_rewards_usd : Decimal
}.

Record ChainActivity := mkActivity {
  activity_chain : string;
  has_activity : bool;
  protocols_detected : list string
}.

(** Field updates done by attribute assignment. *)
Definition set_usd_value (p : Position) (v : option Decimal) : Position :=
  mkPosition (protocol p) (chain p) (position_type p) (token p) (balance p)
    (underlying_token p) (underlying_balance p) v (claimable_rewards p)
    (apy p) (health_factor p) (metadata p).

Definition set_claimable_rewards (p : Position) (rs : list Reward) : Position :=
  mkPosition (protocol p) (chain p) (position_type p) (token p) (balance p)
    (underlying_token p) (underlying_balance p) (usd_value p) rs
    (apy p) (health_factor p) (metadata p).

Definition set_reward_usd_value (r : Reward) (v : option Decimal) : Reward :=
  mkReward (reward_token r) (amount r) v.

(** ** Insertion-ordered dictionaries *)

Section Dict.
Context {K V : Type} `{EqDecision K}.

(** [d[k] = v]: an existing key keeps its place, a new key goes last. *)
Fixpoint dict_set (d : list (K * V)) (k : K) (v : V) : list (K * V) :=
  match d with
  | [] => [(k, v)]
  | (k', v') :: d' =>
      if decide (k' = k) then (k', v) :: d' else (k', v') :: dict_set d' k v
  end.

(** [list(d.keys())] *)
Definition dict_keys (d : list (K * V)) : list K := map fst d.

End Dict.

(** ** core/aggregator.py: pricing enrichment *)

Definition PriceKey : Type := string * string.

(** [prices.get(key, Decimal("0"))] *)
Definition price_get (prices : gmap PriceKey Decimal) (key : PriceKey) : Decimal :=
  default 0%Qc (prices !! key).

(** First loop of [_enrich_positions_with_pricing]: the tokens to price. *)
Definition collect_step (tokens_to_price : list (PriceKey * Token)) (position : Position)
  : list (PriceKey * Token) :=
  let d := dict_set tokens_to_price (chain position, address (token position)) (token position) in
  match underlying_token position with
  | Some ut => dict_set d (chain position, address ut) ut
  | None => d
  end.

Definition tokens_to_price (positions : list Position) : list (PriceKey * Token) :=
  fold_left collect_step positions [].

(** The argument of the single [get_prices] call. *)
Definition requested_keys (positions : list Position) : list PriceKey :=
  dict_keys (tokens_to_price positions).

(** Body of the reward loop. *)
Definition enrich_reward (prices : gmap PriceKey Decimal) (position_chain : string)
    (reward : Reward) : Reward :=
  let reward_price := price_get prices (position_chain, address (reward_token reward)) in
  if decide (0 < reward_price)%Qc
  then set_reward_usd_value reward (Some (amount reward * reward_price)%Qc)
  else reward.

(** The value assigned to [position.usd_value], [None] when no branch assigns. *)
Definition priced_value (prices : gmap PriceKey Decimal) (position : Position)
  : option Decimal :=
  let token_key := (chain position, address (token position)) in
  let token_price := price_get prices token_key in
  match underlying_token position, truthy_decimal (underlying_balance position) with
  | Some ut, Some ub =>
      let underlying_price := price_get prices (chain position, address ut) in
      if decide (0 < underlying_price)%Qc then Some (ub * underlying_price)%Qc
      else if decide (0 < token_price)%Qc then Some (balance position * token_price)%Qc
      else None
  | _, _ =>
      if decide (0 < token_price)%Qc then Some (balance position * token_price)%Qc
      else None
  end.

(** Body of the second loop over positions. *)
Definition enrich_position (prices : gmap PriceKey Decimal) (position : Position)
  : Position :=
  let p1 :=
    match priced_value prices position with
    | Some v => set_usd_value position (Some v)
    | None => position
    end in
  set_claimable_rewards p1
    (map (enrich_reward prices (chain position)) (claimable_rewards p1)).

(** The second loop, given the prices the service returned. *)
Definition enrich_with (prices : gmap PriceKey Decimal) (positions : list Position)
  : list Position :=
  map (enrich_position prices) positions.

(** ** core/aggregator.py: summary construction

    The additions are exact here; [DecimalContext] below has the construction
    with the rounding of the decimal context. *)

Record SummaryAcc := mkAcc {
  total_usd : Decimal;
  acc_by_chain : gmap string Decimal;
  acc_by_protocol : gmap string Decimal;
  total_rewards_usd : Decimal
}.

(** [d[k] = d.get(k, Decimal("0")) + v] *)
Definition dict_add (d : gmap string Decimal) (k : string) (v : Decimal)
  : gmap string Decimal :=
  <[k := (default 0%Qc (d !! k) + v)%Qc]> d.

Definition summary_step (acc : SummaryAcc) (position : Position) : SummaryAcc :=
  let pos_value := or_zero (usd_value position) in
  mkAcc (total_usd acc + pos_value)%Qc
        (dict_add (acc_by_chain acc) (chain position) pos_value)
        (dict_add (acc_by_protocol acc) (protocol position) pos_value)
        (fold_left (λ t reward, (t + or_zero (reward_usd_value reward))%Qc)
           (claimable_rewards position) (total_rewards_usd acc)).

Definition _build_portfolio_summary (user_address : string) (ps : list Position)
  : PortfolioSummary :=
  let acc := fold_left summary_step ps (mkAcc 0%Qc ∅ ∅ 0%Qc) in
  mkSummary user_address ps (total_usd acc) (acc_by_chain acc)
    (acc_by_protocol acc) (total_rewards_usd acc).

(** Sum of the values of a dictionary. *)
Definition dict_sum (d : gmap string Decimal) : Decimal :=
  map_fold (λ _ v s, (v + s)%Qc) 0%Qc d.

(** USD value of a position with a missing value counted as zero. *)
Definition value_or_zero (p : Position) : Decimal := default 0%Qc (usd_value p).

Definition sum_decimals (l : list Decimal) : Decimal := foldr Qcplus 0%Qc l.

(** ** Strings: the [str] methods and the regular expression the scanner uses *)

Definition code (c : ascii) : N := N_of_ascii c.

Definition in_range (lo hi : N) (c : ascii) : bool :=
  ((lo <=? code c) && (code c <=? hi))%N.

(** [[0-9A-Fa-f]] *)
Definition is_hex_digit (c : ascii) : bool :=
  in_range 48 57 c || in_range 65 70 c || in_range 97 102 c.

(** [[0-9a-f]] *)
Definition is_lower_hex_digit (c : ascii) : bool :=
  in_range 48 57 c || in_range 97 102 c.

(** [\s] on a [str] pattern, for code points below 256. *)
Definition is_whitespace (c : ascii) : bool :=
  in_range 9 13 c || in_range 28 32 c || (code c =? 133)%N || (code c =? 160)%N.

(** [str.lower] on one code point below 256. *)
Definition char_lower (c : ascii) : ascii :=
  if in_range 65 90 c || (in_range 192 222 c && negb (code c =? 215)%N)
  then ascii_of_N (code c + 32)
  else c.

Fixpoint str_lower (s : string) : string :=
  match s with
  | EmptyString => EmptyString
  | String c rest => String (char_lower c) (str_lower rest)
  end.

Fixpoint str_all (P : ascii → bool) (s : string) : bool :=
  match s with
  | EmptyString => true
  | String c rest => P c && str_all P rest
  end.

Fixpoint str_repeat (c : ascii) (n : nat) : string :=
  match n with
  | O => EmptyString
  | S n' => String c (str_repeat c n')
  end.

(** [s.startswith(p)], returning what follows the prefix. *)
Fixpoint strip_prefix (p s : string) : option string :=
  match p, s with
  | EmptyString, _ => Some s
  | String a p', String b s' => if decide (a = b) then strip_prefix p' s' else None
  | String _ _, EmptyString => None
  end.

(** [needle in s] *)
Fixpoint str_contains (needle s : string) : bool :=
  match strip_prefix needle s with
  | Some _ => true
  | None =>
      match s with
      | EmptyString => false
      | String _ rest => str_contains needle rest
      end
  end.

(** The longest prefix of characters satisfying [P], and the rest. *)
Fixpoint span (P : ascii → bool) (s : string) : string * string :=
  match s with
  | EmptyString => (EmptyString, EmptyString)
  | String c rest =>
      if P c then let '(a, b) := span P rest in (String c a, b)
      else (EmptyString, s)
  end.

(** [s.replace("0x", "")]: every occurrence, left to right, non-overlapping. *)
Fixpoint replace_0x (s : string) : string :=
  match s with
  | EmptyString => EmptyString
  | String c rest =>
      match rest with
      | String c2 rest2 =>
          if decide (c = "0"%char ∧ c2 = "x"%char) then replace_0x rest2
          else String c (replace_0x rest)
      | EmptyString => String c EmptyString
      end
  end.

(** [s.zfill(width)]: zeros go after a leading sign. *)
Definition zfill (width : nat) (s : string) : string :=
  let n := String.length s in
  if (width <=? n)%nat then s
  else
    match s with
    | String c rest =>
        if decide (c = "+"%char ∨ c = "-"%char)
        then String c (str_repeat "0"%char (width - n) +:+ rest)
        else str_repeat "0"%char (width - n) +:+ s
    | EmptyString => str_repeat "0"%char width
    end.

(** [re.match] of [\[0x([0-9A-Fa-f]+),\s*0x([0-9A-Fa-f]+)\]] at the start of
    [s]; the two groups.  Every repetition is followed by a character outside
    its class, so the greedy match is the longest run. *)
Definition match_block_range (s : string) : option (string * string) :=
  r0 ← strip_prefix "[0x" s;
  let '(g1, r1) := span is_hex_digit r0 in
  if decide (g1 = "") then None
  else
    r2 ← strip_prefix "," r1;
    let '(_, r3) := span is_whitespace r2 in
    r4 ← strip_prefix "0x" r3;
    let '(g2, r5) := span is_hex_digit r4 in
    if decide (g2 = "") then None
    else _ ← strip_prefix "]" r5; Some (g1, g2).

(** [re.search]: the leftmost position where the pattern matches. *)
Fixpoint search_block_range (s : string) : option (string * string) :=
  match match_block_range s with
  | Some r => Some r
  | None =>
      match s with
      | EmptyString => None
      | String _ rest => search_block_range rest
      end
  end.

(** [hex(n)] and [int(s, 16)] on a [0x]-prefixed string of hex digits. *)
Definition hex (z : Z) : string := HexString.of_Z z.
Definition int16 (s : string) : Z := HexString.to_Z s.

(** ** core/scanner.py *)

(** Exceptions are identified with their message [str(e)]. *)
Inductive Outcome (A : Type) :=
  | Ok (a : A)
  | Raise (error_msg : string).
Arguments Ok {A} a.
Arguments Raise {A} error_msg.

(** The filter object of an [eth_getLogs] request; [None] is a wildcard topic. *)
Record LogFilter := mkFilter {
  fromBlock : string;
  toBlock : string;
  topics : list (option string)
}.

(** A log entry; the scanner only counts them. *)
Definition Log : Type := string.

(** [rpc_provider.make_request("eth_getLogs", [filter])] on a state [S]. *)
Definition GetLogs (S : Type) : Type := LogFilter → S → Outcome (list Log) * S.

Definition _pad_address (address : string) : string :=
  let clean_addr := replace_0x (str_lower address) in
  "0x" +:+ zfill 64 clean_addr.

(** The test of the [except] branch: the message names the result limit and
    carries a block range. *)
Definition chunk_suggestion (error_msg : string) : option (string * string) :=
  if str_contains "query returned more than 10000 results" error_msg
     || str_contains "Try with this block range" error_msg
  then search_block_range error_msg
  else None.

(** [all_logs.extend(...)] under [try: ... except Exception: pass]; [None]
    is a query that has not returned. *)
Definition extend_or_pass {S : Type} (all_logs : list Log)
    (r : option (Outcome (list Log) * S)) : option (list Log * S) :=
  match r with
  | None => None
  | Some (Ok more, s) => Some (all_logs ++ more, s)
  | Some (Raise _, s) => Some (all_logs, s)
  end.

(** [fuel] bounds the recursion depth; [None] means the bound was reached. *)
Fixpoint _query_logs_with_chunking {S : Type} (make_request : GetLogs S) (fuel : nat)
    (tps : list (option string)) (from_block to_block : string) (s : S)
  : option (Outcome (list Log) * S) :=
  match fuel with
  | O => None
  | S fuel' =>
      match make_request (mkFilter from_block to_block tps) s with
      | (Ok logs, s1) => Some (Ok logs, s1)
      | (Raise error_msg, s1) =>
          match chunk_suggestion error_msg with
          | None => Some (Raise error_msg, s1)
          | Some (g1, g2) =>
              let suggested_from := "0x" +:+ g1 in
              let suggested_to := "0x" +:+ g2 in
              match _query_logs_with_chunking make_request fuel' tps
                      suggested_from suggested_to s1 with
              | None => None
              | Some (Raise e, s2) => Some (Raise e, s2)
              | Some (Ok chunk_logs, s2) =>
                  let before :=
                    if decide (from_block = suggested_from) then Some (chunk_logs, s2)
                    else
                      let before_end := hex (int16 suggested_from - 1) in
                      extend_or_pass chunk_logs
                        (_query_logs_with_chunking make_request fuel' tps
                           from_block before_end s2) in
                  match before with
                  | None => None
                  | Some (all_logs, s3) =>
                      let after :=
                        if decide (to_block = "latest" ∨ to_block ≠ suggested_to) then
                          let after_start := hex (int16 suggested_to + 1) in
                          extend_or_pass all_logs
                            (_query_logs_with_chunking make_request fuel' tps
                               after_start to_block s3)
                        else Some (all_logs, s3) in
                      match after with
                      | None => None
                      | Some (all_logs', s4) => Some (Ok all_logs', s4)
                      end
                  end
              end
          end
      end
  end.

(** *** Block ranges and what a chunked query returns *)

(** The block number a block tag stands for when the chain head is [latest]. *)
Definition block_number (latest : Z) (tag : string) : Z :=
  if decide (tag = "latest") then latest else int16 tag.

(** Number of blocks in the range [from_block .. to_block]. *)
Definition range_size (latest : Z) (from_block to_block : string) : nat :=
  Z.to_nat (block_number latest to_block - block_number latest from_block + 1).

(** [needle] occurs in [s]. *)
Definition occurs (needle s : string) : Prop :=
  ∃ before after, s = before +:+ needle +:+ after.

Definition hex_digit_chars : list ascii :=
  list_ascii_of_string "0123456789abcdefABCDEF".

(** A non-empty string of hexadecimal digits, of either case. *)
Definition hex_digits (g : string) : Prop :=
  g ≠ "" ∧ Forall (λ c, c ∈ hex_digit_chars) (list_ascii_of_string g).

(** The text of a "too many results" error, in the format the scanner
    documents ("Try with this block range [0xE4E58A, 0xFEE64F]"): [g1] and
    [g2] are the digits of the two block numbers, [before] is the text in
    front of the range, [blanks] the number of blanks behind the comma and
    [after] the text behind the range. *)
Definition too_many_results (before g1 : string) (blanks : nat) (g2 after : string)
  : string :=
  before +:+ "[0x" +:+ g1 +:+ "," +:+ str_repeat " " blanks +:+ "0x" +:+ g2 +:+ "]" +:+ after.

(** [error_msg] is a "too many results" error that suggests the block range
    from [0x g1] to [0x g2]: it names the result limit or says "Try with this
    block range", and the range is the first bracket of the text. *)
Definition suggests (error_msg g1 g2 : string) : Prop :=
  ∃ before blanks after,
    error_msg = too_many_results before g1 blanks g2 after
    ∧ (occurs "query returned more than 10000 results" error_msg
       ∨ occurs "Try with this block range" error_msg)
    ∧ ¬ occurs "[" before
    ∧ hex_digits g1 ∧ hex_digits g2.

(** [error_msg] has nothing to do with the result limit. *)
Definition unrelated (error_msg : string) : Prop :=
  ¬ occurs "query returned more than 10000 results" error_msg
  ∧ ¬ occurs "Try with this block range" error_msg.

(** Every error of the provider is either unrelated to the result limit or
    a "too many results" error whose suggested range is not empty, is
    strictly narrower than the queried range and overlaps it, as every
    proper sub-range of the queried range does. *)
Definition narrowing {S : Type} (latest : Z) (make_request : GetLogs S) : Prop :=
  ∀ flt s error_msg s',
    make_request flt s = (Raise error_msg, s') →
    unrelated error_msg
    ∨ ∃ g1 g2,
        suggests error_msg g1 g2
        ∧ let f := block_number latest (fromBlock flt) in
          let t := block_number latest (toBlock flt) in
          let sf := int16 ("0x" +:+ g1) in
          let st := int16 ("0x" +:+ g2) in
          sf ≤ st ∧ st - sf < t - f ∧ sf ≤ t ∧ f ≤ st.

(** Big-step description of a chunked query, in terms of the requests made
    and the text of the errors: a request that succeeds returns its logs; an
    error unrelated to the result limit is raised; a request refused with a
    suggested range returns the logs of the suggested chunk, then of the
    chunk before it, then of the chunk after it.  A side chunk that is not
    queried, or whose query raised, contributes no logs. *)
Inductive chunked {S : Type} (make_request : GetLogs S) (tps : list (option string))
  : string → string → S → Outcome (list Log) → S → Prop :=
  | chunked_direct from_block to_block s logs s1 :
      make_request (mkFilter from_block to_block tps) s = (Ok logs, s1) →
      chunked make_request tps from_block to_block s (Ok logs) s1
  | chunked_raise from_block to_block s error_msg s1 :
      make_request (mkFilter from_block to_block tps) s = (Raise error_msg, s1) →
      unrelated error_msg →
      chunked make_request tps from_block to_block s (Raise error_msg) s1
  | chunked_suggested_raise from_block to_block s error_msg s1 g1 g2 e s2 :
      make_request (mkFilter from_block to_block tps) s = (Raise error_msg, s1) →
      suggests error_msg g1 g2 →
      chunked make_request tps ("0x" +:+ g1) ("0x" +:+ g2) s1 (Raise e) s2 →
      chunked make_request tps from_block to_block s (Raise e) s2
  | chunked_concat from_block to_block s error_msg s1 g1 g2
      chunk_logs s2 before_logs s3 after_logs s4 :
      make_request (mkFilter from_block to_block tps) s = (Raise error_msg, s1) →
      suggests error_msg g1 g2 →
      chunked make_request tps ("0x" +:+ g1) ("0x" +:+ g2) s1 (Ok chunk_logs) s2 →
      side_chunk make_request tps (from_block ≠ "0x" +:+ g1)
        from_block (hex (int16 ("0x" +:+ g1) - 1)) s2 before_logs s3 →
      side_chunk make_request tps (to_block = "latest" ∨ to_block ≠ "0x" +:+ g2)
        (hex (int16 ("0x" +:+ g2) + 1)) to_block s3 after_logs s4 →
      chunked make_request tps from_block to_block s
        (Ok (chunk_logs ++ before_logs ++ after_logs)) s4
with side_chunk {S : Type} (make_request : GetLogs S) (tps : list (option string))
  : Prop → string → string → S → list Log → S → Prop :=
  | side_skipped (queried : Prop) from_block to_block s :
      ¬ queried →
      side_chunk make_request tps queried from_block to_block s [] s
  | side_returned (queried : Prop) from_block to_block s logs s' :
      queried →
      chunked make_request tps from_block to_block s (Ok logs) s' →
      side_chunk make_request tps queried from_block to_block s logs s'
  | side_raised (queried : Prop) from_block to_block s e s' :
      queried →
      chunked make_request tps from_block to_block s (Raise e) s' →
      side_chunk make_request tps queried from_block to_block s [] s'.

(** The errors that reach the caller: an unrecognised error of the call's
    own request, or one that reaches the caller of the query of the
    suggested range. *)
Inductive surfaces {S : Type} (make_request : GetLogs S) (tps : list (option string))
  : string → string → S → string → S → Prop :=
  | surfaces_here from_block to_block s error_msg s1 :
      make_request (mkFilter from_block to_block tps) s = (Raise error_msg, s1) →
      chunk_suggestion error_msg = None →
      surfaces make_request tps from_block to_block s error_msg s1
  | surfaces_suggested from_block to_block s error_msg s1 g1 g2 e s2 :
      make_request (mkFilter from_block to_block tps) s = (Raise error_msg, s1) →
      chunk_suggestion error_msg = Some (g1, g2) →
      surfaces make_request tps ("0x" +:+ g1) ("0x" +:+ g2) s1 e s2 →
      surfaces make_request tps from_block to_block s e s2.

(** A provider that also keeps the list of the errors it raised. *)
Definition recording {S : Type} (make_request : GetLogs S)
  : GetLogs (S * list (LogFilter * string)) :=
  λ flt '(s, raised),
    match make_request flt s with
    | (Ok logs, s') => (Ok logs, (s', raised))
    | (Raise error_msg, s') => (Raise error_msg, (s', (flt, error_msg) :: raised))
    end.

(** The reading of "every unrecognised provider error propagates, also from
    the before-range and after-range chunks": whenever a chunked query
    returns, it raises each unrecognised error the provider raised on the way. *)
Definition every_unrecognised_error_propagates : Prop :=
  ∀ (S : Type) (make_request : GetLogs S) fuel tps from_block to_block s out s' raised,
    _query_logs_with_chunking (recording make_request) fuel tps from_block to_block (s, [])
      = Some (out, (s', raised)) →
    ∀ flt error_msg,
      (flt, error_msg) ∈ raised →
      chunk_suggestion error_msg = None →
      out = Raise error_msg.

(** A provider with ten blocks that refuses the full range and suggests the
    first five blocks. *)
Definition too_many_0_4 : string :=
  "query returned more than 10000 results. Try with this block range [0x0, 0x4].".

Definition halving_provider : GetLogs () :=
  λ flt s,
    if decide (fromBlock flt = "0x0" ∧ toBlock flt = "latest") then (Raise too_many_0_4, s)
    else if decide (fromBlock flt = "0x0") then (Ok ["log-a"], s)
    else (Ok ["log-b"], s).

(** A provider with ten blocks that refuses the full range and suggests
    the blocks 3 to 5; the other ranges are answered. *)
Definition too_many_3_5 : string :=
  "query returned more than 10000 results. Try with this block range [0x3, 0x5].".

Definition three_chunk_provider : GetLogs () :=
  λ flt s,
    if decide (fromBlock flt = "0x0" ∧ toBlock flt = "latest") then (Raise too_many_3_5, s)
    else if decide (fromBlock flt = "0x3") then (Ok ["log-b"], s)
    else if decide (fromBlock flt = "0x0") then (Ok ["log-a"], s)
    else (Ok ["log-c"], s).

(** A provider that refuses the full range and then fails on every other
    request, the suggested range included. *)
Definition broken_provider : GetLogs () :=
  λ flt s,
    if decide (fromBlock flt = "0x0" ∧ toBlock flt = "latest") then (Raise too_many_0_4, s)
    else (Raise "connection reset", s).

(** The same provider, failing on every range that does not start at block 0. *)
Definition flaky_provider : GetLogs () :=
  λ flt s,
    if decide (fromBlock flt = "0x0" ∧ toBlock flt = "latest") then (Raise too_many_0_4, s)
    else if decide (fromBlock flt = "0x0") then (Ok ["log-a"], s)
    else (Raise "connection reset", s).

(** ** The external world

    The RPC provider, the pricing service and the protocol handlers act on a
    world state [W].  Every call that leaves the process is recorded, newest
    first, in a trace next to the world. *)

Inductive Event :=
  | EvGetLogs (flt : LogFilter)
  | EvDiscover (user_address chain_name : string)
  | EvGetPositions (protocol_name user_address chain_name : string)
  | EvGetPrices (tokens : list PriceKey).

Record State (W : Type) := mkState {
  world : W;
  trace : list Event
}.
Arguments mkState {W} world trace.
Arguments world {W} s.
Arguments trace {W} s.

(** A protocol handler class: its static metadata and [get_positions]. *)
Record Handler (W : Type) := mkHandler {
  supported_chains : list string;
  discovery_events : list string;
  get_positions : string → string → W → Outcome (list Position) * W
}.
Arguments mkHandler {W} supported_chains discovery_events get_positions.
Arguments supported_chains {W} h.
Arguments discovery_events {W} h.
Arguments get_positions {W} h user_address chain_name w.

Record Env (W : Type) := mkEnv {
  (** [get_all_supported_chains()] *)
  all_supported_chains : list string;
  (** [rpc_provider.make_request("eth_getLogs", [filter])] *)
  rpc_get_logs : GetLogs W;
  (** [ProtocolRegistry._handlers], in insertion order *)
  registry : list (string * Handler W);
  (** [pricing_service.get_prices(tokens)] *)
  pricing_get_prices : list PriceKey → W → gmap PriceKey Decimal * W
}.
Arguments mkEnv {W} all_supported_chains rpc_get_logs registry pricing_get_prices.
Arguments all_supported_chains {W} e.
Arguments rpc_get_logs {W} e.
Arguments registry {W} e.
Arguments pricing_get_prices {W} e.

Definition emit {W : Type} (ev : Event) (st : State W) : State W :=
  mkState (world st) (ev :: trace st).

(** The provider as the scanner sees it, with the request recorded. *)
Definition make_request {W : Type} (env : Env W) : GetLogs (State W) :=
  λ flt st,
    let '(r, w) := rpc_get_logs env flt (world st) in
    (r, mkState w (EvGetLogs flt :: trace st)).

(** *** core/registry.py *)

Fixpoint dict_get {V : Type} (d : list (string * V)) (k : string) : option V :=
  match d with
  | [] => None
  | (k', v) :: d' => if decide (k' = k) then Some v else dict_get d' k
  end.

Definition get_handler {W : Type} (env : Env W) (protocol_name : string)
  : option (Handler W) :=
  dict_get (registry env) protocol_name.

Definition get_handlers_for_chain {W : Type} (env : Env W) (chain_name : string)
  : list (string * Handler W) :=
  filter (λ nh, chain_name ∈ supported_chains nh.2) (registry env).

Definition get_discovery_events {W : Type} (env : Env W) (chain_name : string)
  : list (string * list string) :=
  fold_left (λ events nh, dict_set events nh.1 (discovery_events nh.2))
    (get_handlers_for_chain env chain_name) [].

(** *** Chain scans *)

Definition TRANSFER_TOPIC : string :=
  "0xddf252ad1be2c89b69c2b068fc378daa952ba7f163c4a11628f55a4df523b3ef".

(** The request of the activity probe: transfers to the user, all blocks. *)
Definition activity_filter (user_address : string) : LogFilter :=
  mkFilter "0x0" "latest" [Some TRANSFER_TOPIC; None; Some (_pad_address user_address)].

Definition _has_chain_activity {W : Type} (env : Env W)
    (user_address chain_name : string) (st : State W) : bool * State W :=
  match make_request env (activity_filter user_address) st with
  | (Ok logs, st') => (bool_decide (0 < length logs)%nat, st')
  | (Raise _, st') => (false, st')
  end.

Fixpoint detect_active_chains_loop {W : Type} (env : Env W) (user_address : string)
    (chains active_chains : list string) (st : State W) : list string * State W :=
  match chains with
  | [] => (active_chains, st)
  | c :: rest =>
      let '(b, st') := _has_chain_activity env user_address c st in
      detect_active_chains_loop env user_address rest
        (if b then active_chains ++ [c] else active_chains) st'
  end.

Definition detect_active_chains {W : Type} (env : Env W) (user_address : string)
    (st : State W) : list string * State W :=
  detect_active_chains_loop env user_address (all_supported_chains env) [] st.

(** The three candidate topic layouts of one event signature. *)
Definition topic_layouts (event_sig padded_address : string)
  : list (list (option string)) :=
  [ [Some event_sig; Some padded_address];
    [Some event_sig; None; Some padded_address];
    [Some event_sig; None; None; Some padded_address] ].

(** The inner [for topics in ...] loop: [true] is the early [return True]. *)
Fixpoint probe_layouts {W : Type} (env : Env W) (fuel : nat)
    (layouts : list (list (option string))) (st : State W)
  : option (bool * State W) :=
  match layouts with
  | [] => Some (false, st)
  | tps :: rest =>
      match _query_logs_with_chunking (make_request env) fuel tps "0x0" "latest" st with
      | None => None
      | Some (Ok logs, st') =>
          if bool_decide (0 < length logs)%nat then Some (true, st')
          else probe_layouts env fuel rest st'
      | Some (Raise _, st') => probe_layouts env fuel rest st'
      end
  end.

Fixpoint _has_protocol_activity_loop {W : Type} (env : Env W) (fuel : nat)
    (padded_address : string) (event_signatures : list string) (st : State W)
  : option (bool * State W) :=
  match event_signatures with
  | [] => Some (false, st)
  | event_sig :: rest =>
      match probe_layouts env fuel (topic_layouts event_sig padded_address) st with
      | None => None
      | Some (true, st') => Some (true, st')
      | Some (false, st') => _has_protocol_activity_loop env fuel padded_address rest st'
      end
  end.

Definition _has_protocol_activity {W : Type} (env : Env W) (fuel : nat)
    (user_address chain_name : string) (event_signatures : list string) (st : State W)
  : option (bool * State W) :=
  _has_protocol_activity_loop env fuel (_pad_address user_address) event_signatures st.

Fixpoint discover_protocols_loop {W : Type} (env : Env W) (fuel : nat)
    (user_address chain_name : string) (items : list (string * list string))
    (discovered_protocols : list string) (st : State W)
  : option (list string * State W) :=
  match items with
  | [] => Some (discovered_protocols, st)
  | (protocol_name, event_signatures) :: rest =>
      match _has_protocol_activity env fuel user_address chain_name event_signatures st with
      | None => None
      | Some (b, st') =>
          discover_protocols_loop env fuel user_address chain_name rest
            (if b then discovered_protocols ++ [protocol_name] else discovered_protocols) st'
      end
  end.

Definition discover_protocols {W : Type} (env : Env W) (fuel : nat)
    (user_address chain_name : string) (st : State W)
  : option (list string * State W) :=
  discover_protocols_loop env fuel user_address chain_name
    (get_discovery_events env chain_name) []
    (emit (EvDiscover user_address chain_name) st).

Definition scan_chain {W : Type} (env : Env W) (fuel : nat)
    (user_address chain_name : string) (st : State W)
  : option (ChainActivity * State W) :=
  let '(activity, st1) := _has_chain_activity env user_address chain_name st in
  if negb activity then Some (mkActivity chain_name false [], st1)
  else
    match discover_protocols env fuel user_address chain_name st1 with
    | None => None
    | Some (protocols, st2) => Some (mkActivity chain_name true protocols, st2)
    end.

Fixpoint scan_all_chains_loop {W : Type} (env : Env W) (fuel : nat)
    (user_address : string) (active_chains chains : list string)
    (results : list ChainActivity) (st : State W)
  : option (list ChainActivity * State W) :=
  match chains with
  | [] => Some (results, st)
  | c :: rest =>
      if decide (c ∈ active_chains) then
        match scan_chain env fuel user_address c st with
        | None => None
        | Some (activity, st') =>
            scan_all_chains_loop env fuel user_address active_chains rest
              (results ++ [activity]) st'
        end
      else
        scan_all_chains_loop env fuel user_address active_chains rest
          (results ++ [mkActivity c false []]) st
  end.

Definition scan_all_chains {W : Type} (env : Env W) (fuel : nat)
    (user_address : string) (st : State W)
  : option (list ChainActivity * State W) :=
  let '(active_chains, st1) := detect_active_chains env user_address st in
  scan_all_chains_loop env fuel user_address active_chains
    (all_supported_chains env) [] st1.

(** ** core/aggregator.py: orchestration

    The construction of a handler, [handler_class(rpc_provider=...)], is
    taken to succeed here; [Construction] and [FullRun] below have the
    orchestration with constructors that may raise. *)

Fixpoint _get_chain_positions {W : Type} (env : Env W)
    (user_address chain_name : string) (protocols : list string)
    (found : list Position) (st : State W) : list Position * State W :=
  match protocols with
  | [] => (found, st)
  | protocol_name :: rest =>
      match get_handler env protocol_name with
      | None => _get_chain_positions env user_address chain_name rest found st
      | Some handler =>
          let '(r, w) := get_positions handler user_address chain_name (world st) in
          let st' := mkState w (EvGetPositions protocol_name user_address chain_name :: trace st) in
          match r with
          | Ok protocol_positions =>
              _get_chain_positions env user_address chain_name rest
                (found ++ protocol_positions) st'
          | Raise _ =>
              _get_chain_positions env user_address chain_name rest found st'
          end
      end
  end.

(** The per-chain tasks of the worker pool, run one after the other in
    submission order; the interleaving of the pool is not modelled. *)
Fixpoint fan_out {W : Type} (env : Env W) (user_address : string)
    (active_chains : list ChainActivity) (all_positions : list Position)
    (st : State W) : list Position * State W :=
  match active_chains with
  | [] => (all_positions, st)
  | activity :: rest =>
      let '(chain_positions, st') :=
        _get_chain_positions env user_address (activity_chain activity)
          (protocols_detected activity) [] st in
      fan_out env user_address rest (all_positions ++ chain_positions) st'
  end.

Definition _enrich_positions_with_pricing {W : Type} (env : Env W)
    (ps : list Position) (st : State W) : list Position * State W :=
  match ps with
  | [] => (ps, st)
  | _ :: _ =>
      let tokens := requested_keys ps in
      let '(prices, w) := pricing_get_prices env tokens (world st) in
      (enrich_with prices ps, mkState w (EvGetPrices tokens :: trace st))
  end.

Definition get_all_positions {W : Type} (env : Env W) (fuel : nat)
    (user_address : string) (st : State W)
  : option (PortfolioSummary * State W) :=
  match scan_all_chains env fuel user_address st with
  | None => None
  | Some (chain_activities, st1) =>
      let active_chains := filter (λ a, has_activity a = true) chain_activities in
      match active_chains with
      | [] => Some (mkSummary user_address [] 0%Qc ∅ ∅ 0%Qc, st1)
      | _ :: _ =>
          let '(all_positions, st2) := fan_out env user_address active_chains [] st1 in
          let '(enriched_positions, st3) := _enrich_positions_with_pricing env all_positions st2 in
          Some (_build_portfolio_summary user_address enriched_positions, st3)
      end
  end.

(** ** rpc/retry.py *)

Module Retry.

Record RetryConfig := mkRetryConfig {
  max_retries : Z;
  base_delay : Qc;
  max_delay : Qc;
  exponential_base : Qc
}.

(** [min(a, b)]: the first argument unless the second is smaller. *)
Definition py_min (a b : Qc) : Qc := if decide (b < a)%Qc then b else a.

Definition get_delay (cfg : RetryConfig) (attempt : nat) : Qc :=
  let delay := (base_delay cfg * exponential_base cfg ^ attempt)%Qc in
  py_min delay (max_delay cfg).

End Retry.

(** ** rpc/cache.py

    [time.time()] is the argument [now] of the operations that read the clock;
    [_make_key], a SHA-256 digest of the JSON text of the request, is a
    parameter. *)

Module Cache.

Record CacheEntry (Value : Type) := mkEntry {
  value : Value;
  ttl : Z;
  created_at : Qc
}.
Arguments mkEntry {Value} value ttl created_at.
Arguments value {Value} c.
Arguments ttl {Value} c.
Arguments created_at {Value} c.

Definition is_expired {Value : Type} (now : Qc) (entry : CacheEntry Value) : bool :=
  bool_decide (Qc_of_Z (ttl entry) < now - created_at entry)%Qc.

Record RPCCache (Value : Type) := mkCache {
  default_ttl : Z;
  _cache : gmap string (CacheEntry Value)
}.
Arguments mkCache {Value} default_ttl _cache.
Arguments default_ttl {Value} r.
Arguments _cache {Value} r.

Section Operations.
Context {Value : Type} (_make_key : string → list string → string).

Definition get (now : Qc) (method : string) (params : list string)
    (self : RPCCache Value) : option Value * RPCCache Value :=
  let key := _make_key method params in
  match _cache self !! key with
  | None => (None, self)
  | Some entry =>
      if is_expired now entry
      then (None, mkCache (default_ttl self) (delete key (_cache self)))
      else (Some (value entry), self)
  end.

(** [ttl or self.default_ttl]: [None] and [0] both select the default. *)
Definition set (now : Qc) (method : string) (params : list string) (v : Value)
    (ttl_arg : option Z) (self : RPCCache Value) : RPCCache Value :=
  let key := _make_key method params in
  let ttl' :=
    match ttl_arg with
    | Some t => if decide (t = 0) then default_ttl self else t
    | None => default_ttl self
    end in
  mkCache (default_ttl self) (<[key := mkEntry v ttl' now]> (_cache self)).

End Operations.

End Cache.

(** ** Frame of the enrichment and sample inputs *)

(** Two rewards that agree on everything but [usd_value]. *)
Definition same_reward_but_usd (r r' : Reward) : Prop :=
  reward_token r' = reward_token r ∧ amount r' = amount r.

(** Two positions that agree on everything but [usd_value] and the
    [usd_value] of their rewards. *)
Definition same_but_usd (p p' : Position) : Prop :=
  protocol p' = protocol p
  ∧ chain p' = chain p
  ∧ position_type p' = position_type p
  ∧ token p' = token p
  ∧ balance p' = balance p
  ∧ underlying_token p' = underlying_token p
  ∧ underlying_balance p' = underlying_balance p
  ∧ Forall2 same_reward_but_usd (claimable_rewards p) (claimable_rewards p')
  ∧ apy p' = apy p
  ∧ health_factor p' = health_factor p
  ∧ metadata p' = metadata p.

Definition moo_usdc : Token := mkToken "0xaa" "mooUSDC" 18 None.
Definition usdc : Token := mkToken "0xbb" "USDC" 6 None.
Definition crv : Token := mkToken "0xcc" "CRV" 18 None.

(** A vault position whose underlying balance is a zero decimal. *)
Definition zero_underlying_position : Position :=
  mkPosition "beefy" "ethereum" VAULT moo_usdc (dec 5) (Some usdc) (Some (dec 0))
    None [] None None [].

Definition sample_prices : gmap PriceKey Decimal :=
  <[("ethereum", "0xbb") := dec 2000]> (<[("ethereum", "0xaa") := dec 10]> ∅).

(** A position with a claimable reward in a third token. *)
Definition reward_position : Position :=
  mkPosition "aave_v3" "ethereum" LENDING_SUPPLY moo_usdc (dec 5) None None
    None [mkReward crv (dec 7) None] None None [].

(** [RetryConfig(base_delay=1, exponential_base=2, max_delay=30)] *)
Definition sample_retry_config : Retry.RetryConfig :=
  Retry.mkRetryConfig 3 (dec 1) (dec 30) (dec 2).

(** Between two states the only calls that left the process were activity
    probes for the user: no discovery, no handler call, no pricing call. *)
Definition only_activity_probes {W : Type} (user_address : string) (st st' : State W)
  : Prop :=
  ∃ delta, trace st' = delta ++ trace st
           ∧ Forall (λ ev, ev = EvGetLogs (activity_filter user_address)) delta.

(** A two-chain deployment whose provider returns a transfer log to the
    first request only; the world counts the requests served. *)
Definition fading_env : Env nat :=
  mkEnv ["ethereum"; "base"]
    (λ _ w, (if decide (w = 0%nat) then Ok ["transfer-log"] else Ok [], Datatypes.S w))
    [("lido", mkHandler ["ethereum"] ["0xfeed"] (λ _ _ w, (Ok [], w)))]
    (λ _ w, (∅, w)).

Definition sample_wallet : string := "0xAbCdEF0123456789abcdef0123456789ABCDEF01".

(** ** Further sample inputs *)

Definition steth : Token := mkToken "0xae7a" "stETH" 18 None.
Definition eth : Token := mkToken "" "ETH" 18 None.

(** 10.5 stETH, redeemable for 10.5 ETH. *)
Definition lido_position : Position :=
  mkPosition "lido" "ethereum" LIQUID_STAKING steth (Q2Qc (21 # 2)) (Some eth)
    (Some (Q2Qc (21 # 2))) None [] None None [].

Definition eth_price_2000 : gmap PriceKey Decimal := {[ ("ethereum", "") := dec 2000 ]}.

(** The USD value of a reward with a missing value counted as zero. *)
Definition reward_value_or_zero (r : Reward) : Decimal := default 0%Qc (reward_usd_value r).

(** ** rpc/cache.py: the maintenance sweep

    [cleanup_expired] reads the clock once per entry; [clock k] is the
    reading taken when the entry stored under key [k] is examined. *)

Module CacheSweep.

Definition cleanup_expired {Value : Type} (clock : string → Qc)
    (self : Cache.RPCCache Value) : nat * Cache.RPCCache Value :=
  let expired_keys :=
    (map_to_list
       (filter (λ ke, Cache.is_expired (clock ke.1) ke.2 = true) (Cache._cache self))).*1 in
  (length expired_keys,
   Cache.mkCache (Cache.default_ttl self) (foldr delete (Cache._cache self) expired_keys)).

End CacheSweep.

(** A cache keyed by the method name alone, with two entries created at
    time 0: one that lives 10 seconds and one that lives 1000 seconds. *)
Definition method_key (method : string) (params : list string) : string := method.

Definition two_entry_cache : Cache.RPCCache string :=
  Cache.set method_key 0%Qc "eth_call" [] "0x01" (Some 1000)
    (Cache.set method_key 0%Qc "eth_blockNumber" [] "0x10" (Some 10)
       (Cache.mkCache 300 ∅)).

(** ** rpc/retry.py: the retry loops

    A retried function acts on a state [S] and returns or raises; the
    [time.sleep] calls are collected, oldest first.  Every sleep is taken to
    return; [Sleep] below has the loops with a sleep that raises on a
    negative delay. *)

Module RetryLoop.

(** [RetryConfig()] *)
Definition default_config : Retry.RetryConfig :=
  Retry.mkRetryConfig 3 (dec 1) (dec 30) (dec 2).

(** [raise last_exception]: raising [None] is a [TypeError]. *)
Definition raise_last {A : Type} (last_exception : option string) : Outcome A :=
  match last_exception with
  | Some e => Raise e
  | None => Raise "exceptions must derive from BaseException"
  end.

(** The [for attempt in range(config.max_retries + 1)] loop of [with_retry],
    from iteration [attempt] on, with [remaining] iterations left. *)
Fixpoint retry_loop {S A : Type} (config : Retry.RetryConfig) (func : S → Outcome A * S)
    (remaining attempt : nat) (last_exception : option string) (s : S) (sleeps : list Qc)
  : Outcome A * S * list Qc :=
  match remaining with
  | O => (raise_last last_exception, s, sleeps)
  | Datatypes.S remaining' =>
      match func s with
      | (Ok result, s') => (Ok result, s', sleeps)
      | (Raise e, s') =>
          if decide (Z.of_nat attempt = Retry.max_retries config)
          then (raise_last (Some e), s', sleeps)
          else retry_loop config func remaining' (Datatypes.S attempt) (Some e) s'
                 (sleeps ++ [Retry.get_delay config attempt])
      end
  end.

(** The wrapper built by [with_retry(config)(func)]. *)
Definition with_retry {S A : Type} (config : option Retry.RetryConfig)
    (func : S → Outcome A * S) (s : S) : Outcome A * S * list Qc :=
  let config := default default_config config in
  retry_loop config func (Z.to_nat (Retry.max_retries config + 1)) 0 None s [].

(** A provider with several endpoints, as [RetryManager] expects it. *)
Record RotatingProvider (S A : Type) := mkRotating {
  rp_make_request : string → list string → S → Outcome A * S;
  rotate_endpoint : S → S
}.
Arguments mkRotating {S A} rp_make_request rotate_endpoint.
Arguments rp_make_request {S A} r method params s.
Arguments rotate_endpoint {S A} r s.

(** The loop of [RetryManager.execute_with_retry]: the endpoint is rotated
    after every failure, before the last-attempt test. *)
Fixpoint execute_loop {S A : Type} (config : Retry.RetryConfig)
    (provider : RetryLoop.RotatingProvider S A) (method : string) (params : list string)
    (remaining attempt : nat) (last_exception : option string) (s : S) (sleeps : list Qc)
  : Outcome A * S * list Qc :=
  match remaining with
  | O => (raise_last last_exception, s, sleeps)
  | Datatypes.S remaining' =>
      match rp_make_request provider method params s with
      | (Ok result, s') => (Ok result, s', sleeps)
      | (Raise e, s') =>
          let s'' := rotate_endpoint provider s' in
          if decide (Z.of_nat attempt = Retry.max_retries config)
          then (raise_last (Some e), s'', sleeps)
          else execute_loop config provider method params remaining' (Datatypes.S attempt)
                 (Some e) s'' (sleeps ++ [Retry.get_delay config attempt])
      end
  end.

Definition execute_with_retry {S A : Type} (config : option Retry.RetryConfig)
    (provider : RetryLoop.RotatingProvider S A) (method : string) (params : list string) (s : S)
  : Outcome A * S * list Qc :=
  let config := default default_config config in
  execute_loop config provider method params
    (Z.to_nat (Retry.max_retries config + 1)) 0 None s [].

(** A function that also keeps the outcomes of its calls, oldest first. *)
Definition with_history {S A : Type} (func : S → Outcome A * S)
  : S * list (Outcome A) → Outcome A * (S * list (Outcome A)) :=
  λ '(s, history), let '(r, s') := func s in (r, (s', history ++ [r])).

Definition is_raise {A : Type} (r : Outcome A) : Prop :=
  match r with Raise _ => True | Ok _ => False end.

End RetryLoop.

(** ** rpc/provider.py: [ApeRPCProvider.make_request] *)

Module Provider.

(** [inner] is [self._provider.make_request], absent before [connect()]. *)
Fixpoint request_loop {S A : Type} (retry_config : Retry.RetryConfig)
    (inner : string → list string → S → Outcome A * S)
    (method : string) (params : list string)
    (remaining attempt : nat) (last_exception : option string) (s : S) (sleeps : list Qc)
  : Outcome A * S * list Qc :=
  match remaining with
  | O => (RetryLoop.raise_last last_exception, s, sleeps)
  | Datatypes.S remaining' =>
      match inner method params s with
      | (Ok result, s') => (Ok result, s', sleeps)
      | (Raise e, s') =>
          if decide (Z.of_nat attempt = Retry.max_retries retry_config)
          then (RetryLoop.raise_last (Some e), s', sleeps)
          else request_loop retry_config inner method params remaining'
                 (Datatypes.S attempt) (Some e) s'
                 (sleeps ++ [Retry.get_delay retry_config attempt])
      end
  end.

Definition make_request {S A : Type} (retry_config : Retry.RetryConfig)
    (_provider : option (string → list string → S → Outcome A * S))
    (method : string) (params : list string) (s : S) : Outcome A * S * list Qc :=
  match _provider with
  | None => (Raise "Provider not connected. Call connect() first.", s, [])
  | Some inner =>
      request_loop retry_config inner method params
        (Z.to_nat (Retry.max_retries retry_config + 1)) 0 None s []
  end.

End Provider.

(** ** rpc/multicall.py *)

Module Multicall.

Record Call := mkCall {
  call_address : string;
  call_method : string;
  call_params : list string
}.

(** [invoke] stands for the body of the [try]: fetching the contract,
    looking the method up and calling it. *)
Fixpoint single_call_loop {S V : Type} (retry_config : Retry.RetryConfig)
    (invoke : Call → S → Outcome V * S) (call : Call)
    (remaining attempt : nat) (s : S) (sleeps : list Qc) : option V * S * list Qc :=
  match remaining with
  | O => (None, s, sleeps)
  | Datatypes.S remaining' =>
      match invoke call s with
      | (Ok result, s') => (Some result, s', sleeps)
      | (Raise _, s') =>
          if decide (Z.of_nat attempt = Retry.max_retries retry_config)
          then (None, s', sleeps)
          else single_call_loop retry_config invoke call remaining' (Datatypes.S attempt) s'
                 (sleeps ++ [Retry.get_delay retry_config attempt])
      end
  end.

Definition _execute_single_call_with_retry {S V : Type} (retry_config : Retry.RetryConfig)
    (invoke : Call → S → Outcome V * S) (call : Call) (s : S) (sleeps : list Qc)
  : option V * S * list Qc :=
  single_call_loop retry_config invoke call
    (Z.to_nat (Retry.max_retries retry_config + 1)) 0 s sleeps.

(** The pending calls [_calls] are consumed; the result pairs the results
    with the new, empty list of pending calls. *)
Fixpoint _execute_individually_loop {S V : Type} (retry_config : Retry.RetryConfig)
    (invoke : Call → S → Outcome V * S) (calls : list Call)
    (results : list (option V)) (s : S) (sleeps : list Qc)
  : list (option V) * S * list Qc :=
  match calls with
  | [] => (results, s, sleeps)
  | call :: rest =>
      let '(result, s', sleeps') :=
        _execute_single_call_with_retry retry_config invoke call s sleeps in
      _execute_individually_loop retry_config invoke rest (results ++ [result]) s' sleeps'
  end.

Definition _execute_individually {S V : Type} (retry_config : Retry.RetryConfig)
    (invoke : Call → S → Outcome V * S) (_calls : list Call) (s : S)
  : list (option V) * list Call * S * list Qc :=
  let '(results, s', sleeps) :=
    _execute_individually_loop retry_config invoke _calls [] s [] in
  (results, [], s', sleeps).

Definition add_call (_calls : list Call) (contract_address method : string)
    (params : list string) : list Call :=
  _calls ++ [mkCall contract_address method params].

Definition execute {S V : Type} (retry_config : Retry.RetryConfig)
    (invoke : Call → S → Outcome V * S) (_calls : list Call) (s : S)
  : list (option V) * list Call * S * list Qc :=
  match _calls with
  | [] => ([], _calls, s, [])
  | _ :: _ => _execute_individually retry_config invoke _calls s
  end.

End Multicall.

(** ** [time.sleep]

    [time.sleep(secs)] raises [ValueError] when [secs] is negative.  The
    loops above take the sleep for granted, which is what the source does
    for a retry policy whose delays are not negative.  The loops of this
    module follow the source for every policy: the sleep is called inside
    the [except] block, so its [ValueError] leaves the loop and the
    function.  In [_execute_individually] it leaves the batch before
    [_calls] is reset, so the calls stay pending. *)

Module Sleep.

Definition sleep (secs : Qc) (sleeps : list Qc) : Outcome (list Qc) :=
  if decide (secs < 0)%Qc then Raise "sleep length must be non-negative"
  else Ok (sleeps ++ [secs]).

(** rpc/retry.py: the loop of [with_retry]. *)
Fixpoint retry_loop {S A : Type} (config : Retry.RetryConfig) (func : S → Outcome A * S)
    (remaining attempt : nat) (last_exception : option string) (s : S) (sleeps : list Qc)
  : Outcome A * S * list Qc :=
  match remaining with
  | O => (RetryLoop.raise_last last_exception, s, sleeps)
  | Datatypes.S remaining' =>
      match func s with
      | (Ok result, s') => (Ok result, s', sleeps)
      | (Raise e, s') =>
          if decide (Z.of_nat attempt = Retry.max_retries config)
          then (RetryLoop.raise_last (Some e), s', sleeps)
          else
            let delay := Retry.get_delay config attempt in
            match sleep delay sleeps with
            | Raise error => (Raise error, s', sleeps)
            | Ok sleeps' =>
                retry_loop config func remaining' (Datatypes.S attempt) (Some e) s' sleeps'
            end
      end
  end.

Definition with_retry {S A : Type} (config : option Retry.RetryConfig)
    (func : S → Outcome A * S) (s : S) : Outcome A * S * list Qc :=
  let config := default RetryLoop.default_config config in
  retry_loop config func (Z.to_nat (Retry.max_retries config + 1)) 0 None s [].

(** rpc/multicall.py: [Ok None] is the [return None] after the last attempt. *)
Fixpoint single_call_loop {S V : Type} (retry_config : Retry.RetryConfig)
    (invoke : Multicall.Call → S → Outcome V * S) (call : Multicall.Call)
    (remaining attempt : nat) (s : S) (sleeps : list Qc)
  : Outcome (option V) * S * list Qc :=
  match remaining with
  | O => (Ok None, s, sleeps)
  | Datatypes.S remaining' =>
      match invoke call s with
      | (Ok result, s') => (Ok (Some result), s', sleeps)
      | (Raise _, s') =>
          if decide (Z.of_nat attempt = Retry.max_retries retry_config)
          then (Ok None, s', sleeps)
          else
            let delay := Retry.get_delay retry_config attempt in
            match sleep delay sleeps with
            | Raise error => (Raise error, s', sleeps)
            | Ok sleeps' =>
                single_call_loop retry_config invoke call remaining' (Datatypes.S attempt)
                  s' sleeps'
            end
      end
  end.

Definition _execute_single_call_with_retry {S V : Type} (retry_config : Retry.RetryConfig)
    (invoke : Multicall.Call → S → Outcome V * S) (call : Multicall.Call)
    (s : S) (sleeps : list Qc) : Outcome (option V) * S * list Qc :=
  single_call_loop retry_config invoke call
    (Z.to_nat (Retry.max_retries retry_config + 1)) 0 s sleeps.

Fixpoint _execute_individually_loop {S V : Type} (retry_config : Retry.RetryConfig)
    (invoke : Multicall.Call → S → Outcome V * S) (calls : list Multicall.Call)
    (results : list (option V)) (s : S) (sleeps : list Qc)
  : Outcome (list (option V)) * S * list Qc :=
  match calls with
  | [] => (Ok results, s, sleeps)
  | call :: rest =>
      match _execute_single_call_with_retry retry_config invoke call s sleeps with
      | (Ok result, s', sleeps') =>
          _execute_individually_loop retry_config invoke rest (results ++ [result]) s' sleeps'
      | (Raise error, s', sleeps') => (Raise error, s', sleeps')
      end
  end.

(** The second component is [_calls] after the call: reset when the loop
    completes, untouched when it was left by an exception. *)
Definition _execute_individually {S V : Type} (retry_config : Retry.RetryConfig)
    (invoke : Multicall.Call → S → Outcome V * S) (_calls : list Multicall.Call) (s : S)
  : Outcome (list (option V)) * list Multicall.Call * S * list Qc :=
  match _execute_individually_loop retry_config invoke _calls [] s [] with
  | (Ok results, s', sleeps) => (Ok results, [], s', sleeps)
  | (Raise error, s', sleeps) => (Raise error, _calls, s', sleeps)
  end.

Definition execute {S V : Type} (retry_config : Retry.RetryConfig)
    (invoke : Multicall.Call → S → Outcome V * S) (_calls : list Multicall.Call) (s : S)
  : Outcome (list (option V)) * list Multicall.Call * S * list Qc :=
  match _calls with
  | [] => (Ok [], _calls, s, [])
  | _ :: _ => _execute_individually retry_config invoke _calls s
  end.

(** The delays the policy prescribes between attempts are not negative. *)
Definition delays_non_negative (config : Retry.RetryConfig) : Prop :=
  ∀ attempt : nat,
    Z.of_nat attempt < Retry.max_retries config →
    (0 ≤ Retry.get_delay config attempt)%Qc.

End Sleep.

(** A retry policy whose delays are negative. *)
Definition negative_delays : Retry.RetryConfig :=
  Retry.mkRetryConfig 2 (dec 1) (dec (-1)) (dec 2).

(** A function that fails twice and then answers; the state counts the calls. *)
Definition third_time_lucky : nat → Outcome string * nat :=
  λ n, (if decide (n < 2)%nat then Raise "timeout" else Ok "0x2a", Datatypes.S n).

(** A batch call target that is out of order, and one that answers. *)
Definition sample_invoke : Multicall.Call → nat → Outcome string * nat :=
  λ call n,
    (if decide (Multicall.call_method call = "balanceOf") then Ok "0x2a" else Raise "revert",
     Datatypes.S n).

Definition sample_calls : list Multicall.Call :=
  Multicall.add_call
    (Multicall.add_call [] "0xaa" "totalSupply" []) "0xaa" "balanceOf" ["0xbb"].

(** A retry policy with two retries. *)
Definition two_retries : Retry.RetryConfig :=
  Retry.mkRetryConfig 2 (dec 1) (dec 30) (dec 2).

(** ** Traces and sample providers, further *)

(** Between two states the trace grew by events that all satisfy [P]. *)
Definition trace_extends {W : Type} (P : Event → Prop) (st st' : State W) : Prop :=
  ∃ delta, trace st' = delta ++ trace st ∧ Forall P delta.

Definition is_get_logs (ev : Event) : Prop :=
  match ev with EvGetLogs _ => True | _ => False end.

Definition is_not_pricing (ev : Event) : Prop :=
  match ev with EvGetPrices _ => False | _ => True end.

(** An answer to a request that shows no log: an error or an empty list. *)
Definition shows_no_log (r : Outcome (list Log)) : Prop :=
  match r with Ok logs => logs = [] | Raise _ => True end.

(** A provider that answers every request with the same suggestion. *)
Definition stubborn_provider : GetLogs () := λ _ s, (Raise too_many_0_4, s).

(** A provider that is unreachable. *)
Definition unreachable_env : Env () :=
  mkEnv ["ethereum"; "base"]
    (λ _ w, (Raise "connection refused", w))
    [("lido", mkHandler ["ethereum"] ["0xfeed"] (λ _ _ w, (Ok [], w)))]
    (λ _ w, (∅, w)).

(** A deployment with activity everywhere: the provider answers every
    request with one log, [lido] holds the sample staking position and
    [aave_v3] is out of order. *)
Definition busy_env : Env () :=
  mkEnv ["ethereum"]
    (λ _ w, (Ok ["log"], w))
    [("lido", mkHandler ["ethereum"] ["0xfeed"] (λ _ _ w, (Ok [lido_position], w)));
     ("aave_v3", mkHandler ["ethereum"; "base"] ["0xbeef"] (λ _ _ w, (Raise "revert", w)))]
    (λ _ w, (eth_price_2000, w)).

(** ** core/registry.py: registration *)

Module Registry.

(** [register]: [name] is the class attribute, absent when the class does
    not define it; [class_name] is [handler_class.__name__]. *)
Definition register {W : Type} (_handlers : list (string * Handler W))
    (class_name : string) (name : option string) (handler_class : Handler W)
  : Outcome (list (string * Handler W)) :=
  match name with
  | None => Raise ("Handler " +:+ class_name +:+ " must define 'name' attribute")
  | Some n => Ok (dict_set _handlers n handler_class)
  end.

Definition list_protocols {W : Type} (_handlers : list (string * Handler W)) : list string :=
  dict_keys _handlers.

Definition get_all_handlers {W : Type} (_handlers : list (string * Handler W))
  : list (Handler W) :=
  map snd _handlers.

Definition clear {W : Type} (_handlers : list (string * Handler W))
  : list (string * Handler W) := [].

End Registry.

(** The environment with another set of registered handlers. *)
Definition with_registry {W : Type} (env : Env W) (_handlers : list (string * Handler W))
  : Env W :=
  mkEnv (all_supported_chains env) (rpc_get_logs env) _handlers (pricing_get_prices env).

(** ** core/aggregator.py: the targeted queries *)

Definition get_positions_for_chain {W : Type} (env : Env W) (fuel : nat)
    (user_address chain_name : string) (st : State W)
  : option (list Position * State W) :=
  match scan_chain env fuel user_address chain_name st with
  | None => None
  | Some (activity, st1) =>
      if negb (has_activity activity) then Some ([], st1)
      else
        let '(found, st2) :=
          _get_chain_positions env user_address chain_name
            (protocols_detected activity) [] st1 in
        Some (_enrich_positions_with_pricing env found st2)
  end.

(** The chains [get_positions_for_protocol] queries; an empty chain name is
    falsy and selects all chains, like [None]. *)
Definition chains_to_query {W : Type} (handler_class : Handler W) (chain_arg : option string)
  : list string :=
  match chain_arg with
  | Some c =>
      if decide (c = "") then supported_chains handler_class
      else if decide (c ∈ supported_chains handler_class) then [c] else []
  | None => supported_chains handler_class
  end.

(** The loop over the chains: a handler error is not caught here. *)
Fixpoint fetch_from_chains {W : Type} (handler : Handler W)
    (user_address protocol_name : string) (chains : list string)
    (found : list Position) (st : State W) : Outcome (list Position) * State W :=
  match chains with
  | [] => (Ok found, st)
  | chain_name :: rest =>
      let '(r, w) := get_positions handler user_address chain_name (world st) in
      let st' := mkState w (EvGetPositions protocol_name user_address chain_name :: trace st) in
      match r with
      | Ok chain_positions =>
          fetch_from_chains handler user_address protocol_name rest
            (found ++ chain_positions) st'
      | Raise e => (Raise e, st')
      end
  end.

Definition get_positions_for_protocol {W : Type} (env : Env W)
    (user_address protocol_name : string) (chain_arg : option string) (st : State W)
  : Outcome (list Position) * State W :=
  match get_handler env protocol_name with
  | None => (Ok [], st)
  | Some handler_class =>
      match fetch_from_chains handler_class user_address protocol_name
              (chains_to_query handler_class chain_arg) [] st with
      | (Ok found, st') =>
          let '(enriched, st'') := _enrich_positions_with_pricing env found st' in
          (Ok enriched, st'')
      | (Raise e, st') => (Raise e, st')
      end
  end.

(** ** Handler construction

    [_get_chain_positions] instantiates the handler class,
    [handler_class(rpc_provider=self.rpc_provider)], after the registry
    lookup and before the [try] that guards [get_positions].  The
    orchestration above takes the construction for granted.  In this module
    it is part of the model: [init protocol_name handler_class] is the error
    that the constructor of the class registered under [protocol_name]
    raises, if it raises.  The error is not caught in [_get_chain_positions]:
    it ends the loop, and the positions found so far are not returned. *)

Module Construction.

(** [BaseProtocolHandler.__init__] for a class registered under its [name]
    attribute; [class_name] is [self.__class__.__name__]. *)
Definition base_init {W : Type} (class_name : string) (name : string)
    (handler_class : Handler W) : option string :=
  if decide (name = "")
  then Some (class_name +:+ " must define 'name' attribute")
  else if decide (supported_chains handler_class = [])
  then Some (class_name +:+ " must define 'supported_chains' attribute")
  else None.

Fixpoint _get_chain_positions {W : Type} (init : string → Handler W → option string)
    (env : Env W) (user_address chain_name : string) (protocols : list string)
    (found : list Position) (st : State W) : Outcome (list Position) * State W :=
  match protocols with
  | [] => (Ok found, st)
  | protocol_name :: rest =>
      match get_handler env protocol_name with
      | None => _get_chain_positions init env user_address chain_name rest found st
      | Some handler_class =>
          match init protocol_name handler_class with
          | Some error => (Raise error, st)
          | None =>
              let '(r, w) := get_positions handler_class user_address chain_name (world st) in
              let st' :=
                mkState w (EvGetPositions protocol_name user_address chain_name :: trace st) in
              match r with
              | Ok protocol_positions =>
                  _get_chain_positions init env user_address chain_name rest
                    (found ++ protocol_positions) st'
              | Raise _ =>
                  _get_chain_positions init env user_address chain_name rest found st'
              end
          end
      end
  end.

(** The handlers of the listed protocols can be constructed. *)
Definition constructible {W : Type} (init : string → Handler W → option string)
    (env : Env W) (protocols : list string) : Prop :=
  ∀ protocol_name handler_class,
    protocol_name ∈ protocols →
    get_handler env protocol_name = Some handler_class →
    init protocol_name handler_class = None.

End Construction.

(** The busy deployment with one more handler class, registered between the
    two others under an empty [name]. *)
Definition nameless_env : Env () :=
  with_registry busy_env
    [("lido", mkHandler ["ethereum"] ["0xfeed"] (λ _ _ w, (Ok [lido_position], w)));
     ("", mkHandler ["ethereum"] ["0xf00d"] (λ _ _ w, (Ok [], w)));
     ("aave_v3", mkHandler ["ethereum"; "base"] ["0xbeef"] (λ _ _ w, (Raise "revert", w)))].

(** ** The decimal context

    Python adds two [Decimal]s exactly and then rounds the result to the
    precision of the context: 28 significant digits, a tie going to the even
    neighbour ([ROUND_HALF_EVEN]).  The summary construction above adds
    without rounding, which is what the source computes as long as no sum
    needs more than 28 digits.  This module follows the source for every
    input.  The bounds on the exponent ([Emin], [Emax]) and the special
    values (NaN, the infinities) are not modelled. *)

Module DecimalContext.

(** [getcontext().prec] *)
Definition prec : Z := 28.

(** Number of decimal digits of [n], for [1 ≤ n]. *)
Fixpoint count_digits (fuel : nat) (n : Z) : Z :=
  match fuel with
  | O => 0
  | S fuel' => if n <? 10 then 1 else 1 + count_digits fuel' (n / 10)
  end.

Definition num_digits (n : Z) : Z := count_digits (S (Z.to_nat (Z.log2 n))) n.

(** For [0 < n < d]: the least [k] with [d ≤ n * 10 ^ k]. *)
Fixpoint leading_zeros (fuel : nat) (n d : Z) : Z :=
  match fuel with
  | O => 0
  | S fuel' => if d <=? n * 10 then 1 else 1 + leading_zeros fuel' (n * 10) d
  end.

(** The exponent of the leading digit of [n / d], for [0 < n] and [0 < d]
    ([Decimal.adjusted]). *)
Definition adjusted (n d : Z) : Z :=
  if d <=? n then num_digits (n / d) - 1
  else - leading_zeros (S (Z.to_nat (Z.log2 d))) n d.

(** The integer nearest to [n / d], a tie going to the even one. *)
Definition round_half_even (n d : Z) : Z :=
  let q := n / d in
  let r := n mod d in
  match 2 * r ?= d with
  | Lt => q
  | Gt => q + 1
  | Eq => if Z.even q then q else q + 1
  end.

(** [x] rounded to [prec] significant digits; [e] is the exponent of the
    last digit kept. *)
Definition round (x : Decimal) : Decimal :=
  let n := Z.abs (Qnum x) in
  let d := Z.pos (Qden x) in
  if n =? 0 then 0%Qc
  else
    let e := adjusted n d - (prec - 1) in
    let c :=
      if 0 <=? e then round_half_even n (d * 10 ^ e)
      else round_half_even (n * 10 ^ (- e)) d in
    let m := Z.sgn (Qnum x) * c in
    if 0 <=? e then Q2Qc (inject_Z (m * 10 ^ e))
    else Q2Qc (m # Z.to_pos (10 ^ (- e))).

(** [x + y] on [Decimal]s. *)
Definition add (x y : Decimal) : Decimal := round (x + y)%Qc.

(** [d[k] = d.get(k, Decimal("0")) + v] *)
Definition dict_add (d : gmap string Decimal) (k : string) (v : Decimal)
  : gmap string Decimal :=
  <[k := add (default 0%Qc (d !! k)) v]> d.

Definition summary_step (acc : SummaryAcc) (position : Position) : SummaryAcc :=
  let pos_value := or_zero (usd_value position) in
  mkAcc (add (total_usd acc) pos_value)
        (dict_add (acc_by_chain acc) (chain position) pos_value)
        (dict_add (acc_by_protocol acc) (protocol position) pos_value)
        (fold_left (λ t reward, add t (or_zero (reward_usd_value reward)))
           (claimable_rewards position) (total_rewards_usd acc)).

Definition _build_portfolio_summary (user_address : string) (ps : list Position)
  : PortfolioSummary :=
  let acc := fold_left summary_step ps (mkAcc 0%Qc ∅ ∅ 0%Qc) in
  mkSummary user_address ps (total_usd acc) (acc_by_chain acc)
    (acc_by_protocol acc) (total_rewards_usd acc).

(** The decimals of a list added up in list order, starting from
    [Decimal("0")]. *)
Definition sum (l : list Decimal) : Decimal := fold_left add l 0%Qc.

(** Adding the decimals of [l] to [acc] one after the other, no result is
    rounded. *)
Fixpoint adds_exactly (acc : Decimal) (l : list Decimal) : Prop :=
  match l with
  | [] => True
  | v :: l' => add acc v = (acc + v)%Qc ∧ adds_exactly (acc + v)%Qc l'
  end.

(** No addition that the summary construction performs on the USD values of
    [ps] is rounded: not for the total, not for the entry of any chain, not
    for the entry of any protocol. *)
Definition no_rounding (ps : list Position) : Prop :=
  adds_exactly 0%Qc (map value_or_zero ps)
  ∧ Forall (λ p,
      adds_exactly 0%Qc (map value_or_zero (filter (λ q, chain q = chain p) ps))
      ∧ adds_exactly 0%Qc (map value_or_zero (filter (λ q, protocol q = protocol p) ps)))
      ps.

End DecimalContext.

(** A large position on one chain and two positions of 6E-17 on another:
    152415787654.3209975171467876 has 28 digits. *)
Definition large_position : Position :=
  mkPosition "lido" "ethereum" LIQUID_STAKING steth (dec 1) None None
    (Some (Q2Qc (1524157876543209975171467876 # 10000000000000000))) [] None None [].

Definition dust_position : Position :=
  mkPosition "aave_v3" "base" LENDING_SUPPLY usdc (dec 1) None None
    (Some (Q2Qc (6 # 100000000000000000))) [] None None [].

Definition rounding_positions : list Position :=
  [large_position; dust_position; dust_position].

(** Two positions worth 21000 and 0.25. *)
Definition priced_positions : list Position :=
  [set_usd_value lido_position (Some (dec 21000));
   set_usd_value reward_position (Some (Q2Qc (1 # 4)))].

(** ** core/aggregator.py: the full run, with handler construction and the
    decimal context

    [get_all_positions] once more: a per-chain task that is left by the
    error of a handler constructor is dropped by the [except Exception]
    around [future.result], with all the positions of its chain, and the
    summary is built with rounded additions. *)

Module FullRun.

Fixpoint fan_out {W : Type} (init : string → Handler W → option string) (env : Env W)
    (user_address : string) (active_chains : list ChainActivity)
    (all_positions : list Position) (st : State W) : list Position * State W :=
  match active_chains with
  | [] => (all_positions, st)
  | activity :: rest =>
      match Construction._get_chain_positions init env user_address
              (activity_chain activity) (protocols_detected activity) [] st with
      | (Ok chain_positions, st') =>
          fan_out init env user_address rest (all_positions ++ chain_positions) st'
      | (Raise _, st') => fan_out init env user_address rest all_positions st'
      end
  end.

Definition get_all_positions {W : Type} (init : string → Handler W → option string)
    (env : Env W) (fuel : nat) (user_address : string) (st : State W)
  : option (PortfolioSummary * State W) :=
  match scan_all_chains env fuel user_address st with
  | None => None
  | Some (chain_activities, st1) =>
      let active_chains := filter (λ a, has_activity a = true) chain_activities in
      match active_chains with
      | [] => Some (mkSummary user_address [] 0%Qc ∅ ∅ 0%Qc, st1)
      | _ :: _ =>
          let '(all_positions, st2) :=
            fan_out init env user_address active_chains [] st1 in
          let '(enriched_positions, st3) :=
            _enrich_positions_with_pricing env all_positions st2 in
          Some (DecimalContext._build_portfolio_summary user_address enriched_positions, st3)
      end
  end.

End FullRun.

(** * Properties *)

(** ** Insertion-ordered dictionaries *)

Section DictFacts.
Context {K V : Type} `{EqDecision K}.

Lemma dict_keys_set_in (d : list (K * V)) k v : k ∈ dict_keys (dict_set d k v).
Proof.
  induction d as [|[k' v'] d IH]; simpl.
  - left.
  - case_decide; simpl; [subst; left | right; exact IH].
Qed.

Lemma dict_keys_set_mono (d : list (K * V)) k v k0 :
  k0 ∈ dict_keys d → k0 ∈ dict_keys (dict_set d k v).
Proof.
  induction d as [|[k' v'] d IH]; simpl; intros Hin.
  - inversion Hin.
  - case_decide; simpl in *; [exact Hin|].
    apply elem_of_cons in Hin as [->|Hin]; [left | right; auto].
Qed.

Lemma dict_keys_set_inv (d : list (K * V)) k v k0 :
  k0 ∈ dict_keys (dict_set d k v) → k0 = k ∨ k0 ∈ dict_keys d.
Proof.
  induction d as [|[k' v'] d IH]; simpl; intros Hin.
  - apply elem_of_cons in Hin as [->|Hin]; [by left | inversion Hin].
  - case_decide; simpl in *; [by right|].
    apply elem_of_cons in Hin as [->|Hin]; [right; left|].
    destruct (IH Hin) as [->|?]; [by left | right; by right].
Qed.

End DictFacts.

(** ** Summary construction *)

Lemma or_zero_default (x : option Decimal) : or_zero x = default 0%Qc x.
Proof. destruct x as [v|]; simpl; [|done]. by case_decide. Qed.

Lemma dict_sum_add (d : gmap string Decimal) k v :
  dict_sum (dict_add d k v) = (dict_sum d + v)%Qc.
Proof.
  unfold dict_sum, dict_add.
  assert (Hcomm : ∀ (m : gmap string Decimal) (j1 j2 : string) (z1 z2 y : Decimal),
    j1 ≠ j2 → m !! j1 = Some z1 → m !! j2 = Some z2 →
    (z1 + (z2 + y))%Qc = (z2 + (z1 + y))%Qc) by (intros; ring).
  destruct (d !! k) as [x|] eqn:Hk; simpl.
  - rewrite <-(insert_delete_eq d k).
    rewrite map_fold_insert_L; [|by eauto|by rewrite lookup_delete_eq].
    rewrite (map_fold_delete_L _ _ k x d); [|by eauto|done]. ring.
  - rewrite map_fold_insert_L; [|by eauto|done]. ring.
Qed.

Lemma summary_fold_invariant ps acc :
  let acc' := fold_left summary_step ps acc in
  total_usd acc' = (total_usd acc + sum_decimals (map value_or_zero ps))%Qc
  ∧ dict_sum (acc_by_chain acc')
    = (dict_sum (acc_by_chain acc) + sum_decimals (map value_or_zero ps))%Qc
  ∧ dict_sum (acc_by_protocol acc')
    = (dict_sum (acc_by_protocol acc) + sum_decimals (map value_or_zero ps))%Qc.
Proof.
  revert acc. induction ps as [|p ps IH]; intros acc; simpl.
  - repeat split; ring.
  - destruct (IH (summary_step acc p)) as (Ht & Hc & Hp).
    rewrite Ht, Hc, Hp. simpl. rewrite !dict_sum_add, or_zero_default.
    unfold value_or_zero. repeat split; ring.
Qed.

(** Without rounding, the summary's total is the sum of the positions' USD
    values, a missing value counting as zero, and the values of the by-chain
    map and of the by-protocol map each add up to that same total. *)
Lemma exact_totals_partition (user_address : string) (ps : list Position) :
  let s := _build_portfolio_summary user_address ps in
  total_usd_value s = sum_decimals (map value_or_zero ps)
  ∧ dict_sum (by_chain s) = total_usd_value s
  ∧ dict_sum (by_protocol s) = total_usd_value s.
Proof.
  simpl. destruct (summary_fold_invariant ps (mkAcc 0%Qc ∅ ∅ 0%Qc)) as (Ht & Hc & Hp).
  simpl in *. rewrite Ht, Hc, Hp. unfold dict_sum. rewrite map_fold_empty.
  repeat split; ring.
Qed.

Lemma summary_fold_projections ps acc :
  let acc' := fold_left summary_step ps acc in
  acc_by_chain acc'
  = fold_left (λ d p, dict_add d (chain p) (or_zero (usd_value p))) ps (acc_by_chain acc)
  ∧ acc_by_protocol acc'
    = fold_left (λ d p, dict_add d (protocol p) (or_zero (usd_value p))) ps
        (acc_by_protocol acc)
  ∧ total_rewards_usd acc'
    = fold_left (λ t p, fold_left (λ t' r, (t' + or_zero (reward_usd_value r))%Qc)
                          (claimable_rewards p) t) ps (total_rewards_usd acc).
Proof.
  revert acc. induction ps as [|p ps IH]; intros acc; simpl; [done|].
  destruct (IH (summary_step acc p)) as (H1 & H2 & H3). by rewrite H1, H2, H3.
Qed.

Lemma filter_key_absent (key : Position → string) (ps : list Position) c :
  c ∉ map key ps → filter (λ p, key p = c) ps = [].
Proof.
  induction ps as [|p ps IH]; [done|]. simpl. intros Hnin.
  rewrite filter_cons_False by (intros Heq; apply Hnin; rewrite Heq; left).
  apply IH. intros Hin. apply Hnin. by right.
Qed.

Lemma dict_add_fold_lookup (key : Position → string) ps (d : gmap string Decimal) c :
  fold_left (λ d p, dict_add d (key p) (or_zero (usd_value p))) ps d !! c
  = if decide (c ∈ map key ps)
    then Some (default 0%Qc (d !! c)
               + sum_decimals (map value_or_zero (filter (λ p, key p = c) ps)))%Qc
    else d !! c.
Proof.
  revert d. induction ps as [|p ps IH]; intros d; simpl.
  - done.
  - rewrite IH. unfold dict_add at 1 2. destruct (decide (key p = c)) as [Heq|Hne].
    + rewrite Heq, lookup_insert_eq. rewrite filter_cons_True by done.
      rewrite (decide_True (P := c ∈ c :: map key ps)) by left.
      rewrite or_zero_default. fold (value_or_zero p). simpl.
      case_decide as Hin; [f_equal; ring|].
      rewrite filter_key_absent by done. simpl. f_equal. ring.
    + rewrite lookup_insert_ne by done. rewrite filter_cons_False by done.
      destruct (decide (c ∈ map key ps)) as [Hin|Hnin].
      * by rewrite decide_True by by right.
      * rewrite decide_False; [done|].
        intros [?|?]%elem_of_cons; congruence.
Qed.

(** ** Summary construction under the decimal context *)

Lemma context_fold_projections ps acc :
  let acc' := fold_left DecimalContext.summary_step ps acc in
  total_usd acc'
  = fold_left DecimalContext.add (map value_or_zero ps) (total_usd acc)
  ∧ acc_by_chain acc'
    = fold_left (λ d p, DecimalContext.dict_add d (chain p) (or_zero (usd_value p))) ps
        (acc_by_chain acc)
  ∧ acc_by_protocol acc'
    = fold_left (λ d p, DecimalContext.dict_add d (protocol p) (or_zero (usd_value p))) ps
        (acc_by_protocol acc).
Proof.
  revert acc. induction ps as [|p ps IH]; intros acc; simpl; [done|].
  destruct (IH (DecimalContext.summary_step acc p)) as (H1 & H2 & H3).
  rewrite H1, H2, H3. simpl. by rewrite or_zero_default.
Qed.

Lemma context_dict_add_fold_lookup (key : Position → string) ps (d : gmap string Decimal) c :
  fold_left (λ d p, DecimalContext.dict_add d (key p) (or_zero (usd_value p))) ps d !! c
  = if decide (c ∈ map key ps)
    then Some (fold_left DecimalContext.add
                 (map value_or_zero (filter (λ p, key p = c) ps))
                 (default 0%Qc (d !! c)))
    else d !! c.
Proof.
  revert d. induction ps as [|p ps IH]; intros d; simpl; [done|].
  rewrite IH. unfold DecimalContext.dict_add at 1 2.
  destruct (decide (key p = c)) as [Heq|Hne].
  - rewrite Heq, lookup_insert_eq. rewrite filter_cons_True by done.
    rewrite (decide_True (P := c ∈ c :: map key ps)) by left.
    rewrite or_zero_default. fold (value_or_zero p). simpl.
    case_decide as Hin; [done|].
    by rewrite filter_key_absent by done.
  - rewrite lookup_insert_ne by done. rewrite filter_cons_False by done.
    destruct (decide (c ∈ map key ps)) as [Hin|Hnin].
    + by rewrite decide_True by by right.
    + rewrite decide_False; [done|].
      intros [?|?]%elem_of_cons; congruence.
Qed.

Lemma adds_exactly_fold (l : list Decimal) (acc : Decimal) :
  DecimalContext.adds_exactly acc l →
  fold_left DecimalContext.add l acc = (acc + sum_decimals l)%Qc.
Proof.
  revert acc. induction l as [|v l IH]; intros acc; simpl; [intros _; ring|].
  intros [Hv Hl]. rewrite Hv, IH by done. ring.
Qed.

Lemma no_rounding_group (key : Position → string) (ps : list Position) c :
  Forall (λ p, DecimalContext.adds_exactly 0%Qc
                 (map value_or_zero (filter (λ q, key q = key p) ps))) ps →
  fold_left (λ d p, DecimalContext.dict_add d (key p) (or_zero (usd_value p))) ps ∅ !! c
  = fold_left (λ d p, dict_add d (key p) (or_zero (usd_value p))) ps ∅ !! c.
Proof.
  intros Hex. rewrite context_dict_add_fold_lookup, dict_add_fold_lookup, lookup_empty.
  case_decide as Hin; [|done]. f_equal. simpl.
  apply list_elem_of_fmap in Hin as (p & -> & Hp).
  rewrite Forall_forall in Hex. by rewrite adds_exactly_fold by by apply Hex.
Qed.

(** C1. Under the decimal context, the summary's total is the sum of the
    positions' USD values accumulated in list order, a missing value counting
    as zero and every addition rounded to 28 significant digits; the entry of
    a chain (of a protocol) is the like sum over the positions on that chain
    (of that protocol).  When no addition of the construction is rounded, the
    total is the exact sum of the values, and the values of the by-chain map
    and of the by-protocol map each add up to that same total. *)
Theorem summary_totals_partition_unless_rounded (user_address : string)
    (ps : list Position) :
  let s := DecimalContext._build_portfolio_summary user_address ps in
  total_usd_value s = DecimalContext.sum (map value_or_zero ps)
  ∧ (∀ k, by_chain s !! k
          = if decide (k ∈ map chain ps)
            then Some (DecimalContext.sum
                         (map value_or_zero (filter (λ p, chain p = k) ps)))
            else None)
  ∧ (∀ k, by_protocol s !! k
          = if decide (k ∈ map protocol ps)
            then Some (DecimalContext.sum
                         (map value_or_zero (filter (λ p, protocol p = k) ps)))
            else None)
  ∧ (DecimalContext.no_rounding ps →
     total_usd_value s = sum_decimals (map value_or_zero ps)
     ∧ dict_sum (by_chain s) = total_usd_value s
     ∧ dict_sum (by_protocol s) = total_usd_value s).
Proof.
  simpl. destruct (context_fold_projections ps (mkAcc 0%Qc ∅ ∅ 0%Qc)) as (Ht & Hc & Hp).
  simpl in Ht, Hc, Hp. rewrite Ht, Hc, Hp.
  split; [done|].
  split; [intros k; by rewrite context_dict_add_fold_lookup, lookup_empty|].
  split; [intros k; by rewrite context_dict_add_fold_lookup, lookup_empty|].
  intros [Htotal Hgroups].
  destruct (summary_fold_invariant ps (mkAcc 0%Qc ∅ ∅ 0%Qc)) as (_ & Hec & Hep).
  destruct (summary_fold_projections ps (mkAcc 0%Qc ∅ ∅ 0%Qc)) as (Hpc & Hpp & _).
  simpl in Hec, Hep, Hpc, Hpp. rewrite Hpc in Hec. rewrite Hpp in Hep.
  unfold dict_sum in Hec at 2. unfold dict_sum in Hep at 2.
  rewrite map_fold_empty in Hec, Hep.
  rewrite adds_exactly_fold by done.
  assert (Echain :
    fold_left (λ d p, DecimalContext.dict_add d (chain p) (or_zero (usd_value p))) ps ∅
    = fold_left (λ d p, dict_add d (chain p) (or_zero (usd_value p))) ps ∅).
  { apply map_eq. intros k. apply no_rounding_group.
    eapply Forall_impl; [exact Hgroups|]. by intros p [? _]. }
  assert (Eprotocol :
    fold_left (λ d p, DecimalContext.dict_add d (protocol p) (or_zero (usd_value p))) ps ∅
    = fold_left (λ d p, dict_add d (protocol p) (or_zero (usd_value p))) ps ∅).
  { apply map_eq. intros k. apply no_rounding_group.
    eapply Forall_impl; [exact Hgroups|]. by intros p [_ ?]. }
  rewrite Echain, Eprotocol, Hec, Hep. split; [ring|]. by split.
Qed.

Lemma decimal_is (x : option Decimal) (q : Q) :
  match x with Some v => Qeq_bool v q | None => false end = true → x = Some (Q2Qc q).
Proof.
  destruct x as [v|]; [|done]. intros H%Qeq_bool_eq. f_equal.
  apply Qc_is_canon. rewrite H. simpl. symmetry. apply Qred_correct.
Qed.

(** With 28-digit rounding the totals need not agree: for a position worth
    152415787654.3209975171467876 on one chain and two positions worth 6E-17
    on another, the total is ...7878, while the by-chain values are ...7876
    and 1.2E-16.  Their sum is not the total, whether it is taken exactly or
    with decimal additions in either order, and neither is the exact sum of
    the three values; the same holds by protocol. *)
Lemma rounded_totals_do_not_partition :
  let s := DecimalContext._build_portfolio_summary sample_wallet rounding_positions in
  let large := Q2Qc (1524157876543209975171467876 # 10000000000000000) in
  let dust := Q2Qc (12 # 100000000000000000) in
  total_usd_value s = Q2Qc (1524157876543209975171467878 # 10000000000000000)
  ∧ by_chain s !! "ethereum" = Some large
  ∧ by_chain s !! "base" = Some dust
  ∧ by_protocol s !! "lido" = Some large
  ∧ by_protocol s !! "aave_v3" = Some dust
  ∧ total_usd_value s ≠ sum_decimals (map value_or_zero rounding_positions)
  ∧ dict_sum (by_chain s) ≠ total_usd_value s
  ∧ dict_sum (by_protocol s) ≠ total_usd_value s
  ∧ DecimalContext.sum [large; dust] ≠ total_usd_value s
  ∧ DecimalContext.sum [dust; large] ≠ total_usd_value s.
Proof.
  intros s large dust.
  assert (Hne : ∀ x y : Decimal, Qeq_bool x y = false → x ≠ y).
  { intros x y H ->. by rewrite Qeq_bool_refl in H. }
  split.
  { apply (inj Some). apply decimal_is. by vm_compute. }
  split; [apply decimal_is; by vm_compute|].
  split; [apply decimal_is; by vm_compute|].
  split; [apply decimal_is; by vm_compute|].
  split; [apply decimal_is; by vm_compute|].
  repeat split; apply Hne; by vm_compute.
Qed.

Lemma summary_totals_partition_unless_rounded_witness :
  let s := DecimalContext._build_portfolio_summary sample_wallet priced_positions in
  DecimalContext.no_rounding priced_positions
  ∧ total_usd_value s = Q2Qc (84001 # 4)
  ∧ dict_sum (by_chain s) = total_usd_value s
  ∧ dict_sum (by_protocol s) = total_usd_value s.
Proof.
  intros s.
  assert (Hex : DecimalContext.no_rounding priced_positions).
  { assert (Hadd : ∀ x y : Decimal,
      Qeq_bool (DecimalContext.add x y) (x + y)%Qc = true →
      DecimalContext.add x y = (x + y)%Qc).
    { intros x y H. apply Qc_is_canon. by apply Qeq_bool_eq. }
    split; [|repeat constructor]; simpl; repeat split; apply Hadd; by vm_compute. }
  destruct (summary_totals_partition_unless_rounded sample_wallet priced_positions)
    as (_ & _ & _ & Hexact).
  destruct (Hexact Hex) as (Ht & Hc & Hp).
  split; [exact Hex|]. split; [|split; [exact Hc | exact Hp]].
  fold s in Ht. rewrite Ht. apply Qc_is_canon. by vm_compute.
Defined.

(** ** Pricing enrichment *)

Ltac qc_solve := try (apply (f_equal Some)); apply Qc_is_canon; vm_compute; reflexivity.

Lemma truthy_decimal_some (v : Decimal) : v ≠ 0%Qc → truthy_decimal (Some v) = Some v.
Proof. intros Hv. simpl. by case_decide. Qed.

Lemma usd_value_enrich_position prices p :
  usd_value (enrich_position prices p)
  = match priced_value prices p with Some v => Some v | None => usd_value p end.
Proof. unfold enrich_position. by destruct (priced_value prices p). Qed.

(** With a non-zero underlying balance the position is priced from the
    underlying token, and from the primary token when that price is missing. *)
Lemma enrich_underlying_pricing prices p ut ub :
  underlying_token p = Some ut →
  underlying_balance p = Some ub →
  ub ≠ 0%Qc →
  let underlying_price := price_get prices (chain p, address ut) in
  let token_price := price_get prices (chain p, address (token p)) in
  ((0 < underlying_price)%Qc →
     usd_value (enrich_position prices p) = Some (ub * underlying_price)%Qc)
  ∧ (underlying_price = 0%Qc → (0 < token_price)%Qc →
     usd_value (enrich_position prices p) = Some (balance p * token_price)%Qc).
Proof.
  intros Hut Hub Hnz underlying_price token_price.
  rewrite usd_value_enrich_position.
  unfold priced_value. rewrite Hut, Hub, truthy_decimal_some by done.
  fold underlying_price token_price. split.
  - intros Hpos. by rewrite decide_True.
  - intros Hzero Hpos. rewrite Hzero.
    rewrite decide_False by (intros H; by apply Qclt_not_eq in H).
    by rewrite decide_True.
Qed.

(** C3. A position whose underlying balance is the decimal zero is not
    priced from its underlying token although that token has a positive
    price: it is priced from its primary balance and the primary token's
    price. *)
Theorem zero_underlying_balance_priced_from_primary :
  underlying_token zero_underlying_position = Some usdc
  ∧ underlying_balance zero_underlying_position = Some (dec 0)
  ∧ price_get sample_prices ("ethereum", address usdc) = dec 2000
  ∧ usd_value (enrich_position sample_prices zero_underlying_position) = Some (dec 50)
  ∧ usd_value (enrich_position sample_prices zero_underlying_position)
    ≠ Some (dec 0 * dec 2000)%Qc.
Proof.
  assert (Hv : usd_value (enrich_position sample_prices zero_underlying_position)
               = Some (dec 50)) by (vm_compute; qc_solve).
  split; [reflexivity|]. split; [reflexivity|].
  split; [vm_compute; qc_solve|]. split; [exact Hv|].
  rewrite Hv. intros H. discriminate H.
Qed.

Lemma collect_step_keys d p k :
  k ∈ dict_keys (collect_step d p) ↔
  k ∈ dict_keys d ∨ k = (chain p, address (token p))
  ∨ ∃ ut, underlying_token p = Some ut ∧ k = (chain p, address ut).
Proof.
  unfold collect_step. split.
  - destruct (underlying_token p) as [ut|].
    + intros [->|H]%dict_keys_set_inv; [right; right; eauto|].
      apply dict_keys_set_inv in H as [->|H]; auto.
    + intros [->|H]%dict_keys_set_inv; auto.
  - intros [H|[->|(ut & Hut & ->)]].
    + destruct (underlying_token p); repeat apply dict_keys_set_mono; done.
    + destruct (underlying_token p);
        [apply dict_keys_set_mono|]; apply dict_keys_set_in.
    + rewrite Hut. apply dict_keys_set_in.
Qed.

Lemma collect_fold_keys ps d k :
  k ∈ dict_keys (fold_left collect_step ps d) ↔
  k ∈ dict_keys d
  ∨ ∃ p, p ∈ ps ∧ (k = (chain p, address (token p))
                   ∨ ∃ ut, underlying_token p = Some ut ∧ k = (chain p, address ut)).
Proof.
  revert d. induction ps as [|p ps IH]; intros d; simpl.
  - split; [auto|]. intros [H|(p & Hp & _)]; [done|inversion Hp].
  - rewrite IH, collect_step_keys. split.
    + intros [[H|H]|(q & Hq & H)]; [by left| |].
      * right. exists p. split; [left|done].
      * right. exists q. split; [by right|done].
    + intros [H|(q & Hq & H)]; [by left; left|].
      apply elem_of_cons in Hq as [->|Hq]; [left; by right|].
      right. eauto.
Qed.

(** The keys sent to the pricing service are exactly the primary-token pair
    of every position and the underlying-token pair of every position that
    has one. *)
Lemma requested_keys_spec ps k :
  k ∈ requested_keys ps ↔
  ∃ p, p ∈ ps ∧ (k = (chain p, address (token p))
                 ∨ ∃ ut, underlying_token p = Some ut ∧ k = (chain p, address ut)).
Proof.
  unfold requested_keys, tokens_to_price. rewrite collect_fold_keys.
  split; [intros [H|H]; [inversion H|done] | by right].
Qed.

(** C4. For a position with a claimable reward in a token of its own, the
    batched [get_prices] call carries the primary token's pair only: the
    reward token's pair is not requested. *)
Theorem reward_token_pair_not_requested {W : Type} (env : Env W) (st : State W) :
  trace (_enrich_positions_with_pricing env [reward_position] st).2
  = EvGetPrices [("ethereum", "0xaa")] :: trace st
  ∧ ("ethereum", address crv) ∉ requested_keys [reward_position].
Proof.
  split.
  - unfold _enrich_positions_with_pricing.
    destruct (pricing_get_prices env _ _) as [prices w]. reflexivity.
  - intros H. apply requested_keys_spec in H as (p & Hp & H).
    apply list_elem_of_singleton in Hp as ->.
    destruct H as [H|(ut & Hut & _)]; discriminate.
Qed.

Lemma enrich_reward_frame prices c r : same_reward_but_usd r (enrich_reward prices c r).
Proof. unfold enrich_reward. by case_decide. Qed.

Lemma enrich_position_frame prices p : same_but_usd p (enrich_position prices p).
Proof.
  unfold enrich_position.
  destruct (priced_value prices p) as [v|]; repeat split; simpl;
    (apply Forall2_fmap_r, Forall_Forall2_diag, Forall_forall;
     intros r _; apply enrich_reward_frame).
Qed.

(** C10. Enrichment returns a list of the same length in which the
    position at each index agrees with the input position at that index on
    every field except [usd_value] and the [usd_value] of its rewards. *)
Theorem enrichment_frame {W : Type} (env : Env W) (ps : list Position) (st : State W) :
  let ps' := (_enrich_positions_with_pricing env ps st).1 in
  length ps' = length ps ∧ Forall2 same_but_usd ps ps'.
Proof.
  simpl.
  assert (H : Forall2 same_but_usd ps (_enrich_positions_with_pricing env ps st).1).
  { unfold _enrich_positions_with_pricing. destruct ps as [|p ps]; [constructor|].
    destruct (pricing_get_prices env _ _) as [prices w]. simpl.
    constructor; [apply enrich_position_frame|].
    apply Forall2_fmap_r, Forall_Forall2_diag, Forall_forall.
    intros q _. apply enrich_position_frame. }
  split; [symmetry; by eapply Forall2_length | done].
Qed.

(** ** Retry delay *)

Lemma py_min_is_minimum (a b : Qc) :
  (Retry.py_min a b ≤ a)%Qc ∧ (Retry.py_min a b ≤ b)%Qc
  ∧ (Retry.py_min a b = a ∨ Retry.py_min a b = b).
Proof.
  unfold Retry.py_min. case_decide as H.
  - repeat split; [by apply Qclt_le_weak | apply Qcle_refl | by right].
  - repeat split; [apply Qcle_refl | by apply Qcnot_lt_le | by left].
Qed.

Lemma thirty_below_powers_of_two (k : nat) : (dec 30 < dec 1 * dec 2 ^ (5 + k))%Qc.
Proof.
  induction k as [|k IH].
  - vm_compute. reflexivity.
  - replace (5 + S k)%nat with (S (5 + k)) by lia.
    assert (E : (dec 1 * dec 2 ^ S (5 + k) = dec 1 * dec 2 ^ (5 + k) + dec 1 * dec 2 ^ (5 + k))%Qc).
    { change (dec 2 ^ S (5 + k))%Qc with (dec 2 * dec 2 ^ (5 + k))%Qc.
      generalize (dec 2 ^ (5 + k))%Qc. intros x.
      replace (dec 2) with (1 + 1)%Qc by qc_solve.
      replace (dec 1) with 1%Qc by qc_solve. ring. }
    rewrite E. apply Qclt_trans with (dec 30 + dec 30)%Qc.
    + vm_compute. reflexivity.
    + apply Qclt_trans with (dec 30 + dec 1 * dec 2 ^ (5 + k))%Qc.
      * by apply Qcplus_lt_mono_l.
      * by apply Qcplus_lt_mono_r.
Qed.


(** ** TTL cache *)

Section CacheFacts.
Context {Value : Type} (_make_key : string → list string → string).

(** A stored time-to-live other than zero is honoured: the value comes back
    while the entry's age is at most the TTL, and afterwards the lookup is
    empty and the entry is gone. *)
Lemma cache_roundtrip_nonzero_ttl (c : Cache.RPCCache Value) (t0 t : Qc)
    (m : string) (p : list string) (v : Value) (T : Z) :
  T ≠ 0 →
  let c1 := Cache.set _make_key t0 m p v (Some T) c in
  ((t - t0 ≤ Qc_of_Z T)%Qc → Cache.get _make_key t m p c1 = (Some v, c1))
  ∧ ((Qc_of_Z T < t - t0)%Qc →
     (Cache.get _make_key t m p c1).1 = None
     ∧ Cache._cache (Cache.get _make_key t m p c1).2 !! _make_key m p = None).
Proof.
  intros HT c1. unfold Cache.get, c1, Cache.set. simpl.
  rewrite lookup_insert_eq, decide_False by done.
  unfold Cache.is_expired. simpl. split.
  - intros Hle. rewrite bool_decide_eq_false_2; [done|]. by apply Qcle_not_lt.
  - intros Hlt. rewrite bool_decide_eq_true_2 by done. simpl.
    split; [done|]. apply lookup_delete_eq.
Qed.

(** C8. An entry stored with [ttl=0] in a cache whose default TTL is 300
    seconds is returned one second after it was stored, although more time
    than its TTL has passed. *)
Theorem zero_ttl_entry_survives (m : string) (p : list string) (v : Value) :
  let c1 := Cache.set _make_key (dec 100) m p v (Some 0) (Cache.mkCache 300 ∅) in
  (Qc_of_Z 0 < dec 101 - dec 100)%Qc
  ∧ (Cache.get _make_key (dec 101) m p c1).1 = Some v.
Proof.
  simpl. split; [vm_compute; reflexivity|].
  unfold Cache.get, Cache.set. simpl. rewrite lookup_insert_eq.
  unfold Cache.is_expired.
  rewrite bool_decide_eq_false_2; [done|]. vm_compute. discriminate.
Qed.

End CacheFacts.

(** ** Address padding *)

Lemma app_cons (c : ascii) (a b : string) : String c a +:+ b = String c (a +:+ b).
Proof. reflexivity. Qed.

Lemma app_nil_l (b : string) : "" +:+ b = b.
Proof. reflexivity. Qed.

Ltac by_ascii_cases c :=
  destruct c as [[] [] [] [] [] [] [] []]; vm_compute; try done; try (intuition congruence).

Lemma hex_digit_lower c : is_hex_digit c = true → is_lower_hex_digit (char_lower c) = true.
Proof. by_ascii_cases c. Qed.

Lemma lower_hex_digit_fixed c : is_lower_hex_digit c = true → char_lower c = c.
Proof. by_ascii_cases c. Qed.

Lemma lower_hex_digit_hex c : is_lower_hex_digit c = true → is_hex_digit c = true.
Proof. by_ascii_cases c. Qed.

Lemma lower_hex_digit_plain c :
  is_lower_hex_digit c = true → c ≠ "x"%char ∧ c ≠ "+"%char ∧ c ≠ "-"%char.
Proof. by_ascii_cases c. Qed.

Lemma digit_of_lower c : ascii_to_digit (char_lower c) = ascii_to_digit c.
Proof. by_ascii_cases c. Qed.

Lemma str_all_app P a b : str_all P (a +:+ b) = str_all P a && str_all P b.
Proof.
  induction a as [|c a IH]; [done|].
  rewrite app_cons. simpl. rewrite IH. by destruct (P c).
Qed.

Lemma str_all_repeat P c n : P c = true → str_all P (str_repeat c n) = true.
Proof. intros Hc. induction n as [|n IH]; simpl; [done|]. by rewrite Hc, IH. Qed.

Lemma str_length_app a b :
  String.length (a +:+ b) = (String.length a + String.length b)%nat.
Proof. induction a as [|c a IH]; [done|]. rewrite app_cons. simpl. by rewrite IH. Qed.

Lemma str_length_repeat c n : String.length (str_repeat c n) = n.
Proof. induction n as [|n IH]; simpl; [done|]. by rewrite IH. Qed.

Lemma str_length_lower s : String.length (str_lower s) = String.length s.
Proof. induction s as [|c s IH]; simpl; [done|]. by rewrite IH. Qed.

Lemma str_lower_hex s :
  str_all is_hex_digit s = true → str_all is_lower_hex_digit (str_lower s) = true.
Proof.
  induction s as [|c s IH]; simpl; [done|].
  intros [Hc Hs]%andb_true_iff. by rewrite hex_digit_lower, IH.
Qed.

Lemma str_lower_fixed s : str_all is_lower_hex_digit s = true → str_lower s = s.
Proof.
  induction s as [|c s IH]; simpl; [done|].
  intros [Hc Hs]%andb_true_iff. by rewrite lower_hex_digit_fixed, IH.
Qed.

Lemma str_all_lower_hex_hex s :
  str_all is_lower_hex_digit s = true → str_all is_hex_digit s = true.
Proof.
  induction s as [|c s IH]; simpl; [done|].
  intros [Hc Hs]%andb_true_iff. by rewrite lower_hex_digit_hex, IH.
Qed.

Lemma replace_0x_cons2 c c2 rest :
  replace_0x (String c (String c2 rest))
  = if decide (c = "0"%char ∧ c2 = "x"%char) then replace_0x rest
    else String c (replace_0x (String c2 rest)).
Proof. reflexivity. Qed.

(** Nothing is removed from a string of lower-case hex digits. *)
Lemma replace_0x_lower_hex s : str_all is_lower_hex_digit s = true → replace_0x s = s.
Proof.
  induction s as [|c s IH]; [done|].
  intros [Hc Hs]%andb_true_iff. destruct s as [|c2 s]; [done|].
  rewrite replace_0x_cons2, decide_False, IH; [done..|].
  apply andb_true_iff in Hs as [Hc2 _].
  intros [_ ->]. by destruct (lower_hex_digit_plain _ Hc2) as [? _].
Qed.

Lemma raw_to_N_lower s acc : HexString.Raw.to_N (str_lower s) acc = HexString.Raw.to_N s acc.
Proof.
  revert acc. induction s as [|c s IH]; intros acc; simpl; [done|].
  by rewrite digit_of_lower, IH.
Qed.

Lemma raw_to_N_zeros n s : 
  HexString.Raw.to_N (str_repeat "0"%char n +:+ s) 0%N = HexString.Raw.to_N s 0%N.
Proof. induction n as [|n IH]; [done|]. simpl str_repeat. rewrite app_cons. exact IH. Qed.

Lemma str_length_cons c s : String.length (String c s) = S (String.length s).
Proof. reflexivity. Qed.

Lemma to_N_prefixed s :
  HexString.to_N (String "0" (String "x" s)) = HexString.Raw.to_N s 0%N.
Proof. reflexivity. Qed.

Lemma pad_address_prefixed h :
  str_all is_hex_digit h = true →
  _pad_address (String "0" (String "x" h)) = String "0" (String "x" (zfill 64 (str_lower h))).
Proof.
  intros Hh. unfold _pad_address.
  change (str_lower (String "0" (String "x" h)))
    with (String "0" (String "x" (str_lower h))).
  rewrite replace_0x_cons2, decide_True by done.
  by rewrite replace_0x_lower_hex by by apply str_lower_hex.
Qed.

Lemma zfill_short s :
  str_all is_lower_hex_digit s = true → String.length s = 40%nat →
  zfill 64 s = str_repeat "0"%char 24 +:+ s.
Proof.
  intros Hs Hlen. unfold zfill. rewrite Hlen. simpl Nat.leb. cbv iota.
  destruct s as [|c s]; [done|].
  apply andb_true_iff in Hs as [Hc _].
  destruct (lower_hex_digit_plain _ Hc) as (_ & Hplus & Hminus).
  rewrite decide_False by (intros [?|?]; done). done.
Qed.

Lemma zfill_full s : String.length s = 64%nat → zfill 64 s = s.
Proof. intros Hlen. unfold zfill. by rewrite Hlen. Qed.

(** C9. For a [0x]-prefixed address of 40 hex digits, [_pad_address]
    returns [0x] followed by 64 lower-case hex digits (66 characters in all):
    24 zeros and the lower-cased address digits, so that the integer value is
    that of the address; padding the result again leaves it unchanged. *)
Theorem pad_address_exact_idempotent (h : string) :
  String.length h = 40%nat →
  str_all is_hex_digit h = true →
  let address := String "0" (String "x" h) in
  let padded := _pad_address address in
  padded = String "0" (String "x" (str_repeat "0"%char 24 +:+ str_lower h))
  ∧ String.length padded = 66%nat
  ∧ str_all is_lower_hex_digit (str_repeat "0"%char 24 +:+ str_lower h) = true
  ∧ HexString.to_N padded = HexString.to_N address
  ∧ _pad_address padded = padded.
Proof.
  intros Hlen Hhex address padded.
  assert (Hlow : str_all is_lower_hex_digit (str_lower h) = true)
    by by apply str_lower_hex.
  assert (Hpad : padded
    = String "0" (String "x" (str_repeat "0"%char 24 +:+ str_lower h))).
  { unfold padded, address. rewrite pad_address_prefixed by done.
    rewrite zfill_short; [done..|]. by rewrite str_length_lower. }
  assert (Hall : str_all is_lower_hex_digit (str_repeat "0"%char 24 +:+ str_lower h) = true).
  { rewrite str_all_app, Hlow. by rewrite str_all_repeat. }
  assert (Hlen64 : String.length (str_repeat "0"%char 24 +:+ str_lower h) = 64%nat).
  { by rewrite str_length_app, str_length_repeat, str_length_lower, Hlen. }
  split; [exact Hpad|]. rewrite Hpad.
  split; [by rewrite !str_length_cons, Hlen64|].
  split; [exact Hall|]. split.
  - unfold address. by rewrite !to_N_prefixed, raw_to_N_zeros, raw_to_N_lower.
  - rewrite pad_address_prefixed by by apply str_all_lower_hex_hex.
    rewrite str_lower_fixed by done. by rewrite zfill_full.
Qed.

Lemma pad_address_exact_idempotent_witness :
  _pad_address "0xAbCdEF0123456789abcdef0123456789ABCDEF01"
  = "0x000000000000000000000000abcdef0123456789abcdef0123456789abcdef01"
  ∧ _pad_address (_pad_address "0xAbCdEF0123456789abcdef0123456789ABCDEF01")
    = _pad_address "0xAbCdEF0123456789abcdef0123456789ABCDEF01".
Proof.
  pose proof (pad_address_exact_idempotent
    "AbCdEF0123456789abcdef0123456789ABCDEF01" eq_refl eq_refl) as (H1 & _ & _ & _ & H5).
  split; [exact H1 | exact H5].
Defined.

(** ** The text of "too many results" errors *)

Lemma strip_prefix_app (p r : string) : strip_prefix p (p +:+ r) = Some r.
Proof. induction p as [|a p IH]; [done|]. rewrite app_cons. simpl. by rewrite decide_True. Qed.

Lemma strip_prefix_Some (p s r : string) : strip_prefix p s = Some r → s = p +:+ r.
Proof.
  revert s. induction p as [|a p IH]; intros s; simpl.
  - by intros [= ->].
  - destruct s as [|b s]; [done|]. case_decide as Hab; [|done].
    intros ->%IH. by rewrite Hab.
Qed.

Lemma str_contains_unfold (needle s : string) :
  str_contains needle s
  = match strip_prefix needle s with
    | Some _ => true
    | None => match s with
              | EmptyString => false
              | String _ rest => str_contains needle rest
              end
    end.
Proof. by destruct s. Qed.

Lemma str_contains_occurs (needle s : string) :
  str_contains needle s = true ↔ occurs needle s.
Proof.
  split.
  - induction s as [|c s IH]; rewrite str_contains_unfold.
    + destruct (strip_prefix needle "") as [r|] eqn:E; [|done].
      intros _. exists "", r. exact (strip_prefix_Some _ _ _ E).
    + destruct (strip_prefix needle (String c s)) as [r|] eqn:E.
      * intros _. exists "", r. exact (strip_prefix_Some _ _ _ E).
      * intros (before & after & ->)%IH. by exists (String c before), after.
  - intros (before & after & ->). induction before as [|c before IH].
    + rewrite app_nil_l, str_contains_unfold. by rewrite strip_prefix_app.
    + rewrite app_cons, str_contains_unfold.
      by destruct (strip_prefix needle (String c (before +:+ needle +:+ after))).
Qed.

Lemma search_block_range_unfold (s : string) :
  search_block_range s
  = match match_block_range s with
    | Some r => Some r
    | None => match s with
              | EmptyString => None
              | String _ rest => search_block_range rest
              end
    end.
Proof. by destruct s. Qed.

(** The search passes over a text without an opening bracket. *)
Lemma search_block_range_skip (before rest : string) :
  ¬ occurs "[" before →
  search_block_range (before +:+ rest) = search_block_range rest.
Proof.
  induction before as [|c before IH]; intros Hno; [done|].
  rewrite app_cons, search_block_range_unfold.
  assert (Hc : "["%char ≠ c).
  { intros <-. apply Hno. by exists "", before. }
  unfold match_block_range at 1. simpl. rewrite decide_False by done. simpl.
  apply IH. intros (b & a & ->). apply Hno. by exists (String c b), a.
Qed.

Lemma span_app (P : ascii → bool) (g : string) (c : ascii) (rest : string) :
  str_all P g = true → P c = false →
  span P (g +:+ String c rest) = (g, String c rest).
Proof.
  intros Hg Hc. induction g as [|a g IH]; simpl in *.
  - by rewrite Hc.
  - apply andb_true_iff in Hg as [Ha Hg]. by rewrite Ha, IH.
Qed.

Lemma hex_digit_chars_hex (c : ascii) : c ∈ hex_digit_chars → is_hex_digit c = true.
Proof.
  unfold hex_digit_chars. simpl. intros H.
  repeat (apply elem_of_cons in H as [->|H]; [reflexivity|]).
  by apply elem_of_nil in H.
Qed.

Lemma hex_digits_all (g : string) :
  Forall (λ c, c ∈ hex_digit_chars) (list_ascii_of_string g) →
  str_all is_hex_digit g = true.
Proof.
  induction g as [|c g IH]; simpl; [done|].
  intros [Hc Hg]%Forall_cons. by rewrite hex_digit_chars_hex, IH.
Qed.

(** The regular expression matches the range of a "too many results" error
    and captures its digits. *)
Lemma match_block_range_too_many (g1 : string) (blanks : nat) (g2 after : string) :
  hex_digits g1 → hex_digits g2 →
  match_block_range
    ("[0x" +:+ g1 +:+ "," +:+ str_repeat " " blanks +:+ "0x" +:+ g2 +:+ "]" +:+ after)
  = Some (g1, g2).
Proof.
  intros [Hne1 H1%hex_digits_all] [Hne2 H2%hex_digits_all].
  set (r5 := "]" +:+ after).
  set (r3 := "0x" +:+ g2 +:+ r5).
  set (r1 := "," +:+ str_repeat " " blanks +:+ r3).
  assert (E1 : span is_hex_digit (g1 +:+ r1) = (g1, r1))
    by by apply (span_app is_hex_digit g1 ","%char).
  assert (E2 : span is_whitespace (str_repeat " " blanks +:+ r3)
               = (str_repeat " " blanks, r3)).
  { apply (span_app is_whitespace (str_repeat " " blanks) "0"%char); [|done].
    by apply str_all_repeat. }
  assert (E3 : span is_hex_digit (g2 +:+ r5) = (g2, r5))
    by by apply (span_app is_hex_digit g2 "]"%char).
  unfold match_block_range.
  rewrite strip_prefix_app. cbn [mbind option_bind]. rewrite E1.
  rewrite decide_False by done.
  unfold r1 at 1. rewrite strip_prefix_app. cbn [mbind option_bind]. rewrite E2.
  unfold r3 at 1. rewrite strip_prefix_app. cbn [mbind option_bind]. rewrite E3.
  rewrite decide_False by done.
  unfold r5. by rewrite strip_prefix_app.
Qed.

(** The scanner reads the suggested range off a "too many results" error,
    and finds none in an error unrelated to the result limit. *)
Lemma suggests_chunk_suggestion (error_msg g1 g2 : string) :
  suggests error_msg g1 g2 → chunk_suggestion error_msg = Some (g1, g2).
Proof.
  intros (before & blanks & after & -> & Hmarker & Hno & Hg1 & Hg2).
  unfold chunk_suggestion.
  assert (Hm : str_contains "query returned more than 10000 results"
                 (too_many_results before g1 blanks g2 after)
               || str_contains "Try with this block range"
                    (too_many_results before g1 blanks g2 after) = true).
  { apply orb_true_iff. destruct Hmarker as [H|H]; [left|right];
      by apply str_contains_occurs. }
  rewrite Hm. unfold too_many_results.
  rewrite search_block_range_skip by done.
  rewrite search_block_range_unfold. by rewrite match_block_range_too_many.
Qed.

Lemma unrelated_chunk_suggestion (error_msg : string) :
  unrelated error_msg → chunk_suggestion error_msg = None.
Proof.
  intros [H1 H2]. unfold chunk_suggestion.
  destruct (str_contains "query returned more than 10000 results" error_msg) eqn:E1.
  { by apply str_contains_occurs in E1. }
  destruct (str_contains "Try with this block range" error_msg) eqn:E2; [|done].
  by apply str_contains_occurs in E2.
Qed.

(** ** Log chunking *)

Section Chunking.
Context {S : Type} (make_request : GetLogs S).

Lemma query_fuel_mono fuel tps from_block to_block s r :
  _query_logs_with_chunking make_request fuel tps from_block to_block s = Some r →
  ∀ fuel', (fuel ≤ fuel')%nat →
  _query_logs_with_chunking make_request fuel' tps from_block to_block s = Some r.
Proof.
  revert tps from_block to_block s r.
  induction fuel as [|fuel IH]; intros tps from_block to_block s r H fuel' Hle; [done|].
  destruct fuel' as [|fuel']; [lia|]. assert (Hle' : (fuel ≤ fuel')%nat) by lia.
  revert H. simpl.
  destruct (make_request _ s) as [[logs|error_msg] s1]; [done|].
  destruct (chunk_suggestion error_msg) as [[g1 g2]|]; [|done].
  destruct (_query_logs_with_chunking make_request fuel tps _ _ s1)
    as [[[chunk_logs|e] s2]|] eqn:E1; [| |done];
    rewrite (IH _ _ _ _ _ E1 fuel' Hle'); [|done].
  destruct (decide (from_block = "0x" +:+ g1)) as [Hfrom|Hfrom].
  - destruct (decide (to_block = "latest" ∨ to_block ≠ "0x" +:+ g2)); [|done].
    destruct (_query_logs_with_chunking make_request fuel tps _ to_block s2)
      as [[[after_logs|e] s4]|] eqn:E3; [| |done];
      by rewrite (IH _ _ _ _ _ E3 fuel' Hle').
  - destruct (_query_logs_with_chunking make_request fuel tps from_block _ s2)
      as [[[before_logs|e] s3]|] eqn:E2; [| |done];
      rewrite (IH _ _ _ _ _ E2 fuel' Hle'); simpl;
      (destruct (decide (to_block = "latest" ∨ to_block ≠ "0x" +:+ g2)); [|done]);
      (destruct (_query_logs_with_chunking make_request fuel tps _ to_block s3)
        as [[[after_logs|e'] s4]|] eqn:E3; [| |done]);
      by rewrite (IH _ _ _ _ _ E3 fuel' Hle').
Qed.

Lemma side_of_extend fuel (queried : Prop) tps from_block to_block s all_logs x s' :
  (∀ out s'',
     _query_logs_with_chunking make_request fuel tps from_block to_block s = Some (out, s'') →
     chunked make_request tps from_block to_block s out s'') →
  queried →
  extend_or_pass all_logs
    (_query_logs_with_chunking make_request fuel tps from_block to_block s) = Some (x, s') →
  ∃ logs, x = all_logs ++ logs
          ∧ side_chunk make_request tps queried from_block to_block s logs s'.
Proof.
  intros IH Hq.
  destruct (_query_logs_with_chunking make_request fuel tps from_block to_block s)
    as [[[more|e] s'']|]; simpl; intros H; simplify_eq.
  - exists more. split; [done|]. apply side_returned; auto.
  - exists []. split; [by rewrite app_nil_r|]. eapply side_raised; eauto.
Qed.

Lemma before_of_extend fuel tps from_block suggested_from before_end s chunk_logs x s' :
  (∀ out s'',
     _query_logs_with_chunking make_request fuel tps from_block before_end s = Some (out, s'') →
     chunked make_request tps from_block before_end s out s'') →
  (if decide (from_block = suggested_from) then Some (chunk_logs, s)
   else extend_or_pass chunk_logs
          (_query_logs_with_chunking make_request fuel tps from_block before_end s))
  = Some (x, s') →
  ∃ before_logs, x = chunk_logs ++ before_logs
    ∧ side_chunk make_request tps (from_block ≠ suggested_from)
        from_block before_end s before_logs s'.
Proof.
  intros IH. case_decide as Hfrom.
  - intros ?; simplify_eq. exists []. split; [by rewrite app_nil_r|].
    apply side_skipped. by intros ?.
  - by apply side_of_extend.
Qed.

(** The scanner takes an error of a narrowing provider for what it is. *)
Lemma narrowing_classifies latest flt s error_msg s' :
  narrowing latest make_request →
  make_request flt s = (Raise error_msg, s') →
  (unrelated error_msg ∧ chunk_suggestion error_msg = None)
  ∨ ∃ g1 g2, suggests error_msg g1 g2 ∧ chunk_suggestion error_msg = Some (g1, g2).
Proof.
  intros Hn E. destruct (Hn _ _ _ _ E) as [Hu|(g1 & g2 & Hs & _)].
  - left. split; [done|]. by apply unrelated_chunk_suggestion.
  - right. exists g1, g2. split; [done|]. by apply suggests_chunk_suggestion.
Qed.

(** Whatever a chunked query of a narrowing provider returns is described by
    [chunked]. *)
Lemma query_chunked latest fuel tps from_block to_block s out s' :
  narrowing latest make_request →
  _query_logs_with_chunking make_request fuel tps from_block to_block s = Some (out, s') →
  chunked make_request tps from_block to_block s out s'.
Proof.
  intros Hn. revert tps from_block to_block s out s'.
  induction fuel as [|fuel IH]; intros tps from_block to_block s out s'; [done|].
  simpl.
  destruct (make_request _ s) as [[logs|error_msg] s1] eqn:E.
  { intros ?; simplify_eq. by apply chunked_direct. }
  destruct (narrowing_classifies latest _ _ _ _ Hn E) as [[Hu ->]|(g1 & g2 & Hs & ->)].
  { intros ?; simplify_eq. by apply chunked_raise. }
  destruct (_query_logs_with_chunking make_request fuel tps _ _ s1)
    as [[[chunk_logs|e] s2]|] eqn:E1; [| |done].
  2: { intros ?; simplify_eq. eapply chunked_suggested_raise; eauto. }
  apply IH in E1.
  destruct (if decide (from_block = "0x" +:+ g1) then _ else _)
    as [[all_logs s3]|] eqn:E2; [|done].
  apply before_of_extend in E2 as (before_logs & -> & Hside2);
    [|by intros ??; apply IH].
  case_decide as Hto.
  - destruct (extend_or_pass _ _) as [[all_logs' s4]|] eqn:E3; [|done].
    intros ?; simplify_eq.
    apply (side_of_extend _ (to_block = "latest" ∨ to_block ≠ "0x" +:+ g2)) in E3
      as (after_logs & -> & Hside3); [|by intros ??; apply IH|done].
    rewrite <-app_assoc. eapply chunked_concat; eauto.
  - intros ?; simplify_eq.
    replace (chunk_logs ++ before_logs) with (chunk_logs ++ before_logs ++ [])
      by by rewrite app_nil_r.
    eapply chunked_concat; eauto. by apply side_skipped.
Qed.

Lemma query_raise_surfaces fuel tps from_block to_block s e s' :
  _query_logs_with_chunking make_request fuel tps from_block to_block s = Some (Raise e, s') →
  surfaces make_request tps from_block to_block s e s'.
Proof.
  revert tps from_block to_block s e s'.
  induction fuel as [|fuel IH]; intros tps from_block to_block s e s'; [done|].
  simpl.
  destruct (make_request _ s) as [[logs|error_msg] s1] eqn:E; [done|].
  destruct (chunk_suggestion error_msg) as [[g1 g2]|] eqn:Ec.
  2: { intros ?; simplify_eq. by apply surfaces_here. }
  destruct (_query_logs_with_chunking make_request fuel tps _ _ s1)
    as [[[chunk_logs|e1] s2]|] eqn:E1; [| |done].
  2: { intros ?; simplify_eq. eapply surfaces_suggested; eauto. }
  destruct (if decide (from_block = "0x" +:+ g1) then _ else _) as [[all_logs s3]|]; [|done].
  destruct (if decide (to_block = "latest" ∨ to_block ≠ "0x" +:+ g2) then _ else _)
    as [[all_logs' s4]|]; done.
Qed.

Lemma surfaces_query_raises tps from_block to_block s e s' :
  surfaces make_request tps from_block to_block s e s' →
  ∃ fuel0, ∀ fuel, (fuel0 ≤ fuel)%nat →
    _query_logs_with_chunking make_request fuel tps from_block to_block s
    = Some (Raise e, s').
Proof.
  induction 1 as [from_block to_block s error_msg s1 E Ec
                 |from_block to_block s error_msg s1 g1 g2 e s2 E Ec _ [fuel0 IH]].
  - exists 1%nat. intros [|fuel] Hle; [lia|]. simpl. by rewrite E, Ec.
  - exists (Datatypes.S fuel0). intros [|fuel] Hle; [lia|]. simpl.
    rewrite E, Ec, IH by lia. done.
Qed.

(** C6. A chunked query raises an error exactly when that error is an
    unrecognised error of its own request or surfaces from the query of the
    suggested range; the error reaches the caller unchanged.  Errors raised
    while the before-range or the after-range chunk is queried are not among
    them. *)
Theorem unrecognised_errors_surface tps from_block to_block s e s' :
  surfaces make_request tps from_block to_block s e s'
  ↔ ∃ fuel0, ∀ fuel, (fuel0 ≤ fuel)%nat →
      _query_logs_with_chunking make_request fuel tps from_block to_block s
      = Some (Raise e, s').
Proof.
  split; [apply surfaces_query_raises|].
  intros [fuel0 H]. apply (query_raise_surfaces fuel0). by apply H.
Qed.

Lemma block_number_prefixed latest g :
  block_number latest ("0x" +:+ g) = int16 ("0x" +:+ g).
Proof. unfold block_number. by rewrite decide_False. Qed.

Lemma block_number_hex latest z : block_number latest (hex z) = z.
Proof.
  unfold block_number, hex, int16. rewrite HexString.to_Z_of_Z.
  rewrite decide_False; [done|]. by destruct z.
Qed.

(** The three recursive calls each query fewer blocks than their caller. *)
Lemma narrowing_shrinks latest tps from_block to_block s error_msg s1 g1 g2 :
  narrowing latest make_request →
  make_request (mkFilter from_block to_block tps) s = (Raise error_msg, s1) →
  suggests error_msg g1 g2 →
  (range_size latest ("0x" +:+ g1) ("0x" +:+ g2) < range_size latest from_block to_block
   ∧ range_size latest from_block (hex (int16 ("0x" +:+ g1) - 1))
     < range_size latest from_block to_block
   ∧ range_size latest (hex (int16 ("0x" +:+ g2) + 1)) to_block
     < range_size latest from_block to_block)%nat.
Proof.
  intros Hn E Hs. destruct (Hn _ _ _ _ E) as [Hu|(g1' & g2' & Hs' & H)].
  { apply unrelated_chunk_suggestion in Hu. apply suggests_chunk_suggestion in Hs.
    congruence. }
  apply suggests_chunk_suggestion in Hs, Hs'. simplify_eq. simpl in H.
  unfold range_size. rewrite !block_number_prefixed, !block_number_hex. lia.
Qed.

Lemma query_terminates latest (n : nat) :
  narrowing latest make_request →
  ∀ tps from_block to_block s fuel,
    (range_size latest from_block to_block ≤ n)%nat → (n < fuel)%nat →
    is_Some (_query_logs_with_chunking make_request fuel tps from_block to_block s).
Proof.
  intros Hn. induction n as [|n IH]; intros tps from_block to_block s [|fuel] Hsize Hfuel;
    try lia; simpl.
  all: destruct (make_request _ s) as [[logs|error_msg] s1] eqn:E; [by eexists|].
  all: destruct (narrowing_classifies latest _ _ _ _ Hn E) as [[Hu ->]|(g1 & g2 & Hs & ->)];
    [by eexists|].
  all: destruct (narrowing_shrinks latest _ _ _ _ _ _ _ _ Hn E Hs) as (H1 & H2 & H3).
  { lia. }
  destruct (IH tps ("0x" +:+ g1) ("0x" +:+ g2) s1 fuel) as [[[chunk_logs|e] s2] E1];
    [lia..| |]; rewrite E1; [|by eexists].
  assert (Hb : is_Some
    (if decide (from_block = "0x" +:+ g1) then Some (chunk_logs, s2)
     else extend_or_pass chunk_logs
            (_query_logs_with_chunking make_request fuel tps from_block
               (hex (int16 ("0x" +:+ g1) - 1)) s2))).
  { case_decide; [by eexists|].
    destruct (IH tps from_block (hex (int16 ("0x" +:+ g1) - 1)) s2 fuel)
      as [[[before_logs|e] s3] E2]; [lia..| |]; rewrite E2; by eexists. }
  destruct Hb as [[all_logs s3] ->].
  case_decide; [|by eexists].
  destruct (IH tps (hex (int16 ("0x" +:+ g2) + 1)) to_block s3 fuel)
    as [[[after_logs|e] s4] E3]; [lia..| |]; rewrite E3; by eexists.
Qed.


End Chunking.

Example halving_provider_chunks :
  _query_logs_with_chunking halving_provider 3 [] "0x0" "latest" ()
  = Some (Ok ["log-a"; "log-b"], ()).
Proof. vm_compute. reflexivity. Qed.

Lemma too_many_3_5_suggests : suggests too_many_3_5 "3" "5".
Proof.
  exists "query returned more than 10000 results. Try with this block range ", 1%nat, ".".
  split; [reflexivity|].
  split; [left; by apply str_contains_occurs|].
  split.
  { intros H%str_contains_occurs. by vm_compute in H. }
  split; (split; [done|]); repeat constructor.
Qed.

Lemma three_chunk_provider_narrowing : narrowing 9 three_chunk_provider.
Proof.
  intros flt s error_msg s' E. unfold three_chunk_provider in E.
  case_decide as H; [|by repeat case_decide].
  destruct H as [Hf Ht]. simplify_eq. right. exists "3", "5".
  split; [exact too_many_3_5_suggests|]. rewrite Hf, Ht. vm_compute.
  repeat split; congruence.
Qed.


Lemma unrecognised_errors_surface_witness :
  surfaces broken_provider [] "0x0" "latest" () "connection reset" ()
  ∧ ∃ fuel0, ∀ fuel, (fuel0 ≤ fuel)%nat →
      _query_logs_with_chunking broken_provider fuel [] "0x0" "latest" ()
      = Some (Raise "connection reset", ()).
Proof.
  assert (H : surfaces broken_provider [] "0x0" "latest" () "connection reset" ()).
  { apply (surfaces_suggested broken_provider [] "0x0" "latest" () too_many_0_4 () "0" "4");
      [reflexivity..|].
    apply surfaces_here; reflexivity. }
  split; [exact H|].
  exact (proj1 (unrecognised_errors_surface broken_provider [] "0x0" "latest" ()
                  "connection reset" ()) H).
Defined.

(** Not every unrecognised error propagates: an error raised while the
    after-range chunk is queried does not reach the caller, and the query
    returns the logs of the suggested chunk. *)
Lemma after_range_error_swallowed : ¬ every_unrecognised_error_propagates.
Proof.
  intros H.
  assert (E : _query_logs_with_chunking (recording flaky_provider) 3 [] "0x0" "latest" ((), [])
    = Some (Ok ["log-a"],
            ((), [(mkFilter "0x5" "latest" [], "connection reset");
                  (mkFilter "0x0" "latest" [], too_many_0_4)])))
    by (vm_compute; reflexivity).
  specialize (H _ _ _ _ _ _ _ _ _ _ E (mkFilter "0x5" "latest" []) "connection reset").
  discriminate H; [left | vm_compute; reflexivity].
Qed.

(** ** Wallets without activity *)

Section Scan.
Context {W : Type} (env : Env W).

Lemma only_activity_probes_refl user (st : State W) : only_activity_probes user st st.
Proof. exists []. by split. Qed.

Lemma only_activity_probes_trans user (st1 st2 st3 : State W) :
  only_activity_probes user st1 st2 → only_activity_probes user st2 st3 →
  only_activity_probes user st1 st3.
Proof.
  intros (d1 & E1 & H1) (d2 & E2 & H2). exists (d2 ++ d1). split.
  - by rewrite E2, E1, app_assoc.
  - by apply Forall_app.
Qed.

Lemma has_chain_activity_probes user c st :
  only_activity_probes user st (_has_chain_activity env user c st).2.
Proof.
  exists [EvGetLogs (activity_filter user)]. split; [|by repeat constructor].
  unfold _has_chain_activity, make_request.
  by destruct (rpc_get_logs env _ _) as [[logs|e] w].
Qed.

Lemma detect_active_chains_probes user chains active st :
  only_activity_probes user st (detect_active_chains_loop env user chains active st).2.
Proof.
  revert active st. induction chains as [|c chains IH]; intros active st; simpl.
  - apply only_activity_probes_refl.
  - pose proof (has_chain_activity_probes user c st) as H.
    destruct (_has_chain_activity env user c st) as [b st1].
    eapply only_activity_probes_trans; [exact H | apply IH].
Qed.

(** A chain scan that reports no activity made one probe and nothing else,
    whatever recursion depth was allowed. *)
Lemma scan_chain_inactive fuel user c st a st' :
  scan_chain env fuel user c st = Some (a, st') →
  has_activity a = false →
  only_activity_probes user st st'
  ∧ ∀ fuel', scan_chain env fuel' user c st = Some (a, st').
Proof.
  unfold scan_chain. pose proof (has_chain_activity_probes user c st) as H.
  destruct (_has_chain_activity env user c st) as [[] st1]; simpl.
  - destruct (discover_protocols env fuel user c st1) as [[protocols st2]|]; [|done].
    intros ? ?; by simplify_eq.
  - intros ? ?; by simplify_eq.
Qed.

Lemma scan_all_chains_loop_prefix fuel user active chains results st res st' :
  scan_all_chains_loop env fuel user active chains results st = Some (res, st') →
  ∃ new, res = results ++ new.
Proof.
  revert results st. induction chains as [|c chains IH]; intros results st; simpl.
  - intros ?; simplify_eq. exists []. by rewrite app_nil_r.
  - case_decide.
    + destruct (scan_chain env fuel user c st) as [[a st1]|]; [|done].
      intros [new ->]%IH. exists (a :: new). by rewrite <-app_assoc.
    + intros [new ->]%IH. eexists. by rewrite <-app_assoc.
Qed.

Lemma scan_all_chains_loop_inactive fuel user active chains results st res st' :
  scan_all_chains_loop env fuel user active chains results st = Some (res, st') →
  Forall (λ a, has_activity a = false) res →
  only_activity_probes user st st'
  ∧ ∀ fuel', scan_all_chains_loop env fuel' user active chains results st = Some (res, st').
Proof.
  revert results st. induction chains as [|c chains IH]; intros results st; simpl.
  - intros ? _; simplify_eq. split; [apply only_activity_probes_refl | done].
  - case_decide.
    + destruct (scan_chain env fuel user c st) as [[a st1]|] eqn:E; [|done].
      intros Hloop Hall.
      destruct (scan_all_chains_loop_prefix _ _ _ _ _ _ _ _ Hloop) as [new ->].
      assert (Ha : has_activity a = false).
      { rewrite !Forall_app, Forall_singleton in Hall. by destruct Hall as [[_ ?] _]. }
      destruct (scan_chain_inactive _ _ _ _ _ _ E Ha) as [Hp1 Hf1].
      destruct (IH _ _ Hloop Hall) as [Hp2 Hf2]. split.
      * by eapply only_activity_probes_trans.
      * intros fuel'. by rewrite Hf1.
    + intros Hloop Hall. by apply IH.
Qed.

Lemma filter_active_nil (acts : list ChainActivity) :
  Forall (λ a, has_activity a = false) acts →
  filter (λ a, has_activity a = true) acts = [].
Proof.
  induction 1 as [|a acts Ha _ IH]; [done|].
  rewrite filter_cons_False by congruence. exact IH.
Qed.

(** C2. When the scan reports no activity on any chain, [get_all_positions]
    returns the empty summary (zero totals, no positions, empty by-chain and
    by-protocol maps) whatever recursion depth is allowed, and the only calls
    it has made are activity probes: no protocol discovery, no handler call
    and no call to the pricing service. *)
Theorem no_activity_empty_summary fuel user st acts st1 :
  scan_all_chains env fuel user st = Some (acts, st1) →
  Forall (λ a, has_activity a = false) acts →
  (∀ fuel', get_all_positions env fuel' user st
            = Some (mkSummary user [] 0%Qc ∅ ∅ 0%Qc, st1))
  ∧ only_activity_probes user st st1.
Proof.
  unfold scan_all_chains, detect_active_chains. intros Hscan Hall.
  pose proof (detect_active_chains_probes user (all_supported_chains env) [] st) as Hd.
  destruct (detect_active_chains_loop env user (all_supported_chains env) [] st)
    as [active st0] eqn:Ed.
  destruct (scan_all_chains_loop_inactive _ _ _ _ _ _ _ _ Hscan Hall) as [Hp Hf].
  split; [|by eapply only_activity_probes_trans].
  intros fuel'. unfold get_all_positions, scan_all_chains, detect_active_chains.
  rewrite Ed, Hf. by rewrite filter_active_nil.
Qed.

End Scan.

Lemma no_activity_empty_summary_witness :
  scan_all_chains fading_env 0 sample_wallet (mkState 0%nat [])
  = Some ([mkActivity "ethereum" false []; mkActivity "base" false []],
          mkState 3%nat (replicate 3 (EvGetLogs (activity_filter sample_wallet))))
  ∧ get_all_positions fading_env 5 sample_wallet (mkState 0%nat [])
    = Some (mkSummary sample_wallet [] 0%Qc ∅ ∅ 0%Qc,
            mkState 3%nat (replicate 3 (EvGetLogs (activity_filter sample_wallet)))).
Proof.
  assert (E : scan_all_chains fading_env 0 sample_wallet (mkState 0%nat [])
    = Some ([mkActivity "ethereum" false []; mkActivity "base" false []],
            mkState 3%nat (replicate 3 (EvGetLogs (activity_filter sample_wallet)))))
    by (vm_compute; reflexivity).
  split; [exact E|].
  apply (no_activity_empty_summary fading_env 0 sample_wallet _ _ _ E).
  repeat constructor.
Defined.

(** * Further properties of the modelled code *)

(** ** Summary construction, key by key *)


Lemma rewards_fold_sum (rs : list Reward) (t : Decimal) :
  fold_left (λ t' r, (t' + or_zero (reward_usd_value r))%Qc) rs t
  = (t + sum_decimals (map reward_value_or_zero rs))%Qc.
Proof.
  revert t. induction rs as [|r rs IH]; intros t; simpl; [ring|].
  rewrite IH, or_zero_default. unfold reward_value_or_zero. ring.
Qed.

Lemma sum_decimals_app (l1 l2 : list Decimal) :
  sum_decimals (l1 ++ l2) = (sum_decimals l1 + sum_decimals l2)%Qc.
Proof. induction l1 as [|x l1 IH]; simpl; [ring|]. rewrite IH. ring. Qed.


(** ** Pricing enrichment, further *)

Lemma priced_value_enrich prices prices' p :
  priced_value prices (enrich_position prices' p) = priced_value prices p.
Proof. unfold enrich_position. by destruct (priced_value prices' p). Qed.

Lemma enrich_reward_idempotent prices c r :
  enrich_reward prices c (enrich_reward prices c r) = enrich_reward prices c r.
Proof.
  destruct (decide (0 < price_get prices (c, address (reward_token r)))%Qc) as [H|H].
  - unfold enrich_reward. rewrite (decide_True _ _ H). simpl. by rewrite decide_True.
  - unfold enrich_reward. by rewrite !(decide_False _ _ H).
Qed.

Lemma enrich_position_idempotent prices p :
  enrich_position prices (enrich_position prices p) = enrich_position prices p.
Proof.
  unfold enrich_position at 1. rewrite priced_value_enrich.
  unfold enrich_position.
  destruct (priced_value prices p) as [v|]; simpl; unfold set_claimable_rewards; simpl;
    f_equal; rewrite <-list_fmap_compose; apply list_fmap_ext; intros ? r _; simpl;
    apply enrich_reward_idempotent.
Qed.

(** X3. Enriching a second time with the same prices changes nothing: the
    values written depend only on fields that enrichment leaves alone. *)
Theorem enrichment_idempotent (prices : gmap PriceKey Decimal) (ps : list Position) :
  enrich_with prices (enrich_with prices ps) = enrich_with prices ps.
Proof.
  unfold enrich_with. rewrite <-list_fmap_compose.
  apply list_fmap_ext. intros ? p _. apply enrich_position_idempotent.
Qed.

(** X4. When the pricing service has no positive price for any token, the
    positions come back exactly as they were: a value a handler supplied is
    kept and a missing value stays missing, it is not set to zero. *)
Theorem enrichment_without_prices (prices : gmap PriceKey Decimal) (ps : list Position) :
  (∀ k, ¬ (0 < price_get prices k)%Qc) →
  enrich_with prices ps = ps.
Proof.
  intros Hno. unfold enrich_with.
  rewrite <-(list_fmap_id ps) at 2. apply list_fmap_ext. intros ? p _. simpl.
  assert (Hp : priced_value prices p = None).
  { unfold priced_value.
    destruct (underlying_token p), (truthy_decimal (underlying_balance p));
      rewrite ?decide_False by apply Hno; done. }
  unfold enrich_position. rewrite Hp. destruct p as [? ? ? ? ? ? ? ? rs ? ? ?].
  unfold set_claimable_rewards. simpl. f_equal.
  rewrite <-(list_fmap_id rs) at 2. apply list_fmap_ext. intros ? r _. simpl.
  unfold enrich_reward. by rewrite decide_False by apply Hno.
Qed.

Lemma enrichment_without_prices_witness :
  enrich_with ∅ [zero_underlying_position; reward_position; lido_position]
  = [zero_underlying_position; reward_position; lido_position].
Proof.
  apply (enrichment_without_prices ∅).
  intros k. unfold price_get. rewrite lookup_empty. simpl.
  intros H. by apply Qclt_not_eq in H.
Defined.


Lemma dict_set_keys_nodup {K V : Type} `{EqDecision K} (d : list (K * V)) k v :
  NoDup (dict_keys d) → NoDup (dict_keys (dict_set d k v)).
Proof.
  induction d as [|[k' v'] d IH]; simpl; intros Hnd.
  - apply NoDup_singleton.
  - case_decide; [done|]. simpl. apply NoDup_cons in Hnd as [Hnin Hnd].
    apply NoDup_cons. split; [|by apply IH].
    intros [->|Hin]%dict_keys_set_inv; done.
Qed.

(** X5. The list of pairs sent to the pricing service has no duplicates and
    holds exactly the primary-token pair of every position and the
    underlying-token pair of every position that has an underlying token. *)
Theorem requested_keys_exact (ps : list Position) :
  NoDup (requested_keys ps)
  ∧ ∀ k, k ∈ requested_keys ps ↔
      ∃ p, p ∈ ps ∧ (k = (chain p, address (token p))
                     ∨ ∃ ut, underlying_token p = Some ut ∧ k = (chain p, address ut)).
Proof.
  split; [|apply requested_keys_spec].
  unfold requested_keys, tokens_to_price.
  assert (G : ∀ d : list (PriceKey * Token),
    NoDup (dict_keys d) → NoDup (dict_keys (fold_left collect_step ps d))).
  { induction ps as [|p ps IH]; intros d Hd; simpl; [done|].
    apply IH. unfold collect_step.
    destruct (underlying_token p); repeat apply dict_set_keys_nodup; done. }
  apply G. constructor.
Qed.

(** ** TTL cache, further *)

Section CacheMore.
Context {Value : Type} (_make_key : string → list string → string).

Lemma is_expired_later (t t' : Qc) (e : Cache.CacheEntry Value) :
  (t ≤ t')%Qc → Cache.is_expired t e = true → Cache.is_expired t' e = true.
Proof.
  unfold Cache.is_expired. intros Hle H%bool_decide_eq_true.
  apply bool_decide_eq_true. eapply Qclt_le_trans; [exact H|].
  unfold Qcminus. by apply Qcplus_le_mono_r.
Qed.

Lemma get_value_spec (now : Qc) m p (c : Cache.RPCCache Value) :
  (Cache.get _make_key now m p c).1
  = e ← Cache._cache c !! _make_key m p;
    if Cache.is_expired now e then None else Some (Cache.value e).
Proof.
  unfold Cache.get. destruct (Cache._cache c !! _make_key m p) as [e|]; simpl; [|done].
  by destruct (Cache.is_expired now e).
Qed.

(** X6. A lookup may evict the entry it finds expired, but no later lookup
    can tell: whatever is asked afterwards, at the same or a later time, gets
    the answer it would have got without the first lookup. *)
Theorem get_eviction_unobservable (now now' : Qc) m p m' p' (c : Cache.RPCCache Value) :
  (now ≤ now')%Qc →
  (Cache.get _make_key now' m' p' (Cache.get _make_key now m p c).2).1
  = (Cache.get _make_key now' m' p' c).1.
Proof.
  intros Hle. rewrite !get_value_spec. unfold Cache.get.
  destruct (Cache._cache c !! _make_key m p) as [e|] eqn:E; simpl; [|done].
  destruct (Cache.is_expired now e) eqn:Hexp; simpl; [|done].
  destruct (decide (_make_key m p = _make_key m' p')) as [Heq|Hne].
  - rewrite <-Heq, lookup_delete_eq, E. simpl.
    by rewrite (is_expired_later now now' e Hle Hexp).
  - by rewrite lookup_delete_ne.
Qed.

(** X7. Storing a value under one key does not change what a lookup of a
    request with a different key returns. *)
Theorem set_leaves_other_keys (t now : Qc) m p (v : Value) ttl_arg m' p'
    (c : Cache.RPCCache Value) :
  _make_key m p ≠ _make_key m' p' →
  (Cache.get _make_key now m' p' (Cache.set _make_key t m p v ttl_arg c)).1
  = (Cache.get _make_key now m' p' c).1.
Proof.
  intros Hne. rewrite !get_value_spec. unfold Cache.set. simpl.
  by rewrite lookup_insert_ne.
Qed.

(** X8. A value stored without a TTL lives for the cache's default TTL:
    it is returned while its age is at most [default_ttl], and afterwards the
    lookup is empty and the entry is removed. *)
Theorem set_without_ttl_uses_default (c : Cache.RPCCache Value) (t0 t : Qc)
    m p (v : Value) :
  let c1 := Cache.set _make_key t0 m p v None c in
  ((t - t0 ≤ Qc_of_Z (Cache.default_ttl c))%Qc →
     Cache.get _make_key t m p c1 = (Some v, c1))
  ∧ ((Qc_of_Z (Cache.default_ttl c) < t - t0)%Qc →
     (Cache.get _make_key t m p c1).1 = None
     ∧ Cache._cache (Cache.get _make_key t m p c1).2 !! _make_key m p = None).
Proof.
  intros c1. unfold Cache.get, c1, Cache.set. simpl. rewrite lookup_insert_eq.
  unfold Cache.is_expired. simpl. split.
  - intros Hle. rewrite bool_decide_eq_false_2; [done|]. by apply Qcle_not_lt.
  - intros Hlt. rewrite bool_decide_eq_true_2 by done. simpl.
    split; [done|]. apply lookup_delete_eq.
Qed.

Lemma lookup_foldr_delete (m : gmap string (Cache.CacheEntry Value)) (ks : list string) k :
  foldr delete m ks !! k = if decide (k ∈ ks) then None else m !! k.
Proof.
  induction ks as [|k' ks IH]; simpl; [done|].
  destruct (decide (k' = k)) as [->|Hne].
  - rewrite lookup_delete_eq. by rewrite decide_True by left.
  - rewrite lookup_delete_ne, IH by done.
    destruct (decide (k ∈ ks)) as [Hin|Hnin].
    + by rewrite decide_True by by right.
    + rewrite decide_False; [done|]. intros [?|?]%elem_of_cons; congruence.
Qed.

Lemma cleanup_expired_cache (clock : string → Qc) (c : Cache.RPCCache Value) :
  Cache._cache (CacheSweep.cleanup_expired clock c).2
  = filter (λ ke, ¬ (Cache.is_expired (clock ke.1) ke.2 = true)) (Cache._cache c).
Proof.
  unfold CacheSweep.cleanup_expired. simpl. apply map_eq. intros k.
  rewrite lookup_foldr_delete, map_lookup_filter.
  destruct (Cache._cache c !! k) as [e|] eqn:E; simpl.
  - destruct (Cache.is_expired (clock k) e) eqn:Hexp.
    + rewrite decide_True, option_guard_False; [done|by intros []|].
      apply list_elem_of_fmap. exists (k, e). split; [done|].
      apply elem_of_map_to_list, map_lookup_filter_Some. by split.
    + rewrite decide_False, option_guard_True; [done|simpl; congruence|].
      intros ([k' e'] & -> & Hin)%list_elem_of_fmap.
      apply elem_of_map_to_list, map_lookup_filter_Some in Hin as [E' Hexp'].
      simpl in *. congruence.
  - by case_decide.
Qed.

(** X9. The sweep removes exactly the entries that are expired when it
    examines them and returns how many it removed; a lookup made afterwards
    gets the answer it would have got without the sweep. *)
Theorem cleanup_expired_removes_only_expired (clock : string → Qc) (now : Qc) m p
    (c : Cache.RPCCache Value) :
  (∀ k, clock k ≤ now)%Qc →
  let '(removed, c') := CacheSweep.cleanup_expired clock c in
  (∀ k e, Cache._cache c' !! k = Some e
          ↔ Cache._cache c !! k = Some e ∧ Cache.is_expired (clock k) e = false)
  ∧ size (Cache._cache c) = (removed + size (Cache._cache c'))%nat
  ∧ (Cache.get _make_key now m p c').1 = (Cache.get _make_key now m p c).1.
Proof.
  intros Hclock.
  destruct (CacheSweep.cleanup_expired clock c) as [removed c'] eqn:Ec.
  assert (Hc : Cache._cache c'
    = filter (λ ke, ¬ (Cache.is_expired (clock ke.1) ke.2 = true)) (Cache._cache c)).
  { rewrite <-cleanup_expired_cache. by rewrite Ec. }
  assert (Hn : removed
    = size (filter (λ ke, Cache.is_expired (clock ke.1) ke.2 = true) (Cache._cache c))).
  { unfold CacheSweep.cleanup_expired in Ec. simplify_eq.
    by rewrite length_fmap, length_map_to_list. }
  assert (Hlook : ∀ k e, Cache._cache c' !! k = Some e
          ↔ Cache._cache c !! k = Some e ∧ Cache.is_expired (clock k) e = false).
  { intros k e. rewrite Hc, map_lookup_filter_Some. simpl.
    destruct (Cache.is_expired (clock k) e); split; intros [? ?]; split; congruence. }
  split; [exact Hlook|]. split.
  - rewrite Hn, Hc, <-map_size_disj_union by apply map_disjoint_filter_complement.
    by rewrite map_filter_union_complement.
  - rewrite !get_value_spec.
    destruct (Cache._cache c !! _make_key m p) as [e|] eqn:E; simpl.
    + destruct (Cache.is_expired (clock (_make_key m p)) e) eqn:Hexp.
      * rewrite (is_expired_later _ now e (Hclock _) Hexp).
        destruct (Cache._cache c' !! _make_key m p) as [e'|] eqn:E'; [|done].
        apply Hlook in E' as [E1 E2]. congruence.
      * assert (E' : Cache._cache c' !! _make_key m p = Some e) by by apply Hlook.
        by rewrite E'.
    + destruct (Cache._cache c' !! _make_key m p) as [e'|] eqn:E'; [|done].
      apply Hlook in E' as [E1 _]. congruence.
Qed.

End CacheMore.

Lemma get_eviction_unobservable_witness :
  (Cache.get method_key (dec 60) "eth_blockNumber" []
     (Cache.get method_key (dec 50) "eth_blockNumber" [] two_entry_cache).2).1
  = (Cache.get method_key (dec 60) "eth_blockNumber" [] two_entry_cache).1.
Proof.
  apply (get_eviction_unobservable method_key (dec 50) (dec 60)).
  vm_compute. discriminate.
Defined.

Lemma set_leaves_other_keys_witness :
  (Cache.get method_key (dec 5) "eth_call" []
     (Cache.set method_key (dec 1) "eth_getLogs" [] "0x" (Some 5) two_entry_cache)).1
  = (Cache.get method_key (dec 5) "eth_call" [] two_entry_cache).1.
Proof.
  apply (set_leaves_other_keys method_key). vm_compute. discriminate.
Defined.


Lemma cleanup_expired_removes_only_expired_witness :
  (CacheSweep.cleanup_expired (λ _, dec 50) two_entry_cache).1 = 1%nat
  ∧ size (Cache._cache two_entry_cache)
    = (1 + size (Cache._cache (CacheSweep.cleanup_expired (λ _, dec 50) two_entry_cache).2))%nat.
Proof.
  assert (Hclock : ∀ k : string, ((λ _, dec 50) k ≤ dec 60)%Qc)
    by (intros _; vm_compute; discriminate).
  pose proof (cleanup_expired_removes_only_expired method_key (λ _, dec 50) (dec 60)
                "eth_call" [] two_entry_cache Hclock) as H.
  destruct (CacheSweep.cleanup_expired (λ _, dec 50) two_entry_cache) as [removed c'] eqn:E.
  destruct H as (_ & Hsize & _).
  assert (Hr : removed = 1%nat).
  { change removed with (removed, c').1. rewrite <-E. vm_compute. reflexivity. }
  cbn [fst snd]. rewrite Hr in Hsize. split; [exact Hr | exact Hsize].
Defined.

(** ** Retry loops *)

Lemma sleep_non_negative (cfg : Retry.RetryConfig) (attempt : nat) (sl : list Qc) :
  Sleep.delays_non_negative cfg →
  Z.of_nat attempt < Retry.max_retries cfg →
  Sleep.sleep (Retry.get_delay cfg attempt) sl = Ok (sl ++ [Retry.get_delay cfg attempt]).
Proof.
  intros Hdelays Hlt. unfold Sleep.sleep. rewrite decide_False; [done|].
  apply Qcle_not_lt. by apply Hdelays.
Qed.

(** With delays that are not negative no sleep raises, and the loops of
    [Sleep] are the loops that take the sleep for granted. *)
Lemma sleep_retry_loop_agrees {S A : Type} (cfg : Retry.RetryConfig)
    (func : S → Outcome A * S) remaining attempt last_exception s sl :
  Sleep.delays_non_negative cfg →
  (remaining ≤ Z.to_nat (Retry.max_retries cfg + 1 - Z.of_nat attempt))%nat →
  Sleep.retry_loop cfg func remaining attempt last_exception s sl
  = RetryLoop.retry_loop cfg func remaining attempt last_exception s sl.
Proof.
  intros Hdelays. revert attempt last_exception s sl.
  induction remaining as [|remaining IH]; intros attempt last_exception s sl Hle; simpl; [done|].
  destruct (func s) as [[v|e] s1]; [done|].
  case_decide as Hlast; [done|].
  rewrite sleep_non_negative by (done || lia). apply IH. lia.
Qed.

Lemma sleep_single_call_agrees {S V : Type} (cfg : Retry.RetryConfig)
    (invoke : Multicall.Call → S → Outcome V * S) call remaining attempt s sl :
  Sleep.delays_non_negative cfg →
  (remaining ≤ Z.to_nat (Retry.max_retries cfg + 1 - Z.of_nat attempt))%nat →
  Sleep.single_call_loop cfg invoke call remaining attempt s sl
  = let '(result, s', sl') :=
      Multicall.single_call_loop cfg invoke call remaining attempt s sl in
    (Ok result, s', sl').
Proof.
  intros Hdelays. revert attempt s sl.
  induction remaining as [|remaining IH]; intros attempt s sl Hle; simpl; [done|].
  destruct (invoke call s) as [[v|e] s1]; [done|].
  case_decide as Hlast; [done|].
  rewrite sleep_non_negative by (done || lia). apply IH. lia.
Qed.

Lemma sleep_execute_loop_agrees {S V : Type} (cfg : Retry.RetryConfig)
    (invoke : Multicall.Call → S → Outcome V * S) calls results s sl :
  Sleep.delays_non_negative cfg →
  Sleep._execute_individually_loop cfg invoke calls results s sl
  = let '(results', s', sl') :=
      Multicall._execute_individually_loop cfg invoke calls results s sl in
    (Ok results', s', sl').
Proof.
  intros Hdelays. revert results s sl.
  induction calls as [|call calls IH]; intros results s sl; simpl; [done|].
  unfold Sleep._execute_single_call_with_retry, Multicall._execute_single_call_with_retry.
  rewrite sleep_single_call_agrees by (done || lia).
  destruct (Multicall.single_call_loop cfg invoke call _ 0 s sl) as [[result s1] sl1].
  apply IH.
Qed.

Section RetryFacts.
Context {S A : Type}.

Lemma retry_loop_history (cfg : Retry.RetryConfig) (func : S → Outcome A * S) (n : nat) :
  Retry.max_retries cfg = Z.of_nat n →
  ∀ remaining attempt last_exception s (h : list (Outcome A)) sl,
    (attempt + remaining = n + 1)%nat → (1 ≤ remaining)%nat →
    Forall RetryLoop.is_raise h → length h = attempt →
    sl = map (Retry.get_delay cfg) (seq 0 attempt) →
    let '(out, (s', h'), sl') :=
      RetryLoop.retry_loop cfg (RetryLoop.with_history func) remaining attempt
        last_exception (s, h) sl in
    h' ≠ [] ∧ last h' = Some out
    ∧ Forall RetryLoop.is_raise (removelast h')
    ∧ (length h' ≤ n + 1)%nat
    ∧ (RetryLoop.is_raise out → length h' = (n + 1)%nat)
    ∧ sl' = map (Retry.get_delay cfg) (seq 0 (length h' - 1)).
Proof.
  intros Hn remaining.
  induction remaining as [|remaining IH];
    intros attempt last_exception s h sl Hsum Hpos Hh Hlen Hsl; [lia|].
  simpl. destruct (func s) as [[v|e] s1] eqn:E.
  - rewrite removelast_last, last_snoc, length_app. simpl.
    replace (length h + 1 - 1)%nat with attempt by lia.
    repeat split; [by destruct h|done|lia|done|done].
  - case_decide as Hlast.
    + rewrite removelast_last, last_snoc, length_app. simpl.
      replace (length h + 1 - 1)%nat with attempt by lia.
      repeat split; [by destruct h|done|lia|lia|done].
    + apply IH; [lia|lia| | |].
      * apply Forall_app. split; [done|]. by repeat constructor.
      * rewrite length_app. simpl. lia.
      * rewrite Hsl. replace (Datatypes.S attempt) with (attempt + 1)%nat by lia.
        by rewrite seq_app, map_app.
Qed.


Lemma execute_loop_as_retry_loop (cfg : Retry.RetryConfig)
    (provider : RetryLoop.RotatingProvider S A) method params remaining attempt last_exception s sl :
  RetryLoop.execute_loop cfg provider method params remaining attempt last_exception s sl
  = RetryLoop.retry_loop cfg
      (λ s, let '(r, s') := RetryLoop.rp_make_request provider method params s in
            (r, match r with
                | Ok _ => s'
                | Raise _ => RetryLoop.rotate_endpoint provider s'
                end))
      remaining attempt last_exception s sl.
Proof.
  revert attempt last_exception s sl.
  induction remaining as [|remaining IH]; intros attempt last_exception s sl; simpl; [done|].
  destruct (RetryLoop.rp_make_request provider method params s) as [[v|e] s1]; [done|].
  case_decide; [done|]. apply IH.
Qed.

Lemma request_loop_as_retry_loop (cfg : Retry.RetryConfig)
    (inner : string → list string → S → Outcome A * S)
    method params remaining attempt last_exception s sl :
  Provider.request_loop cfg inner method params remaining attempt last_exception s sl
  = RetryLoop.retry_loop cfg (inner method params) remaining attempt last_exception s sl.
Proof.
  revert attempt last_exception s sl.
  induction remaining as [|remaining IH]; intros attempt last_exception s sl; simpl; [done|].
  destruct (inner method params s) as [[v|e] s1]; [done|].
  case_decide; [done|]. apply IH.
Qed.


(** X12. With a negative [max_retries] the loop body never runs: the wrapped
    function is not called at all and the wrapper raises the [TypeError] of
    [raise None]. *)
Theorem with_retry_negative_max_retries (cfg : Retry.RetryConfig)
    (func : S → Outcome A * S) (s : S) :
  Retry.max_retries cfg < 0 →
  RetryLoop.with_retry (Some cfg) func s
  = (Raise "exceptions must derive from BaseException", s, []).
Proof.
  intros Hneg. unfold RetryLoop.with_retry. simpl.
  by replace (Z.to_nat (Retry.max_retries cfg + 1)) with 0%nat by lia.
Qed.

End RetryFacts.


Lemma with_retry_negative_max_retries_witness :
  RetryLoop.with_retry (Some (Retry.mkRetryConfig (-1) (dec 1) (dec 30) (dec 2)))
    third_time_lucky 0%nat
  = (Raise "exceptions must derive from BaseException", 0%nat, []).
Proof.
  apply (with_retry_negative_max_retries (Retry.mkRetryConfig (-1) (dec 1) (dec 30) (dec 2))).
  simpl. lia.
Defined.

(** ** Back-off delays *)

Lemma py_min_monotone (a a' b : Qc) :
  (a ≤ a')%Qc → (Retry.py_min a b ≤ Retry.py_min a' b)%Qc.
Proof.
  intros Hle. unfold Retry.py_min. repeat case_decide.
  - apply Qcle_refl.
  - exfalso. apply H0. by eapply Qclt_le_trans.
  - by apply Qcnot_lt_le.
  - done.
Qed.



(** ** Call batching *)

Section MulticallFacts.
Context {S V : Type} (cfg : Retry.RetryConfig) (invoke : Multicall.Call → S → Outcome V * S).

Lemma single_call_as_retry_loop call remaining attempt last_exception s sl :
  Multicall.single_call_loop cfg invoke call remaining attempt s sl
  = let '(out, s', sl') :=
      RetryLoop.retry_loop cfg (invoke call) remaining attempt last_exception s sl in
    (match out with Ok v => Some v | Raise _ => None end, s', sl').
Proof.
  revert attempt last_exception s sl.
  induction remaining as [|remaining IH]; intros attempt last_exception s sl; simpl.
  - by destruct last_exception.
  - destruct (invoke call s) as [[v|e] s1]; [done|].
    case_decide; [done|]. apply IH.
Qed.

Lemma single_call_always_failing call remaining attempt s sl :
  (∀ s, RetryLoop.is_raise (invoke call s).1) →
  (Multicall.single_call_loop cfg invoke call remaining attempt s sl).1.1 = None.
Proof.
  intros Hfail. revert attempt s sl.
  induction remaining as [|remaining IH]; intros attempt s sl; simpl; [done|].
  specialize (Hfail s) as Hs. destruct (invoke call s) as [[v|e] s1]; [done|].
  case_decide; [done|]. apply IH.
Qed.

Lemma execute_loop_results calls :
  ∀ results s sl,
    let '(results', _, _) :=
      Multicall._execute_individually_loop cfg invoke calls results s sl in
    length results' = (length results + length calls)%nat
    ∧ (∀ i, (i < length results)%nat → results' !! i = results !! i)
    ∧ (∀ i call, calls !! i = Some call →
         (∀ s, RetryLoop.is_raise (invoke call s).1) →
         results' !! (length results + i)%nat = Some None)
    ∧ (∀ i call v, calls !! i = Some call → 0 ≤ Retry.max_retries cfg →
         (∀ s, (invoke call s).1 = Ok v) →
         results' !! (length results + i)%nat = Some (Some v)).
Proof.
  induction calls as [|call calls IH]; intros results s sl; simpl.
  - split; [lia|]. split; [done|]. split; intros i c; by rewrite lookup_nil.
  - destruct (Multicall._execute_single_call_with_retry cfg invoke call s sl)
      as [[result s1] sl1] eqn:E.
    specialize (IH (results ++ [result]) s1 sl1).
    destruct (Multicall._execute_individually_loop cfg invoke calls (results ++ [result]) s1 sl1)
      as [[results' s2] sl2].
    destruct IH as (Hlen & Hkeep & Hfail & Hok). rewrite length_app in *. simpl in *.
    split; [lia|]. split; [|split].
    + intros i Hi. rewrite Hkeep by lia. by rewrite lookup_app_l.
    + intros [|i] c Hc Hraise; simpl in Hc.
      * simplify_eq. rewrite Nat.add_0_r, Hkeep by lia.
        rewrite lookup_app_r, Nat.sub_diag by lia. simpl. f_equal.
        pose proof (single_call_always_failing c
          (Z.to_nat (Retry.max_retries cfg + 1)) 0 s sl Hraise) as Hnone.
        unfold Multicall._execute_single_call_with_retry in E. by rewrite E in Hnone.
      * replace (length results + Datatypes.S i)%nat with (length results + 1 + i)%nat by lia.
        by eapply Hfail.
    + intros [|i] c v Hc Hpos Hv; simpl in Hc.
      * simplify_eq. rewrite Nat.add_0_r, Hkeep by lia.
        rewrite lookup_app_r, Nat.sub_diag by lia. simpl. f_equal.
        unfold Multicall._execute_single_call_with_retry in E.
        destruct (Z.to_nat (Retry.max_retries cfg + 1)) as [|k] eqn:Ek; [lia|].
        simpl in E. specialize (Hv s). destruct (invoke c s) as [r s']. simpl in Hv.
        subst r. by simplify_eq.
      * replace (length results + Datatypes.S i)%nat with (length results + 1 + i)%nat by lia.
        by eapply Hok.
Qed.



End MulticallFacts.


(** ** Address padding, further *)

Lemma str_length_zfill (w : nat) (s : string) :
  String.length (zfill w s) = Nat.max w (String.length s).
Proof.
  unfold zfill. destruct (w <=? String.length s)%nat eqn:E.
  - apply Nat.leb_le in E. lia.
  - apply Nat.leb_gt in E. destruct s as [|c s].
    + rewrite str_length_repeat. simpl. lia.
    + case_decide.
      * rewrite str_length_cons, str_length_app, str_length_repeat.
        rewrite str_length_cons in *. lia.
      * rewrite str_length_app, str_length_repeat. lia.
Qed.

(** X16. Whatever string it is given, [_pad_address] returns a string that
    starts with [0x] and has at least 66 characters: longer inputs are not
    cut, shorter ones are filled up. *)
Theorem pad_address_shape (address : string) :
  ∃ body, _pad_address address = String "0" (String "x" body)
          ∧ (64 ≤ String.length body)%nat
          ∧ String.length body
            = Nat.max 64 (String.length (replace_0x (str_lower address))).
Proof.
  exists (zfill 64 (replace_0x (str_lower address))).
  split; [done|]. rewrite str_length_zfill. split; lia.
Qed.

Lemma pad_address_unprefixed h :
  str_all is_hex_digit h = true →
  _pad_address h = String "0" (String "x" (zfill 64 (str_lower h))).
Proof.
  intros Hh. unfold _pad_address.
  by rewrite replace_0x_lower_hex by by apply str_lower_hex.
Qed.

(** X17. For a string of hex digits the [0x] prefix is optional and case
    does not matter: the digits alone, the digits behind [0x] or [0X], and
    the lower-cased digits are all padded to the same topic. *)
Theorem pad_address_prefix_and_case (h : string) :
  str_all is_hex_digit h = true →
  _pad_address h = _pad_address (String "0" (String "x" h))
  ∧ _pad_address (String "0" (String "X" h)) = _pad_address (String "0" (String "x" h))
  ∧ _pad_address (str_lower h) = _pad_address h.
Proof.
  intros Hh. rewrite pad_address_prefixed, pad_address_unprefixed by done.
  split; [done|]. split.
  { unfold _pad_address.
    change (str_lower (String "0" (String "X" h)))
      with (String "0" (String "x" (str_lower h))).
    rewrite replace_0x_cons2, decide_True by done.
    by rewrite replace_0x_lower_hex by by apply str_lower_hex. }
  rewrite pad_address_unprefixed
    by by apply str_all_lower_hex_hex, str_lower_hex.
  by rewrite str_lower_fixed by by apply str_lower_hex.
Qed.

Lemma pad_address_prefix_and_case_witness :
  _pad_address "AbCdEF0123456789abcdef0123456789ABCDEF01"
  = _pad_address "0xAbCdEF0123456789abcdef0123456789ABCDEF01"
  ∧ _pad_address "0XAbCdEF0123456789abcdef0123456789ABCDEF01"
    = _pad_address "0xAbCdEF0123456789abcdef0123456789ABCDEF01"
  ∧ _pad_address "abcdef0123456789abcdef0123456789abcdef01"
    = _pad_address "AbCdEF0123456789abcdef0123456789ABCDEF01".
Proof.
  exact (pad_address_prefix_and_case "AbCdEF0123456789abcdef0123456789ABCDEF01" eq_refl).
Defined.

(** ** Log chunking, further *)

(** X18. Nothing guards against a provider that keeps suggesting the very
    range it was asked for: the query then never returns, whatever recursion
    depth it is allowed. *)
Theorem chunking_diverges_on_repeated_suggestion {S : Type} (make_request : GetLogs S)
    (tps : list (option string)) (g1 g2 : string) :
  (∀ s, ∃ error_msg s',
     make_request (mkFilter ("0x" +:+ g1) ("0x" +:+ g2) tps) s = (Raise error_msg, s')
     ∧ chunk_suggestion error_msg = Some (g1, g2)) →
  ∀ fuel s,
    _query_logs_with_chunking make_request fuel tps ("0x" +:+ g1) ("0x" +:+ g2) s = None.
Proof.
  intros Hsame fuel. induction fuel as [|fuel IH]; intros s; [done|].
  simpl. destruct (Hsame s) as (error_msg & s' & -> & ->). by rewrite IH.
Qed.

Lemma chunking_diverges_on_repeated_suggestion_witness :
  _query_logs_with_chunking stubborn_provider 1000 [] "0x0" "0x4" () = None.
Proof.
  apply (chunking_diverges_on_repeated_suggestion stubborn_provider [] "0" "4").
  intros s. exists too_many_0_4, s. split; reflexivity.
Defined.

(** ** Chain scans, further *)

Section ScanMore.
Context {W : Type} (env : Env W).

Lemma scan_chain_shape fuel user c st a st' :
  scan_chain env fuel user c st = Some (a, st') →
  activity_chain a = c ∧ (has_activity a = false → protocols_detected a = []).
Proof.
  unfold scan_chain. destruct (_has_chain_activity env user c st) as [[] st1]; simpl.
  - destruct (discover_protocols env fuel user c st1) as [[ps st2]|]; [|done].
    intros ?; simplify_eq. by split.
  - intros ?; simplify_eq. by split.
Qed.

Lemma scan_all_chains_loop_shape fuel user active chains results st res st' :
  scan_all_chains_loop env fuel user active chains results st = Some (res, st') →
  map activity_chain res = map activity_chain results ++ chains
  ∧ (Forall (λ a, has_activity a = false → protocols_detected a = []) results →
     Forall (λ a, has_activity a = false → protocols_detected a = []) res).
Proof.
  revert results st. induction chains as [|c chains IH]; intros results st; simpl.
  - intros ?; simplify_eq. by rewrite app_nil_r.
  - case_decide.
    + destruct (scan_chain env fuel user c st) as [[a st1]|] eqn:E; [|done].
      apply scan_chain_shape in E as [Hc Hq].
      intros [Hm Hf]%IH. rewrite map_app in Hm. simpl in Hm.
      rewrite Hc, <-app_assoc in Hm. split; [done|].
      intros Hres. apply Hf, Forall_app. split; [done|]. by constructor.
    + intros [Hm Hf]%IH. rewrite map_app, <-app_assoc in Hm. split; [done|].
      intros Hres. apply Hf, Forall_app. split; [done|]. by constructor.
Qed.

(** X19. Whenever the scan of all chains returns, it reports every supported
    chain exactly once, in the configured order, and a chain reported without
    activity carries no detected protocol. *)
Theorem scan_all_chains_shape fuel user st acts st' :
  scan_all_chains env fuel user st = Some (acts, st') →
  map activity_chain acts = all_supported_chains env
  ∧ Forall (λ a, has_activity a = false → protocols_detected a = []) acts.
Proof.
  unfold scan_all_chains.
  destruct (detect_active_chains env user st) as [active st1].
  intros [Hm Hf]%scan_all_chains_loop_shape. split; [done|]. by apply Hf.
Qed.

Lemma silent_has_chain_activity user c st :
  (∀ w, shows_no_log (rpc_get_logs env (activity_filter user) w).1) →
  ∃ st', _has_chain_activity env user c st = (false, st')
         ∧ trace st' = EvGetLogs (activity_filter user) :: trace st.
Proof.
  intros Hsilent. unfold _has_chain_activity, make_request.
  specialize (Hsilent (world st)).
  destruct (rpc_get_logs env (activity_filter user) (world st)) as [[logs|e] w];
    simpl in Hsilent; [subst logs|]; by eexists.
Qed.

Lemma silent_detect_active_chains user chains active st :
  (∀ w, shows_no_log (rpc_get_logs env (activity_filter user) w).1) →
  ∃ st', detect_active_chains_loop env user chains active st = (active, st')
         ∧ trace st'
           = replicate (length chains) (EvGetLogs (activity_filter user)) ++ trace st.
Proof.
  intros Hsilent. revert st. induction chains as [|c chains IH]; intros st; simpl.
  - by eexists.
  - destruct (silent_has_chain_activity user c st Hsilent) as (st1 & -> & Ht1).
    destruct (IH st1) as (st2 & -> & Ht2). exists st2. split; [done|].
    rewrite Ht2, Ht1. simpl.
    by rewrite (cons_middle (EvGetLogs (activity_filter user))), app_assoc,
      <-replicate_cons_app.
Qed.

Lemma scan_all_chains_loop_none_active fuel user chains results (st : State W) :
  scan_all_chains_loop env fuel user [] chains results st
  = Some (results ++ map (λ c, mkActivity c false []) chains, st).
Proof.
  revert results. induction chains as [|c chains IH]; intros results; simpl.
  - by rewrite app_nil_r.
  - by rewrite IH, <-app_assoc.
Qed.

(** X20. A provider failure counts as "no activity".  When every answer to
    the activity probe is an error or an empty list, the scan reports every
    supported chain as inactive, [get_all_positions] returns the empty
    summary without raising, and exactly one probe per supported chain has
    been made. *)
Theorem unreachable_provider_means_no_activity fuel user (st : State W) :
  (∀ w, shows_no_log (rpc_get_logs env (activity_filter user) w).1) →
  ∃ st',
    scan_all_chains env fuel user st
    = Some (map (λ c, mkActivity c false []) (all_supported_chains env), st')
    ∧ get_all_positions env fuel user st = Some (mkSummary user [] 0%Qc ∅ ∅ 0%Qc, st')
    ∧ trace st'
      = replicate (length (all_supported_chains env)) (EvGetLogs (activity_filter user))
        ++ trace st.
Proof.
  intros Hsilent.
  destruct (silent_detect_active_chains user (all_supported_chains env) [] st Hsilent)
    as (st' & Hd & Ht).
  exists st'.
  assert (Hs : scan_all_chains env fuel user st
    = Some (map (λ c, mkActivity c false []) (all_supported_chains env), st')).
  { unfold scan_all_chains, detect_active_chains. rewrite Hd.
    by rewrite scan_all_chains_loop_none_active. }
  split; [exact Hs|]. split; [|exact Ht].
  unfold get_all_positions. rewrite Hs.
  rewrite filter_active_nil; [done|].
  apply Forall_fmap, Forall_forall. by intros c _.
Qed.

Lemma probe_layouts_evidence fuel layouts st st' :
  probe_layouts env fuel layouts st = Some (true, st') →
  ∃ tps st_a st_b logs,
    tps ∈ layouts
    ∧ _query_logs_with_chunking (make_request env) fuel tps "0x0" "latest" st_a
      = Some (Ok logs, st_b)
    ∧ logs ≠ [].
Proof.
  revert st. induction layouts as [|tps layouts IH]; intros st; simpl; [done|].
  destruct (_query_logs_with_chunking (make_request env) fuel tps "0x0" "latest" st)
    as [[[logs|e] st1]|] eqn:E; [| |done].
  - case_bool_decide as Hlen.
    + intros _. exists tps, st, st1, logs. split; [left|]. split; [done|].
      intros ->. simpl in Hlen. lia.
    + intros (t & sa & sb & l & Hin & Hq)%IH. exists t, sa, sb, l. split; [by right|done].
  - intros (t & sa & sb & l & Hin & Hq)%IH. exists t, sa, sb, l. split; [by right|done].
Qed.

Lemma has_protocol_activity_evidence fuel padded sigs st st' :
  _has_protocol_activity_loop env fuel padded sigs st = Some (true, st') →
  ∃ event_sig tps st_a st_b logs,
    event_sig ∈ sigs ∧ tps ∈ topic_layouts event_sig padded
    ∧ _query_logs_with_chunking (make_request env) fuel tps "0x0" "latest" st_a
      = Some (Ok logs, st_b)
    ∧ logs ≠ [].
Proof.
  revert st. induction sigs as [|event_sig sigs IH]; intros st; [done|].
  cbn [_has_protocol_activity_loop].
  destruct (probe_layouts env fuel (topic_layouts event_sig padded) st)
    as [[[] st1]|] eqn:E; [| |done].
  - intros _. apply probe_layouts_evidence in E as (t & sa & sb & l & Hin & Hq).
    exists event_sig, t, sa, sb, l. split; [left|done].
  - intros (sg & t & sa & sb & l & Hin & Hq)%IH.
    exists sg, t, sa, sb, l. split; [by right|done].
Qed.

Lemma discover_protocols_loop_evidence fuel user c items discovered st ps st' :
  discover_protocols_loop env fuel user c items discovered st = Some (ps, st') →
  ∃ more, ps = discovered ++ more ∧ sublist more items.*1
    ∧ ∀ p, p ∈ more →
        ∃ sigs event_sig tps st_a st_b logs,
          (p, sigs) ∈ items ∧ event_sig ∈ sigs
          ∧ tps ∈ topic_layouts event_sig (_pad_address user)
          ∧ _query_logs_with_chunking (make_request env) fuel tps "0x0" "latest" st_a
            = Some (Ok logs, st_b)
          ∧ logs ≠ [].
Proof.
  revert discovered st. induction items as [|[name sigs] items IH]; intros discovered st; simpl.
  - intros ?; simplify_eq. exists []. rewrite app_nil_r. split; [done|].
    split; [constructor|]. intros p Hp. inversion Hp.
  - destruct (_has_protocol_activity env fuel user c sigs st) as [[b st1]|] eqn:E; [|done].
    intros (more & -> & Hsub & Hev)%IH. destruct b.
    + exists (name :: more). rewrite <-app_assoc. split; [done|].
      split; [by constructor|].
      intros p [->|Hp]%elem_of_cons.
      * apply has_protocol_activity_evidence in E
          as (sg & t & sa & sb & l & Hsg & Ht & Hq).
        exists sigs, sg, t, sa, sb, l. split; [left|done].
      * destruct (Hev p Hp) as (sgs & sg & t & sa & sb & l & Hin & Hrest).
        exists sgs, sg, t, sa, sb, l. split; [by right|done].
    + exists more. split; [done|]. split; [by constructor|].
      intros p Hp. destruct (Hev p Hp) as (sgs & sg & t & sa & sb & l & Hin & Hrest).
      exists sgs, sg, t, sa, sb, l. split; [by right|done].
Qed.

Lemma dict_set_elem_inv {V : Type} (d : list (string * V)) k v k0 v0 :
  (k0, v0) ∈ dict_set d k v → (k0, v0) ∈ d ∨ (k0 = k ∧ v0 = v).
Proof.
  induction d as [|[k' v'] d IH]; simpl.
  - intros [?|H]%elem_of_cons; [simplify_eq; by right | inversion H].
  - case_decide.
    + intros [?|H']%elem_of_cons; [simplify_eq; by right | left; by right].
    + intros [?|H']%elem_of_cons; [simplify_eq; left; left|].
      destruct (IH H') as [?|?]; [left; by right | by right].
Qed.

Lemma discovery_events_from_registry c name sigs :
  (name, sigs) ∈ get_discovery_events env c →
  ∃ handler, (name, handler) ∈ registry env
             ∧ c ∈ supported_chains handler
             ∧ sigs = discovery_events handler.
Proof.
  unfold get_discovery_events, get_handlers_for_chain.
  assert (G : ∀ (l : list (string * Handler W)) events,
    (name, sigs) ∈ fold_left (λ events nh, dict_set events nh.1 (discovery_events nh.2)) l events →
    (name, sigs) ∈ events ∨ ∃ h, (name, h) ∈ l ∧ sigs = discovery_events h).
  { induction l as [|[n h] l IH]; intros events; simpl; [by left|].
    intros [Hin|(h' & Hh & ->)]%IH.
    - apply dict_set_elem_inv in Hin as [?|[-> ->]]; [by left|].
      right. exists h. split; [left|done].
    - right. exists h'. split; [by right|done]. }
  intros [Hin|(h & Hh & ->)]%G; [inversion Hin|].
  apply list_elem_of_filter in Hh as [Hc Hh]. by exists h.
Qed.

Lemma discovery_events_keys_nodup c : NoDup (get_discovery_events env c).*1.
Proof.
  unfold get_discovery_events.
  assert (G : ∀ (l : list (string * Handler W)) (events : list (string * list string)),
    NoDup (dict_keys events) →
    NoDup (dict_keys (fold_left (λ events nh, dict_set events nh.1 (discovery_events nh.2))
                        l events))).
  { induction l as [|nh l IH]; intros events Hnd; simpl; [done|].
    by apply IH, dict_set_keys_nodup. }
  apply (G _ []). constructor.
Qed.

(** X21. Every protocol that discovery reports is backed by evidence: it is
    a registered handler that supports the chain, and for one of its
    discovery events and one of the three topic layouts of that event the
    chunked log query returned at least one log.  No protocol is reported
    twice. *)
Theorem discovered_protocols_have_evidence fuel user c st ps st' :
  discover_protocols env fuel user c st = Some (ps, st') →
  NoDup ps
  ∧ ∀ p, p ∈ ps →
      ∃ handler event_sig tps st_a st_b logs,
        (p, handler) ∈ registry env
        ∧ c ∈ supported_chains handler
        ∧ event_sig ∈ discovery_events handler
        ∧ tps ∈ topic_layouts event_sig (_pad_address user)
        ∧ _query_logs_with_chunking (make_request env) fuel tps "0x0" "latest" st_a
          = Some (Ok logs, st_b)
        ∧ logs ≠ [].
Proof.
  unfold discover_protocols.
  intros (more & -> & Hsub & Hev)%discover_protocols_loop_evidence. simpl. split.
  - eapply sublist_NoDup; [|exact Hsub]. apply discovery_events_keys_nodup.
  - intros p Hp. destruct (Hev p Hp) as (sgs & sg & t & sa & sb & l & Hin & Hsg & Hrest).
    apply discovery_events_from_registry in Hin as (h & Hh & Hc & ->).
    by exists h, sg, t, sa, sb, l.
Qed.

End ScanMore.

Lemma unreachable_provider_means_no_activity_witness :
  ∃ st',
    scan_all_chains unreachable_env 7 sample_wallet (mkState () [])
    = Some ([mkActivity "ethereum" false []; mkActivity "base" false []], st')
    ∧ get_all_positions unreachable_env 7 sample_wallet (mkState () [])
      = Some (mkSummary sample_wallet [] 0%Qc ∅ ∅ 0%Qc, st')
    ∧ trace st' = replicate 2 (EvGetLogs (activity_filter sample_wallet)) ++ [].
Proof.
  apply (unreachable_provider_means_no_activity unreachable_env 7 sample_wallet
           (mkState () [])).
  intros w. exact I.
Defined.

Lemma scan_all_chains_shape_witness :
  map activity_chain
    [mkActivity "ethereum" false []; mkActivity "base" false []]
  = all_supported_chains fading_env.
Proof.
  assert (E : scan_all_chains fading_env 0 sample_wallet (mkState 0%nat [])
    = Some ([mkActivity "ethereum" false []; mkActivity "base" false []],
            mkState 3%nat (replicate 3 (EvGetLogs (activity_filter sample_wallet)))))
    by (vm_compute; reflexivity).
  exact (proj1 (scan_all_chains_shape fading_env 0 sample_wallet _ _ _ E)).
Defined.

Lemma discovered_protocols_have_evidence_witness :
  discover_protocols busy_env 2 sample_wallet "ethereum" (mkState () [])
  = Some (["lido"; "aave_v3"],
          mkState ()
            [EvGetLogs (mkFilter "0x0" "latest" [Some "0xbeef"; Some (_pad_address sample_wallet)]);
             EvGetLogs (mkFilter "0x0" "latest" [Some "0xfeed"; Some (_pad_address sample_wallet)]);
             EvDiscover sample_wallet "ethereum"])
  ∧ NoDup ["lido"; "aave_v3"].
Proof.
  assert (E : discover_protocols busy_env 2 sample_wallet "ethereum" (mkState () [])
    = Some (["lido"; "aave_v3"],
          mkState ()
            [EvGetLogs (mkFilter "0x0" "latest" [Some "0xbeef"; Some (_pad_address sample_wallet)]);
             EvGetLogs (mkFilter "0x0" "latest" [Some "0xfeed"; Some (_pad_address sample_wallet)]);
             EvDiscover sample_wallet "ethereum"]))
    by (vm_compute; reflexivity).
  split; [exact E|].
  exact (proj1 (discovered_protocols_have_evidence busy_env 2 sample_wallet "ethereum"
                  _ _ _ E)).
Defined.

(** ** Handler registry *)

Section RegistryFacts.
Context {W V : Type}.

Lemma dict_get_set_eq (d : list (string * V)) k v : dict_get (dict_set d k v) k = Some v.
Proof.
  induction d as [|[k' v'] d IH]; simpl.
  - by rewrite decide_True.
  - case_decide as Hk; simpl.
    + by rewrite decide_True.
    + by rewrite decide_False.
Qed.

Lemma dict_get_set_ne (d : list (string * V)) k v k' :
  k ≠ k' → dict_get (dict_set d k v) k' = dict_get d k'.
Proof.
  intros Hne. induction d as [|[k0 v0] d IH]; simpl.
  - by rewrite decide_False.
  - case_decide as Hk; simpl.
    + subst k0. by rewrite !decide_False.
    + case_decide; [done|]. exact IH.
Qed.

Lemma dict_keys_set (d : list (string * V)) k v :
  dict_keys (dict_set d k v)
  = if decide (k ∈ dict_keys d) then dict_keys d else dict_keys d ++ [k].
Proof.
  induction d as [|[k0 v0] d IH]; [done|].
  cbn [dict_set]. destruct (decide (k0 = k)) as [->|Hk]; cbn [dict_keys map fst].
  - by rewrite decide_True by left.
  - fold (dict_keys (dict_set d k v)). fold (dict_keys d). rewrite IH.
    destruct (decide (k ∈ dict_keys d)) as [Hin|Hnin].
    + by rewrite decide_True by by right.
    + rewrite decide_False; [done|]. intros [?|?]%elem_of_cons; congruence.
Qed.

Lemma dict_get_elem_of (d : list (string * V)) k v :
  NoDup (dict_keys d) → (k, v) ∈ d ↔ dict_get d k = Some v.
Proof.
  induction d as [|[k0 v0] d IH]; simpl; intros Hnd.
  - split; [inversion 1|done].
  - apply NoDup_cons in Hnd as [Hnin Hnd]. case_decide as Hk.
    + subst k0. split.
      * intros [?|Hin]%elem_of_cons; [by simplify_eq|].
        exfalso. apply Hnin. apply list_elem_of_fmap. by exists (k, v).
      * intros ?; simplify_eq. left.
    + rewrite <-IH by done. split.
      * intros [?|Hin]%elem_of_cons; [by simplify_eq|done].
      * by right.
Qed.

End RegistryFacts.

(** X22. Registering a handler class under a name makes [get_handler]
    return it for that name, replacing an earlier registration of the same
    name in place, and changes nothing for other names; a new name goes to
    the end of the listing and names stay unique.  A class without a [name]
    is refused and nothing is registered. *)
Theorem register_then_get_handler {W : Type} (env : Env W) (class_name n : string)
    (handler_class : Handler W) :
  let _handlers := registry env in
  Registry.register _handlers class_name None handler_class
  = Raise ("Handler " +:+ class_name +:+ " must define 'name' attribute")
  ∧ ∃ _handlers',
      Registry.register _handlers class_name (Some n) handler_class = Ok _handlers'
      ∧ get_handler (with_registry env _handlers') n = Some handler_class
      ∧ (∀ n', n ≠ n' →
           get_handler (with_registry env _handlers') n' = get_handler env n')
      ∧ Registry.list_protocols _handlers'
        = (if decide (n ∈ Registry.list_protocols _handlers)
           then Registry.list_protocols _handlers
           else Registry.list_protocols _handlers ++ [n])
      ∧ (NoDup (Registry.list_protocols _handlers) →
         NoDup (Registry.list_protocols _handlers')).
Proof.
  simpl. split; [done|]. eexists. split; [done|].
  unfold get_handler, Registry.list_protocols. simpl.
  split; [apply dict_get_set_eq|]. split; [intros n' Hne; by apply dict_get_set_ne|].
  split; [apply dict_keys_set | apply dict_set_keys_nodup].
Qed.

Lemma discovery_events_lookup {W : Type} (f : Handler W → list string)
    (l : list (string * Handler W)) (events : list (string * list string)) k :
  NoDup l.*1 →
  dict_get (fold_left (λ events nh, dict_set events nh.1 (f nh.2)) l events) k
  = match dict_get l k with
    | Some h => Some (f h)
    | None => dict_get events k
    end.
Proof.
  revert events. induction l as [|[n h] l IH]; intros events Hnd; simpl; [done|].
  apply NoDup_cons in Hnd as [Hnin Hnd]. rewrite IH by done.
  case_decide as Hk.
  - subst n. destruct (dict_get l k) as [h'|] eqn:E.
    + exfalso. apply Hnin. apply (dict_get_elem_of l k h') in E; [|done].
      apply list_elem_of_fmap. by exists (k, h').
    + apply dict_get_set_eq.
  - destruct (dict_get l k); [done|]. by apply dict_get_set_ne.
Qed.

Lemma dict_get_handlers_for_chain {W : Type} (c : string)
    (l : list (string * Handler W)) k :
  NoDup l.*1 →
  dict_get (filter (λ nh, c ∈ supported_chains nh.2) l) k
  = h ← dict_get l k; if decide (c ∈ supported_chains h) then Some h else None.
Proof.
  induction l as [|[n h] l IH]; intros Hnd; [done|].
  apply NoDup_cons in Hnd as [Hnin Hnd].
  destruct (decide (c ∈ supported_chains h)) as [HP|HP].
  - rewrite filter_cons_True by done. cbn [dict_get].
    destruct (decide (n = k)) as [->|Hk]; simpl.
    + by rewrite decide_True.
    + by apply IH.
  - rewrite filter_cons_False by done. rewrite IH by done. cbn [dict_get].
    destruct (decide (n = k)) as [->|Hk]; [|done].
    simpl. rewrite decide_False by done.
    destruct (dict_get l k) as [h'|] eqn:E; [|done].
    exfalso. apply Hnin. apply (dict_get_elem_of l k h') in E; [|done].
    apply list_elem_of_fmap. by exists (k, h').
Qed.

Lemma NoDup_fst_filter {W : Type} (P : string * Handler W → Prop) `{∀ x, Decision (P x)}
    (l : list (string * Handler W)) :
  NoDup l.*1 → NoDup (filter P l).*1.
Proof.
  intros Hnd. eapply sublist_NoDup; [exact Hnd|].
  apply fmap_sublist, sublist_filter.
Qed.

(** X23. With unique handler names, the discovery events of a chain map a
    protocol name to a list of event signatures exactly when a handler is
    registered under that name, supports the chain, and declares that list. *)
Theorem discovery_events_exact {W : Type} (env : Env W) (c name : string)
    (sigs : list string) :
  NoDup (registry env).*1 →
  dict_get (get_discovery_events env c) name = Some sigs
  ↔ ∃ handler, get_handler env name = Some handler
               ∧ c ∈ supported_chains handler
               ∧ sigs = discovery_events handler.
Proof.
  intros Hnd. unfold get_discovery_events, get_handlers_for_chain, get_handler.
  rewrite discovery_events_lookup by by apply NoDup_fst_filter.
  rewrite dict_get_handlers_for_chain by done.
  destruct (dict_get (registry env) name) as [h|]; simpl.
  - case_decide as Hc; simpl.
    + split; [intros ?; simplify_eq; by exists h|].
      by intros (h' & ? & _ & ->); simplify_eq.
    + split; [done|]. by intros (h' & ? & ? & _); simplify_eq.
  - split; [done|]. by intros (h' & ? & _).
Qed.

Lemma discovery_events_exact_witness :
  dict_get (get_discovery_events busy_env "base") "aave_v3" = Some ["0xbeef"]
  ∧ dict_get (get_discovery_events busy_env "base") "lido" = None.
Proof.
  assert (Hnd : NoDup (registry busy_env).*1).
  { simpl. repeat constructor; [|inversion 1]. by intros [?|?%elem_of_nil]%elem_of_cons. }
  split.
  - apply (proj2 (discovery_events_exact busy_env "base" "aave_v3" ["0xbeef"] Hnd)).
    eexists. split; [reflexivity|]. split; [|reflexivity]. simpl. right. left.
  - reflexivity.
Defined.

(** ** Orchestration *)

Section Orchestration.
Context {W : Type} (env : Env W).

Lemma trace_extends_refl P (st : State W) : trace_extends P st st.
Proof. exists []. by split. Qed.

Lemma trace_extends_trans P (st1 st2 st3 : State W) :
  trace_extends P st1 st2 → trace_extends P st2 st3 → trace_extends P st1 st3.
Proof.
  intros (d1 & E1 & H1) (d2 & E2 & H2). exists (d2 ++ d1). split.
  - by rewrite E2, E1, app_assoc.
  - by apply Forall_app.
Qed.

Lemma trace_extends_step P (st : State W) w ev :
  P ev → trace_extends P st (mkState w (ev :: trace st)).
Proof. intros Hev. exists [ev]. split; [done|]. by constructor. Qed.

Lemma make_request_extends flt (st : State W) :
  trace_extends is_not_pricing st (make_request env flt st).2.
Proof.
  unfold make_request. destruct (rpc_get_logs env flt (world st)) as [r w].
  by apply trace_extends_step.
Qed.

Lemma query_extends fuel tps from_block to_block (st : State W) r st' :
  _query_logs_with_chunking (make_request env) fuel tps from_block to_block st
  = Some (r, st') →
  trace_extends is_not_pricing st st'.
Proof.
  revert tps from_block to_block st r st'.
  induction fuel as [|fuel IH]; intros tps from_block to_block st r st'; [done|].
  simpl. pose proof (make_request_extends (mkFilter from_block to_block tps) st) as H0.
  destruct (make_request env _ st) as [[logs|error_msg] st1]; simpl in H0.
  { intros ?; by simplify_eq. }
  destruct (chunk_suggestion error_msg) as [[g1 g2]|]; [|intros ?; by simplify_eq].
  destruct (_query_logs_with_chunking (make_request env) fuel tps _ _ st1)
    as [[[chunk_logs|e] st2]|] eqn:E1; [| |done]; apply IH in E1.
  2: { intros ?; simplify_eq. by eapply trace_extends_trans. }
  assert (H2 : trace_extends is_not_pricing st st2) by by eapply trace_extends_trans.
  assert (Hside : ∀ all_logs f t st_a x st_b,
    extend_or_pass all_logs (_query_logs_with_chunking (make_request env) fuel tps f t st_a)
    = Some (x, st_b) → trace_extends is_not_pricing st_a st_b).
  { intros all_logs f t st_a x st_b.
    destruct (_query_logs_with_chunking (make_request env) fuel tps f t st_a)
      as [[[more|e] st_c]|] eqn:E; [| |done]; apply IH in E;
      simpl; intros ?; by simplify_eq. }
  destruct (if decide (from_block = "0x" +:+ g1) then _ else _)
    as [[all_logs st3]|] eqn:E2; [|done].
  assert (H3 : trace_extends is_not_pricing st st3).
  { case_decide; [by simplify_eq|]. apply Hside in E2. by eapply trace_extends_trans. }
  destruct (if decide (to_block = "latest" ∨ to_block ≠ "0x" +:+ g2) then _ else _)
    as [[all_logs' st4]|] eqn:E3; [|done].
  intros ?; simplify_eq.
  case_decide; [|by simplify_eq]. apply Hside in E3. by eapply trace_extends_trans.
Qed.

Lemma probe_layouts_extends fuel layouts (st : State W) b st' :
  probe_layouts env fuel layouts st = Some (b, st') →
  trace_extends is_not_pricing st st'.
Proof.
  revert st. induction layouts as [|tps layouts IH]; intros st; simpl.
  { intros ?; simplify_eq. apply trace_extends_refl. }
  destruct (_query_logs_with_chunking (make_request env) fuel tps "0x0" "latest" st)
    as [[[logs|e] st1]|] eqn:E; [| |done]; apply query_extends in E.
  - case_bool_decide.
    + intros ?; by simplify_eq.
    + intros ?%IH. by eapply trace_extends_trans.
  - intros ?%IH. by eapply trace_extends_trans.
Qed.

Lemma has_protocol_activity_extends fuel padded sigs (st : State W) b st' :
  _has_protocol_activity_loop env fuel padded sigs st = Some (b, st') →
  trace_extends is_not_pricing st st'.
Proof.
  revert st. induction sigs as [|event_sig sigs IH]; intros st.
  { simpl. intros ?; simplify_eq. apply trace_extends_refl. }
  cbn [_has_protocol_activity_loop].
  destruct (probe_layouts env fuel (topic_layouts event_sig padded) st)
    as [[[] st1]|] eqn:E; [| |done]; apply probe_layouts_extends in E.
  - intros ?; by simplify_eq.
  - intros ?%IH. by eapply trace_extends_trans.
Qed.

Lemma discover_protocols_loop_extends fuel user c items discovered (st : State W) ps st' :
  discover_protocols_loop env fuel user c items discovered st = Some (ps, st') →
  trace_extends is_not_pricing st st'.
Proof.
  revert discovered st. induction items as [|[name sigs] items IH]; intros discovered st; simpl.
  { intros ?; simplify_eq. apply trace_extends_refl. }
  destruct (_has_protocol_activity env fuel user c sigs st) as [[b st1]|] eqn:E; [|done].
  apply has_protocol_activity_extends in E.
  intros ?%IH. by eapply trace_extends_trans.
Qed.

Lemma only_probes_not_pricing user (st st' : State W) :
  only_activity_probes user st st' → trace_extends is_not_pricing st st'.
Proof.
  intros (delta & E & H). exists delta. split; [done|].
  eapply Forall_impl; [exact H|]. by intros ev ->.
Qed.

Lemma scan_chain_extends fuel user c (st : State W) a st' :
  scan_chain env fuel user c st = Some (a, st') →
  trace_extends is_not_pricing st st'.
Proof.
  unfold scan_chain.
  pose proof (only_probes_not_pricing user _ _ (has_chain_activity_probes env user c st)) as H0.
  destruct (_has_chain_activity env user c st) as [[] st1]; simpl in *.
  - unfold discover_protocols.
    destruct (discover_protocols_loop env fuel user c _ [] _) as [[ps st2]|] eqn:E; [|done].
    apply discover_protocols_loop_extends in E. intros ?; simplify_eq.
    eapply trace_extends_trans; [exact H0|].
    eapply trace_extends_trans; [|exact E].
    by apply (trace_extends_step is_not_pricing st1 (world st1)).
  - intros ?; by simplify_eq.
Qed.

Lemma scan_all_chains_extends fuel user (st : State W) acts st' :
  scan_all_chains env fuel user st = Some (acts, st') →
  trace_extends is_not_pricing st st'.
Proof.
  unfold scan_all_chains, detect_active_chains.
  pose proof (only_probes_not_pricing user _ _
    (detect_active_chains_probes env user (all_supported_chains env) [] st)) as H0.
  destruct (detect_active_chains_loop env user (all_supported_chains env) [] st)
    as [active st1]. simpl in H0.
  generalize (@nil ChainActivity). revert H0. generalize st1. clear st1.
  induction (all_supported_chains env) as [|c chains IH]; intros st1 H0 results; simpl.
  { intros ?; by simplify_eq. }
  case_decide.
  - destruct (scan_chain env fuel user c st1) as [[a st2]|] eqn:E; [|done].
    apply scan_chain_extends in E. apply IH. by eapply trace_extends_trans.
  - by apply IH.
Qed.

Lemma get_chain_positions_spec user c protocols found (st : State W) :
  let '(ps, st') := _get_chain_positions env user c protocols found st in
  (∃ more, ps = found ++ more)
  ∧ trace st'
    = rev (map (λ p, EvGetPositions p user c)
             (filter (λ p, is_Some (get_handler env p)) protocols))
      ++ trace st.
Proof.
  revert found st. induction protocols as [|p protocols IH]; intros found st; simpl.
  { split; [exists []; by rewrite app_nil_r | done]. }
  destruct (get_handler env p) as [h|] eqn:Eh.
  - rewrite filter_cons_True by by rewrite Eh.
    destruct (get_positions h user c (world st)) as [[pp|e] w].
    + specialize (IH (found ++ pp) (mkState w (EvGetPositions p user c :: trace st))).
      destruct (_get_chain_positions env user c protocols (found ++ pp) _) as [ps st'].
      destruct IH as [[more ->] Ht]. split; [exists (pp ++ more); by rewrite app_assoc|].
      rewrite Ht. simpl. by rewrite <-app_assoc.
    + specialize (IH found (mkState w (EvGetPositions p user c :: trace st))).
      destruct (_get_chain_positions env user c protocols found _) as [ps st'].
      destruct IH as [Hm Ht]. split; [done|].
      rewrite Ht. simpl. by rewrite <-app_assoc.
  - rewrite filter_cons_False by (rewrite Eh; by intros [? ?]). apply IH.
Qed.

Lemma construct_get_chain_positions_app init user c before rest found (st : State W) :
  Construction.constructible init env before →
  Construction._get_chain_positions init env user c (before ++ rest) found st
  = let '(ps, st1) := _get_chain_positions env user c before found st in
    Construction._get_chain_positions init env user c rest ps st1.
Proof.
  revert found st. induction before as [|p before IH]; intros found st Hc; [done|].
  assert (Hc' : Construction.constructible init env before).
  { intros q hq Hq. apply Hc. by right. }
  simpl. destruct (get_handler env p) as [h|] eqn:Eh; [|by apply IH].
  rewrite (Hc p h) by (done || by left).
  destruct (get_positions h user c (world st)) as [[pp|e] w]; by apply IH.
Qed.

(** X24. When the handlers of the detected protocols can be constructed,
    failures are isolated per protocol: on one chain, every detected protocol
    with a registered handler is asked exactly once, in order, whether or not
    earlier handlers raised; unregistered names are skipped without a call;
    and the positions found so far are never lost.  A handler class whose
    constructor raises is not isolated: its error ends the loop, the
    positions found so far are not returned, and the protocols after it are
    not asked. *)
Theorem get_chain_positions_isolates_failures (init : string → Handler W → option string)
    user c protocols found (st : State W) :
  (Construction.constructible init env protocols →
   ∃ ps st',
     Construction._get_chain_positions init env user c protocols found st = (Ok ps, st')
     ∧ (∃ more, ps = found ++ more)
     ∧ trace st'
       = rev (map (λ p, EvGetPositions p user c)
                (filter (λ p, is_Some (get_handler env p)) protocols))
         ++ trace st)
  ∧ (∀ before p after handler_class error,
       protocols = before ++ p :: after →
       Construction.constructible init env before →
       get_handler env p = Some handler_class →
       init p handler_class = Some error →
       ∃ st',
         Construction._get_chain_positions init env user c protocols found st
         = (Raise error, st')
         ∧ trace st'
           = rev (map (λ p, EvGetPositions p user c)
                    (filter (λ p, is_Some (get_handler env p)) before))
             ++ trace st).
Proof.
  split.
  - intros Hc. pose proof (construct_get_chain_positions_app init user c protocols []
                             found st Hc) as E.
    rewrite app_nil_r in E. rewrite E.
    pose proof (get_chain_positions_spec user c protocols found st) as H.
    destruct (_get_chain_positions env user c protocols found st) as [ps st1].
    exists ps, st1. by destruct H.
  - intros before p after h e -> Hc Eh Ei.
    rewrite construct_get_chain_positions_app by done.
    pose proof (get_chain_positions_spec user c before found st) as H.
    destruct (_get_chain_positions env user c before found st) as [ps st1].
    exists st1. simpl. rewrite Eh, Ei. by destruct H.
Qed.

Lemma get_chain_positions_extends user c protocols found (st : State W) :
  trace_extends is_not_pricing st (_get_chain_positions env user c protocols found st).2.
Proof.
  pose proof (get_chain_positions_spec user c protocols found st) as H.
  destruct (_get_chain_positions env user c protocols found st) as [ps st'].
  destruct H as [_ Ht]. eexists. split; [exact Ht|].
  apply Forall_rev, Forall_fmap, Forall_forall. by intros p _.
Qed.

Lemma fan_out_extends user activities all_positions (st : State W) :
  trace_extends is_not_pricing st (fan_out env user activities all_positions st).2.
Proof.
  revert all_positions st.
  induction activities as [|a activities IH]; intros all_positions st; simpl.
  { apply trace_extends_refl. }
  pose proof (get_chain_positions_extends user (activity_chain a)
                (protocols_detected a) [] st) as H.
  destruct (_get_chain_positions env user (activity_chain a) (protocols_detected a) [] st)
    as [cp st1].
  eapply trace_extends_trans; [exact H | apply IH].
Qed.

Lemma collect_step_enrich prices d p :
  collect_step d (enrich_position prices p) = collect_step d p.
Proof. unfold collect_step, enrich_position. by destruct (priced_value prices p). Qed.

Lemma requested_keys_enrich prices ps :
  requested_keys (enrich_with prices ps) = requested_keys ps.
Proof.
  unfold requested_keys, tokens_to_price, enrich_with. f_equal.
  generalize (@nil (PriceKey * Token)).
  induction ps as [|p ps IH]; intros d; simpl; [done|].
  by rewrite collect_step_enrich, IH.
Qed.

Lemma enrich_positions_trace ps (st : State W) :
  let '(ps', st') := _enrich_positions_with_pricing env ps st in
  (ps = [] ↔ ps' = [])
  ∧ trace st'
    = (if decide (ps' = []) then [] else [EvGetPrices (requested_keys ps')]) ++ trace st.
Proof.
  unfold _enrich_positions_with_pricing. destruct ps as [|p ps]; [done|].
  destruct (pricing_get_prices env _ (world st)) as [prices w]. simpl.
  split; [done|]. f_equal. f_equal.
  symmetry. apply (requested_keys_enrich prices (p :: ps)).
Qed.

Lemma context_dict_add_fold_keys (key : Position → string) ps k :
  is_Some (fold_left (λ d p, DecimalContext.dict_add d (key p) (or_zero (usd_value p)))
             ps ∅ !! k)
  ↔ k ∈ map key ps.
Proof.
  rewrite context_dict_add_fold_lookup, lookup_empty.
  case_decide; split; [done | by eexists | by intros [? ?] | done].
Qed.

Lemma construct_get_chain_positions_extends init user c protocols found (st : State W) :
  trace_extends is_not_pricing st
    (Construction._get_chain_positions init env user c protocols found st).2.
Proof.
  revert found st. induction protocols as [|p protocols IH]; intros found st; simpl.
  { apply trace_extends_refl. }
  destruct (get_handler env p) as [h|]; [|apply IH].
  destruct (init p h) as [e|]; [apply trace_extends_refl|].
  destruct (get_positions h user c (world st)) as [[pp|e] w];
    (eapply trace_extends_trans; [|apply IH]);
    by apply (trace_extends_step is_not_pricing st w).
Qed.

Lemma full_fan_out_extends init user activities all_positions (st : State W) :
  trace_extends is_not_pricing st
    (FullRun.fan_out init env user activities all_positions st).2.
Proof.
  revert all_positions st.
  induction activities as [|a activities IH]; intros all_positions st; simpl.
  { apply trace_extends_refl. }
  pose proof (construct_get_chain_positions_extends init user (activity_chain a)
                (protocols_detected a) [] st) as H.
  destruct (Construction._get_chain_positions init env user (activity_chain a)
              (protocols_detected a) [] st) as [[cp|e] st1];
    (eapply trace_extends_trans; [exact H | apply IH]).
Qed.

(** X25. Every summary that [get_all_positions] returns carries the wallet
    address and has a by-chain (a by-protocol) entry exactly for the chains
    (the protocols) of its positions.  The pricing service is called at most
    once, as the last call of the run and with the price keys of the returned
    positions; it is not called at all when there are no positions.  This
    holds whether or not handler constructors raise and whatever the
    additions round. *)
Theorem get_all_positions_summary_consistent (init : string → Handler W → option string)
    fuel user (st : State W) s st' :
  FullRun.get_all_positions init env fuel user st = Some (s, st') →
  summary_address s = user
  ∧ (∀ k, is_Some (by_chain s !! k) ↔ k ∈ map chain (positions s))
  ∧ (∀ k, is_Some (by_protocol s !! k) ↔ k ∈ map protocol (positions s))
  ∧ ∃ before,
      Forall is_not_pricing before
      ∧ trace st'
        = (if decide (positions s = []) then []
           else [EvGetPrices (requested_keys (positions s))])
          ++ before ++ trace st.
Proof.
  unfold FullRun.get_all_positions.
  destruct (scan_all_chains env fuel user st) as [[acts st1]|] eqn:Es; [|done].
  apply scan_all_chains_extends in Es.
  destruct (filter (λ a, has_activity a = true) acts) as [|a active].
  { intros ?; simplify_eq. simpl. split; [done|].
    split; [intros k; rewrite lookup_empty, elem_of_nil; split; [by intros [? ?]|done]|].
    split; [intros k; rewrite lookup_empty, elem_of_nil; split; [by intros [? ?]|done]|].
    destruct Es as (delta & E & H). by exists delta. }
  pose proof (full_fan_out_extends init user (a :: active) [] st1) as Hf.
  destruct (FullRun.fan_out init env user (a :: active) [] st1) as [all_positions st2].
  pose proof (enrich_positions_trace all_positions st2) as He.
  destruct (_enrich_positions_with_pricing env all_positions st2) as [enriched st3].
  destruct He as [_ Ht]. intros ?; simplify_eq.
  destruct (context_fold_projections enriched (mkAcc 0%Qc ∅ ∅ 0%Qc)) as (_ & H1 & H2).
  simpl in H1, H2.
  split; [done|].
  cbn [DecimalContext._build_portfolio_summary by_chain by_protocol positions].
  split; [intros k; rewrite H1; apply context_dict_add_fold_keys|].
  split; [intros k; rewrite H2; apply context_dict_add_fold_keys|].
  destruct (trace_extends_trans _ _ _ _ Es Hf) as (delta & E & H).
  simpl in E. exists delta. split; [done|]. by rewrite Ht, E.
Qed.

(** X26. A targeted query for a protocol that is not registered, or for a
    chain the protocol does not support, returns no positions and makes no
    call at all.  Unlike the per-chain loop of the full scan, this query does
    not catch handler errors: when the handler raises on the first chain it
    queries, that error is the result, and pricing is not requested. *)
Theorem get_positions_for_protocol_edges user protocol_name chain_arg (st : State W) :
  (get_handler env protocol_name = None →
     get_positions_for_protocol env user protocol_name chain_arg st = (Ok [], st))
  ∧ (∀ handler c,
       get_handler env protocol_name = Some handler →
       chain_arg = Some c → c ≠ "" → c ∉ supported_chains handler →
       get_positions_for_protocol env user protocol_name chain_arg st = (Ok [], st))
  ∧ (∀ handler c rest e w,
       get_handler env protocol_name = Some handler →
       chains_to_query handler chain_arg = c :: rest →
       get_positions handler user c (world st) = (Raise e, w) →
       get_positions_for_protocol env user protocol_name chain_arg st
       = (Raise e, mkState w (EvGetPositions protocol_name user c :: trace st))).
Proof.
  unfold get_positions_for_protocol. split; [by intros ->|]. split.
  - intros handler c -> -> Hne Hnin. unfold chains_to_query.
    by rewrite !decide_False by done.
  - intros handler c rest e w -> -> Hraise. simpl. by rewrite Hraise.
Qed.

(** X27. A targeted query for a chain on which the activity probe shows
    nothing returns no positions after that one probe: no protocol discovery,
    no handler call, no pricing call. *)
Theorem get_positions_for_chain_inactive fuel user c (st : State W) :
  shows_no_log (rpc_get_logs env (activity_filter user) (world st)).1 →
  ∃ st', get_positions_for_chain env fuel user c st = Some ([], st')
         ∧ trace st' = EvGetLogs (activity_filter user) :: trace st.
Proof.
  intros Hsilent. unfold get_positions_for_chain, scan_chain, _has_chain_activity, make_request.
  destruct (rpc_get_logs env (activity_filter user) (world st)) as [[logs|e] w];
    simpl in Hsilent; [subst logs|]; simpl; by eexists.
Qed.

End Orchestration.

Lemma get_chain_positions_isolates_failures_witness :
  (∃ st',
     Construction._get_chain_positions (Construction.base_init "Handler") busy_env
       sample_wallet "ethereum" ["lido"; "morpho"; "aave_v3"] [] (mkState () [])
     = (Ok [lido_position], st')
     ∧ trace st' = [EvGetPositions "aave_v3" sample_wallet "ethereum";
                    EvGetPositions "lido" sample_wallet "ethereum"])
  ∧ (∃ st',
       Construction._get_chain_positions (Construction.base_init "Handler") nameless_env
         sample_wallet "ethereum" ["lido"; ""; "aave_v3"] [] (mkState () [])
       = (Raise "Handler must define 'name' attribute", st')
       ∧ trace st' = [EvGetPositions "lido" sample_wallet "ethereum"]).
Proof.
  split.
  - assert (Hc : Construction.constructible (Construction.base_init "Handler") busy_env
                   ["lido"; "morpho"; "aave_v3"]).
    { intros p h Hp Eh. unfold get_handler in Eh. simpl in Eh.
      repeat case_decide; simplify_eq; reflexivity. }
    destruct (proj1 (get_chain_positions_isolates_failures busy_env
                       (Construction.base_init "Handler") sample_wallet "ethereum"
                       ["lido"; "morpho"; "aave_v3"] [] (mkState () [])) Hc)
      as (ps & st' & E & _ & Ht).
    exists st'. split; [|exact Ht].
    rewrite E. f_equal. f_equal.
    assert (E' : (Construction._get_chain_positions (Construction.base_init "Handler")
                    busy_env sample_wallet "ethereum" ["lido"; "morpho"; "aave_v3"] []
                    (mkState () [])).1 = Ok [lido_position]) by reflexivity.
    rewrite E in E'. by injection E'.
  - assert (Hc : Construction.constructible (Construction.base_init "Handler") nameless_env
                   ["lido"]).
    { intros p h Hp Eh. apply list_elem_of_singleton in Hp as ->.
      unfold get_handler in Eh. simpl in Eh. simplify_eq. reflexivity. }
    apply (proj2 (get_chain_positions_isolates_failures nameless_env
                    (Construction.base_init "Handler") sample_wallet "ethereum"
                    ["lido"; ""; "aave_v3"] [] (mkState () []))
             ["lido"] "" ["aave_v3"]
             (mkHandler ["ethereum"] ["0xf00d"] (λ _ _ w, (Ok [], w)))
             "Handler must define 'name' attribute");
      [reflexivity | exact Hc | reflexivity | reflexivity].
Defined.

Lemma get_all_positions_summary_consistent_witness :
  ∃ s st',
    FullRun.get_all_positions (Construction.base_init "Handler") busy_env 2 sample_wallet
      (mkState () []) = Some (s, st')
    ∧ summary_address s = sample_wallet
    ∧ (is_Some (by_chain s !! "ethereum") ↔ "ethereum" ∈ map chain (positions s))
    ∧ map chain (positions s) = ["ethereum"]
    ∧ hd_error (trace st') = Some (EvGetPrices [("ethereum", "0xae7a"); ("ethereum", "")]).
Proof.
  destruct (FullRun.get_all_positions (Construction.base_init "Handler") busy_env 2
              sample_wallet (mkState () [])) as [[s st']|] eqn:E;
    [|vm_compute in E; discriminate E].
  exists s, st'. split; [reflexivity|].
  destruct (get_all_positions_summary_consistent busy_env (Construction.base_init "Handler")
              2 sample_wallet _ _ _ E) as (H1 & H2 & _ & _).
  split; [exact H1|]. split; [exact (H2 "ethereum")|].
  assert (Et : let r := default (s, st')
                 (FullRun.get_all_positions (Construction.base_init "Handler") busy_env 2
                    sample_wallet (mkState () [])) in
               map chain (positions r.1) = ["ethereum"]
               ∧ hd_error (trace r.2)
                 = Some (EvGetPrices [("ethereum", "0xae7a"); ("ethereum", "")]))
    by (split; reflexivity).
  by rewrite E in Et.
Defined.

Lemma get_positions_for_protocol_edges_witness :
  get_positions_for_protocol busy_env sample_wallet "morpho" None (mkState () [])
  = (Ok [], mkState () [])
  ∧ get_positions_for_protocol busy_env sample_wallet "lido" (Some "base") (mkState () [])
    = (Ok [], mkState () [])
  ∧ get_positions_for_protocol busy_env sample_wallet "aave_v3" None (mkState () [])
    = (Raise "revert", mkState () [EvGetPositions "aave_v3" sample_wallet "ethereum"]).
Proof.
  split; [|split].
  - apply (proj1 (get_positions_for_protocol_edges busy_env sample_wallet "morpho" None
                    (mkState () []))). reflexivity.
  - apply (proj1 (proj2 (get_positions_for_protocol_edges busy_env sample_wallet "lido"
                           (Some "base") (mkState () [])))
             (mkHandler ["ethereum"] ["0xfeed"] (λ _ _ w, (Ok [lido_position], w))) "base");
      [reflexivity | reflexivity | discriminate |].
    simpl. by intros [?|?%elem_of_nil]%elem_of_cons.
  - apply (proj2 (proj2 (get_positions_for_protocol_edges busy_env sample_wallet "aave_v3"
                           None (mkState () [])))
             (mkHandler ["ethereum"; "base"] ["0xbeef"] (λ _ _ w, (Raise "revert", w)))
             "ethereum" ["base"] "revert" ()); reflexivity.
Defined.

Lemma get_positions_for_chain_inactive_witness :
  ∃ st', get_positions_for_chain unreachable_env 3 sample_wallet "base" (mkState () [])
         = Some ([], st')
         ∧ trace st' = [EvGetLogs (activity_filter sample_wallet)].
Proof.
  apply (get_positions_for_chain_inactive unreachable_env 3 sample_wallet "base"
           (mkState () [])).
  exact I.
Defined.

Lemma set_without_ttl_uses_default_witness :
  Cache.get method_key (dec 300) "eth_gasPrice" []
    (Cache.set method_key (dec 0) "eth_gasPrice" [] "0x07" None two_entry_cache)
  = (Some "0x07",
     Cache.set method_key (dec 0) "eth_gasPrice" [] "0x07" None two_entry_cache)
  ∧ (Cache.get method_key (dec 301) "eth_gasPrice" []
       (Cache.set method_key (dec 0) "eth_gasPrice" [] "0x07" None two_entry_cache)).1
    = None.
Proof.
  pose proof (set_without_ttl_uses_default method_key two_entry_cache (dec 0) (dec 300)
                "eth_gasPrice" [] "0x07") as [Hfresh _].
  pose proof (set_without_ttl_uses_default method_key two_entry_cache (dec 0) (dec 301)
                "eth_gasPrice" [] "0x07") as [_ Hstale].
  split.
  - apply Hfresh. vm_compute. discriminate.
  - apply Hstale. vm_compute. reflexivity.
Defined.

(** ** The priced value of a position and the life of a cache entry *)



(** X29. A value stored with a non-zero TTL, also over an earlier entry
    of the same request, is returned by a lookup while its age is at most
    that TTL, and the cache is left as it is; once its age exceeds the TTL
    the lookup is empty and the entry has been removed. *)
Theorem cache_entry_lives_for_its_ttl {Value : Type}
    (_make_key : string → list string → string) (c : Cache.RPCCache Value) (t0 t : Qc)
    (m : string) (p : list string) (v : Value) (T : Z) :
  T ≠ 0 →
  let c1 := Cache.set _make_key t0 m p v (Some T) c in
  ((t - t0 ≤ Qc_of_Z T)%Qc → Cache.get _make_key t m p c1 = (Some v, c1))
  ∧ ((Qc_of_Z T < t - t0)%Qc →
     (Cache.get _make_key t m p c1).1 = None
     ∧ Cache._cache (Cache.get _make_key t m p c1).2 !! _make_key m p = None).
Proof. apply cache_roundtrip_nonzero_ttl. Qed.

Lemma cache_entry_lives_for_its_ttl_witness :
  Cache.get method_key (dec 70) "eth_call" []
    (Cache.set method_key (dec 10) "eth_call" [] "0x02" (Some 60) two_entry_cache)
  = (Some "0x02",
     Cache.set method_key (dec 10) "eth_call" [] "0x02" (Some 60) two_entry_cache).
Proof.
  assert (H60 : (60 : Z) ≠ 0) by discriminate.
  apply (proj1 (cache_entry_lives_for_its_ttl method_key two_entry_cache (dec 10) (dec 70)
                  "eth_call" [] "0x02" 60 H60)).
  vm_compute. discriminate.
Defined.
